(** * NID field extraction and similarity scoring

    A shallow embedding of [extract_nid_fields] ([nid_extractor.py])
    and of the similarity block of [process_image] ([app.py]), with
    the properties the specification states about them.

    - Text is the Standard Library's [string]; a character is an
      [ascii].  Codes below 128 are classified as Python classifies
      the corresponding code points; the remaining codes stand for
      symbols that are neither letters, digits, whitespace nor word
      characters and that have no case.
    - [re] is embedded as a backtracking matcher over syntax trees
      ([Re]); the patterns are given as trees and checked against the
      pattern texts of the source ([patterns_as_in_source]).
    - The dictionary [nid_data] is a record; the statements of the
      [try] body are state-passing computations that may raise, so
      that what an exception leaves in the dictionary is visible.
    - The file system, the OCR reader and the recognizer are a
      [world]: what they answer is an input of the function.
    - [difflib.SequenceMatcher.ratio] and [round] follow the Python
      library; floats are binary64 numbers as [SpecFloat] defines
      them.
    - [get_reader], the helpers and decorators of [utils.py] and the
      view [process_image] with its route are embedded as functions on
      the state they share (the cached reader, [request_history], the
      cache directory); what the operating system, the clock and the
      libraries answer to one request is part of the request.

    The definitions come first, the properties after them. *)

From Stdlib Require Import List String Ascii Bool Arith Lia ZArith DecimalString.
From Stdlib Require Import Floats.SpecFloat.
Import ListNotations.
Open Scope string_scope.
Open Scope nat_scope.

(** ** Characters and Python string methods *)

Module Py.

Definition code (c : ascii) : nat := nat_of_ascii c.

Definition between (lo hi : nat) (c : ascii) : bool :=
  (lo <=? code c) && (code c <=? hi).

(** [str.isspace] / the class [\s]: TAB..CR, FS..US and the space. *)
Definition is_space (c : ascii) : bool := between 9 13 c || between 28 32 c.

(** The class [\d]. *)
Definition is_digit (c : ascii) : bool := between 48 57 c.

Definition is_upper (c : ascii) : bool := between 65 90 c.
Definition is_lower (c : ascii) : bool := between 97 122 c.

(** The class [\w], which decides where [\b] holds. *)
Definition is_word (c : ascii) : bool :=
  is_digit c || is_upper c || is_lower c || (code c =? 95).

Definition lower_char (c : ascii) : ascii :=
  if is_upper c then ascii_of_nat (code c + 32) else c.

Definition upper_char (c : ascii) : ascii :=
  if is_lower c then ascii_of_nat (code c - 32) else c.

Fixpoint smap (f : ascii -> ascii) (s : string) : string :=
  match s with
  | EmptyString => EmptyString
  | String c t => String (f c) (smap f t)
  end.

(** [s.lower()] and [s.upper()] *)
Definition lower : string -> string := smap lower_char.
Definition upper : string -> string := smap upper_char.

Fixpoint sall (p : ascii -> bool) (s : string) : bool :=
  match s with
  | EmptyString => true
  | String c t => p c && sall p t
  end.

Fixpoint sany (p : ascii -> bool) (s : string) : bool :=
  match s with
  | EmptyString => false
  | String c t => p c || sany p t
  end.

Fixpoint sfilter (p : ascii -> bool) (s : string) : string :=
  match s with
  | EmptyString => EmptyString
  | String c t => if p c then String c (sfilter p t) else sfilter p t
  end.

Fixpoint take (n : nat) (s : string) : string :=
  match n, s with
  | S n', String c t => String c (take n' t)
  | _, _ => EmptyString
  end.

Fixpoint drop (n : nat) (s : string) : string :=
  match n, s with
  | S n', String _ t => drop n' t
  | _, _ => s
  end.

Fixpoint starts_with (p s : string) : bool :=
  match p, s with
  | EmptyString, _ => true
  | String a p', String b s' => Ascii.eqb a b && starts_with p' s'
  | String _ _, EmptyString => false
  end.

(** [needle in hay] *)
Fixpoint contains (needle hay : string) : bool :=
  starts_with needle hay ||
  match hay with
  | EmptyString => false
  | String _ t => contains needle t
  end.

Fixpoint lstrip (s : string) : string :=
  match s with
  | String c t => if is_space c then lstrip t else s
  | EmptyString => EmptyString
  end.

Fixpoint rstrip (s : string) : string :=
  match s with
  | EmptyString => EmptyString
  | String c t =>
      match rstrip t with
      | EmptyString => if is_space c then EmptyString else String c EmptyString
      | t' => String c t'
      end
  end.

(** [s.strip()] *)
Definition strip (s : string) : string := rstrip (lstrip s).

(** [sep.join(parts)] on a list of strings *)
Definition join (sep : string) (parts : list string) : string :=
  String.concat sep parts.

(** Truth value of a string: [if s] *)
Definition truthy (s : string) : bool :=
  match s with EmptyString => false | _ => true end.

Definition nl : ascii := ascii_of_nat 10.

(** Every character is found by going through the 256 codes. *)
Definition all_ascii : list ascii := map ascii_of_nat (seq 0 256).

(** [g] occurs in [text] as a contiguous piece. *)
Definition substring_of (g text : string) : Prop :=
  exists a b : string, text = (a ++ g ++ b)%string.

End Py.

(** ** The fragment of [re] used by the extractor

    Patterns are kept as syntax trees.  Quantifiers occur in the source
    only on single-character classes (and [?] on a group), which is
    what [RRep] and [ROpt] offer.  All quantifiers are greedy. *)

Module Re.
Import Py.

(** One member of a bracketed class. *)
Inductive citem : Type :=
| CChr (c : ascii)            (* a literal character *)
| CRng (lo hi : ascii)        (* lo-hi *)
| CSpace                      (* \s *)
| CDigit.                     (* \d *)

Definition cls : Type := list citem.

Inductive re : Type :=
| RLit (s : string)                            (* literal text *)
| RSet (cs : cls)                              (* [...] , \s , \d *)
| RRep (cs : cls) (lo : nat) (hi : option nat) (* [...]{lo,hi}, *, +, ? *)
| RCat (r1 r2 : re)                            (* r1 r2 *)
| RAlt (r1 r2 : re)                            (* r1|r2 *)
| ROpt (r : re)                                (* (?:r)? *)
| RGrp (r : re)                                (* (r), group 1 *)
| RAhead (r : re)                              (* (?=r) *)
| RBound                                       (* \b *)
| REnd.                                        (* $ *)

Definition item_has (i : citem) (c : ascii) : bool :=
  match i with
  | CChr a => Ascii.eqb a c
  | CRng lo hi => between (code lo) (code hi) c
  | CSpace => is_space c
  | CDigit => is_digit c
  end.

Definition cls_has (cs : cls) (c : ascii) : bool :=
  existsb (fun i => item_has i c) cs.

(** Membership under the flags of the call; [ic] is [re.IGNORECASE]. *)
Definition in_cls (ic : bool) (cs : cls) (c : ascii) : bool :=
  cls_has cs c ||
  (ic && (cls_has cs (lower_char c) || cls_has cs (upper_char c))).

Definition chr_eq (ic : bool) (a c : ascii) : bool :=
  if ic then Ascii.eqb (lower_char a) (lower_char c) else Ascii.eqb a c.

(** A position of the matcher in the subject: the character before it,
    its index, the text from it on, and the span captured for group 1
    so far. *)
Record mstate : Type := MState {
  m_prev : option ascii;
  m_pos : nat;
  m_rest : string;
  m_grp : option string
}.

Definition with_grp (g : option string) (s : mstate) : mstate :=
  MState (m_prev s) (m_pos s) (m_rest s) g.

Fixpoint lit (ic : bool) (l : string) (s : mstate) : option mstate :=
  match l with
  | EmptyString => Some s
  | String a l' =>
      match m_rest s with
      | String c t =>
          if chr_eq ic a c
          then lit ic l' (MState (Some c) (S (m_pos s)) t (m_grp s))
          else None
      | EmptyString => None
      end
  end.

Definition hi_open (hi : option nat) : bool :=
  match hi with Some 0 => false | _ => true end.

(** Greedy repetition of a class: take one more character while the
    class and the upper bound allow, and fall back to the shorter run
    when the rest of the pattern fails behind the longer one. *)
Fixpoint rep (ic : bool) (cs : cls) (lo : nat) (hi : option nat)
    (t : string) (pv : option ascii) (i : nat) (g : option string)
    (k : mstate -> option mstate) {struct t} : option mstate :=
  let here := if lo =? 0 then k (MState pv i t g) else None in
  match t with
  | String c t' =>
      if in_cls ic cs c && hi_open hi then
        match rep ic cs (pred lo) (option_map pred hi) t' (Some c) (S i) g k with
        | Some m => Some m
        | None => here
        end
      else here
  | EmptyString => here
  end.

Definition word_before (s : mstate) : bool :=
  match m_prev s with Some c => is_word c | None => false end.

Definition word_after (s : mstate) : bool :=
  match m_rest s with String c _ => is_word c | EmptyString => false end.

(** [\b] *)
Definition at_bound (s : mstate) : bool :=
  negb (Bool.eqb (word_before s) (word_after s)).

(** [$] without [re.MULTILINE]: the end of the text, or just before a
    newline that ends the text. *)
Definition at_end (s : mstate) : bool :=
  match m_rest s with
  | EmptyString => true
  | String c EmptyString => Ascii.eqb c nl
  | _ => false
  end.

(** The backtracking matcher, in continuation-passing style: [k] is the
    rest of the pattern; alternatives are tried left to right and the
    first complete match is returned. *)
Fixpoint rmatch (ic : bool) (r : re) (s : mstate)
    (k : mstate -> option mstate) {struct r} : option mstate :=
  match r with
  | RLit l =>
      match lit ic l s with
      | Some s' => k s'
      | None => None
      end
  | RSet cs =>
      match m_rest s with
      | String c t =>
          if in_cls ic cs c
          then k (MState (Some c) (S (m_pos s)) t (m_grp s))
          else None
      | EmptyString => None
      end
  | RRep cs lo hi => rep ic cs lo hi (m_rest s) (m_prev s) (m_pos s) (m_grp s) k
  | RCat r1 r2 => rmatch ic r1 s (fun s' => rmatch ic r2 s' k)
  | RAlt r1 r2 =>
      match rmatch ic r1 s k with
      | Some m => Some m
      | None => rmatch ic r2 s k
      end
  | ROpt r1 =>
      match rmatch ic r1 s k with
      | Some m => Some m
      | None => k s
      end
  | RGrp r1 =>
      rmatch ic r1 s
        (fun s' => k (with_grp (Some (take (m_pos s' - m_pos s) (m_rest s))) s'))
  | RAhead r1 =>
      match rmatch ic r1 s Some with
      | Some s' => k (with_grp (m_grp s') s)
      | None => None
      end
  | RBound => if at_bound s then k s else None
  | REnd => if at_end s then k s else None
  end.

(** [re.search]: the first start position, scanning left to right, at
    which the pattern matches. *)
Fixpoint search_from (ic : bool) (r : re) (pv : option ascii) (i : nat)
    (t : string) {struct t} : option mstate :=
  match rmatch ic r (MState pv i t None) Some with
  | Some m => Some m
  | None =>
      match t with
      | String c t' => search_from ic r (Some c) (S i) t'
      | EmptyString => None
      end
  end.

(** The match object is represented by what the callers read from it:
    [m.group(1)], which is [None] when group 1 took no part. *)
Definition search (ic : bool) (r : re) (text : string) : option (option string) :=
  option_map m_grp (search_from ic r None 0 text).

(** Pattern-building shorthands. *)
Fixpoint cat (rs : list re) : re :=
  match rs with
  | [] => RLit ""
  | [r] => r
  | r :: rs' => RCat r (cat rs')
  end.

Fixpoint alt (rs : list re) : re :=
  match rs with
  | [] => RLit ""
  | [r] => r
  | r :: rs' => RAlt r (alt rs')
  end.

Definition star (cs : cls) : re := RRep cs 0 None.
Definition plus (cs : cls) : re := RRep cs 1 None.
Definition opt (cs : cls) : re := RRep cs 0 (Some 1).
Definition times (cs : cls) (lo hi : nat) : re := RRep cs lo (Some hi).
Definition atleast (cs : cls) (lo : nat) : re := RRep cs lo None.

Definition sp : cls := [CSpace].
Definition dg : cls := [CDigit].

(** *** Reading a pattern as the source writes it

    [compile] reads the concrete syntax of the patterns of the
    extractor; it is there to check the syntax trees below against the
    text of the source. *)

Definition is_chr (a : ascii) (c : ascii) : bool := Ascii.eqb a c.

(** A decimal number at the head of [s]. *)
Fixpoint p_nat (acc : nat) (s : string) : nat * string :=
  match s with
  | String c t =>
      if is_digit c then p_nat (10 * acc + (code c - 48)) t else (acc, s)
  | EmptyString => (acc, s)
  end.

(** The members of a class, after its opening bracket. *)
Fixpoint p_class (s : string) : option (cls * string) :=
  let more (i : citem) (t : string) :=
    match p_class t with
    | Some (cs, rest) => Some (i :: cs, rest)
    | None => None
    end in
  match s with
  | EmptyString => None
  | String c t =>
      if is_chr "]" c then Some ([], t)
      else if is_chr "\" c then
        match t with
        | String e t' =>
            more (if is_chr "s" e then CSpace
                  else if is_chr "d" e then CDigit
                  else CChr e) t'
        | EmptyString => None
        end
      else
        match t with
        | String d (String hi t') =>
            if is_chr "-" d && negb (is_chr "]" hi) then more (CRng c hi) t'
            else more (CChr c) t
        | _ => more (CChr c) t
        end
  end.

(** A quantifier at the head of [s], if there is one. *)
Definition p_quant (s : string) : option (nat * option nat * string) :=
  match s with
  | String c t =>
      if is_chr "*" c then Some (0, None, t)
      else if is_chr "+" c then Some (1, None, t)
      else if is_chr "?" c then Some (0, Some 1, t)
      else if is_chr "{" c then
        let '(lo, t1) := p_nat 0 t in
        match t1 with
        | String c1 t2 =>
            if is_chr "}" c1 then Some (lo, Some lo, t2)
            else if is_chr "," c1 then
              match t2 with
              | String c2 t3 =>
                  if is_chr "}" c2 then Some (lo, None, t3)
                  else
                    let '(hi, t4) := p_nat 0 t2 in
                    match t4 with
                    | String c3 t5 =>
                        if is_chr "}" c3 then Some (lo, Some hi, t5) else None
                    | EmptyString => None
                    end
              | EmptyString => None
              end
            else None
        | EmptyString => None
        end
      else None
  | EmptyString => None
  end.

(** What a quantifier may follow. *)
Inductive atom : Type :=
| ALit (c : ascii)        (* one literal character *)
| AClass (cs : cls)       (* a class *)
| ANonCap (r : re)        (* (?:r) *)
| AFixed (r : re).        (* (r), (?=r), \b, $ *)

(** An atom with the quantifier that follows it. *)
Definition quantified (a : atom) (s : string) : option (re * string) :=
  match p_quant s with
  | None =>
      Some (match a with
            | ALit c => RLit (String c "")
            | AClass cs => RSet cs
            | ANonCap r | AFixed r => r
            end, s)
  | Some (lo, hi, rest) =>
      match a with
      | ALit c => Some (RRep [CChr c] lo hi, rest)
      | AClass cs => Some (RRep cs lo hi, rest)
      | ANonCap r =>
          match lo, hi with
          | 0, Some 1 => Some (ROpt r, rest)
          | _, _ => None
          end
      | AFixed _ => None
      end
  end.

(** Literal characters in a row make one literal. *)
Definition join_lit (r : re) (items : list re) : list re :=
  match r, items with
  | RLit x, RLit y :: items' => RLit (x ++ y) :: items'
  | _, _ => r :: items
  end.

Definition closed (found : option (re * string)) : option (re * string) :=
  match found with
  | Some (r, String c rest) => if is_chr ")" c then Some (r, rest) else None
  | _ => None
  end.

Fixpoint p_alt (fuel : nat) (s : string) {struct fuel} : option (re * string) :=
  match fuel with
  | 0 => None
  | S f =>
      match p_seq f s with
      | None => None
      | Some (items, rest) =>
          match rest with
          | String c rest' =>
              if is_chr "|" c then
                match p_alt f rest' with
                | Some (r, rest'') => Some (RAlt (cat items) r, rest'')
                | None => None
                end
              else Some (cat items, rest)
          | EmptyString => Some (cat items, rest)
          end
      end
  end
with p_seq (fuel : nat) (s : string) {struct fuel}
    : option (list re * string) :=
  match fuel with
  | 0 => None
  | S f =>
      match s with
      | EmptyString => Some ([], s)
      | String c _ =>
          if is_chr ")" c || is_chr "|" c then Some ([], s)
          else
            match p_atom f s with
            | None => None
            | Some (a, rest) =>
                match quantified a rest with
                | None => None
                | Some (r, rest') =>
                    match p_seq f rest' with
                    | Some (items, rest'') => Some (join_lit r items, rest'')
                    | None => None
                    end
                end
            end
      end
  end
with p_atom (fuel : nat) (s : string) {struct fuel} : option (atom * string) :=
  match fuel with
  | 0 => None
  | S f =>
      match s with
      | EmptyString => None
      | String c t =>
          if is_chr "(" c then
            if starts_with "?:" t then
              match closed (p_alt f (drop 2 t)) with
              | Some (r, rest) => Some (ANonCap r, rest)
              | None => None
              end
            else if starts_with "?=" t then
              match closed (p_alt f (drop 2 t)) with
              | Some (r, rest) => Some (AFixed (RAhead r), rest)
              | None => None
              end
            else
              match closed (p_alt f t) with
              | Some (r, rest) => Some (AFixed (RGrp r), rest)
              | None => None
              end
          else if is_chr "[" c then
            match p_class t with
            | Some (cs, rest) => Some (AClass cs, rest)
            | None => None
            end
          else if is_chr "\" c then
            match t with
            | String e t' =>
                Some (if is_chr "s" e then AClass [CSpace]
                      else if is_chr "d" e then AClass [CDigit]
                      else if is_chr "b" e then AFixed RBound
                      else if is_chr "n" e then ALit nl
                      else ALit e, t')
            | EmptyString => None
            end
          else if is_chr "$" c then Some (AFixed REnd, t)
          else Some (ALit c, t)
      end
  end.

(** The syntax tree of a pattern, when all of it can be read. *)
Definition compile (pattern : string) : option re :=
  match p_alt (3 * String.length pattern + 3) pattern with
  | Some (r, EmptyString) => Some r
  | _ => None
  end.

(** *** What a match is

    [Matches ic r s s'] says that [r] can take the matcher from [s] to
    [s'], whatever the order in which the alternatives are tried. *)

Definition adv (c : ascii) (t : string) (s : mstate) : mstate :=
  MState (Some c) (S (m_pos s)) t (m_grp s).

(** [Run ic cs n s s']: [n] characters of the class, one after the
    other. *)
Inductive Run (ic : bool) (cs : cls) : nat -> mstate -> mstate -> Prop :=
| Run_nil (s : mstate) : Run ic cs 0 s s
| Run_cons (n : nat) (s s' : mstate) (c : ascii) (t : string) :
    m_rest s = String c t ->
    in_cls ic cs c = true ->
    Run ic cs n (adv c t s) s' ->
    Run ic cs (S n) s s'.

Definition below (hi : option nat) (n : nat) : Prop :=
  match hi with Some h => n <= h | None => True end.

Fixpoint Matches (ic : bool) (r : re) (s s' : mstate) {struct r} : Prop :=
  match r with
  | RLit l => lit ic l s = Some s'
  | RSet cs =>
      exists c t,
        m_rest s = String c t /\ in_cls ic cs c = true /\ s' = adv c t s
  | RRep cs lo hi => exists n, Run ic cs n s s' /\ lo <= n /\ below hi n
  | RCat r1 r2 => exists s1, Matches ic r1 s s1 /\ Matches ic r2 s1 s'
  | RAlt r1 r2 => Matches ic r1 s s' \/ Matches ic r2 s s'
  | ROpt r1 => Matches ic r1 s s' \/ s' = s
  | RGrp r1 =>
      exists s1,
        Matches ic r1 s s1 /\
        s' = with_grp (Some (take (m_pos s1 - m_pos s) (m_rest s))) s1
  | RAhead r1 => exists s1, Matches ic r1 s s1 /\ s' = with_grp (m_grp s1) s
  | RBound => at_bound s = true /\ s' = s
  | REnd => at_end s = true /\ s' = s
  end.

(** [s'] lies [n] characters after [s] in the same text. *)
Definition span (n : nat) (s s' : mstate) : Prop :=
  m_rest s' = drop n (m_rest s) /\ m_pos s' = m_pos s + n /\
  n <= String.length (m_rest s).

(** Group 1 lies on every way through the pattern. *)
Fixpoint has_grp (r : re) : bool :=
  match r with
  | RGrp _ => true
  | RCat r1 r2 => has_grp r1 || has_grp r2
  | RAlt r1 r2 => has_grp r1 && has_grp r2
  | _ => false
  end.

(** Every character of the class satisfies [p]. *)
Definition cls_sub (p : ascii -> bool) (cs : cls) : bool :=
  forallb (fun c => implb (cls_has cs c) (p c)) all_ascii.

(** The pattern consumes characters that satisfy [p] only. *)
Fixpoint only (p : ascii -> bool) (r : re) : bool :=
  match r with
  | RLit l => sall p l
  | RSet cs | RRep cs _ _ => cls_sub p cs
  | RCat r1 r2 | RAlt r1 r2 => only p r1 && only p r2
  | ROpt r1 | RGrp r1 => only p r1
  | RAhead _ | RBound | REnd => true
  end.

(** Whatever group 1 captures satisfies [p] throughout. *)
Fixpoint grp_only (p : ascii -> bool) (r : re) : bool :=
  match r with
  | RGrp r1 => only p r1 && grp_only p r1
  | RCat r1 r2 | RAlt r1 r2 => grp_only p r1 && grp_only p r2
  | ROpt r1 | RAhead r1 => grp_only p r1
  | _ => true
  end.

End Re.

(** ** [nid_extractor.py] *)

Module Extractor.
Import Py Re.

(** *** The patterns *)

Definition AZ : citem := CRng "A" "Z".
Definition az : citem := CRng "a" "z".
Definition colon_dot : cls := [CChr ":"; CChr "."].

(** [(?=\s+(?:fet|faot|ent|Date|Birth|DOB|NID|ID|No|\d)|\n|$)] *)
Definition name_stop : re :=
  RAhead (alt [
    RCat (plus sp)
         (alt [RLit "fet"; RLit "faot"; RLit "ent"; RLit "Date"; RLit "Birth";
               RLit "DOB"; RLit "NID"; RLit "ID"; RLit "No"; RSet dg]);
    RLit (String nl "");
    REnd ]).

Definition name_patterns : list re := [
  (* Name\s*[:.]?\s*([A-Z][A-Z\s\.]+)(?=...) *)
  cat [RLit "Name"; star sp; opt colon_dot; star sp;
       RGrp (cat [RSet [AZ]; plus [AZ; CSpace; CChr "."]]);
       name_stop];
  (* Name\s*[:.]?\s+([A-Za-z][A-Za-z\s\.]{2,30})(?=...) *)
  cat [RLit "Name"; star sp; opt colon_dot; plus sp;
       RGrp (cat [RSet [AZ; az]; times [AZ; az; CSpace; CChr "."] 2 30]);
       name_stop];
  (* \bM[dD]\.?\s+([A-Za-z]+\s+[A-Za-z]+(?:\s+[A-Za-z]+)?)\b *)
  cat [RBound; RLit "M"; RSet [CChr "d"; CChr "D"]; opt [CChr "."]; plus sp;
       RGrp (cat [plus [AZ; az]; plus sp; plus [AZ; az];
                  ROpt (cat [plus sp; plus [AZ; az]])]);
       RBound];
  (* Name\s*[:.]?\s*([A-Z]+\s+[A-Z]+(?:\s+[A-Z]+)?)\b *)
  cat [RLit "Name"; star sp; opt colon_dot; star sp;
       RGrp (cat [plus [AZ]; plus sp; plus [AZ];
                  ROpt (cat [plus sp; plus [AZ]])]);
       RBound]
].

(** The patterns as [nid_extractor.py] writes them. *)
Definition name_patterns_source : list string := [
  "Name\s*[:.]?\s*([A-Z][A-Z\s\.]+)(?=\s+(?:fet|faot|ent|Date|Birth|DOB|NID|ID|No|\d)|\n|$)";
  "Name\s*[:.]?\s+([A-Za-z][A-Za-z\s\.]{2,30})(?=\s+(?:fet|faot|ent|Date|Birth|DOB|NID|ID|No|\d)|\n|$)";
  "\bM[dD]\.?\s+([A-Za-z]+\s+[A-Za-z]+(?:\s+[A-Za-z]+)?)\b";
  "Name\s*[:.]?\s*([A-Z]+\s+[A-Z]+(?:\s+[A-Z]+)?)\b"
].

Definition name_blacklist : list string := [
  "NATIONAL ID CARD"; "ID CARD"; "BANGLADESH"; "GOVERNMENT";
  "PEOPLES"; "REPUBLIC"; "CARD"; "NATIONAL"; "DATE OF BIRTH";
  "GOVERMENT"; "soeezledt"; "offthe"; "Republic"
].

(** [(?:Date of Birth|DOB|Birth)[:.]?\s*] *)
Definition dob_label : list re :=
  [alt [RLit "Date of Birth"; RLit "DOB"; RLit "Birth"];
   opt colon_dot; star sp].

Definition month_abbr : re :=
  alt [RLit "Jan"; RLit "Feb"; RLit "Mar"; RLit "Apr"; RLit "May"; RLit "Jun";
       RLit "Jul"; RLit "Aug"; RLit "Sep"; RLit "Oct"; RLit "Nov"; RLit "Dec"].

Definition month_full : re :=
  alt [RLit "January"; RLit "February"; RLit "March"; RLit "April";
       RLit "May"; RLit "June"; RLit "July"; RLit "August";
       RLit "September"; RLit "October"; RLit "November"; RLit "December"].

Definition sp_dash : cls := [CSpace; CChr "-"].
Definition date_sep : cls := [CChr "/"; CChr "."; CChr "-"].

(** [\d{1,2}[\s-](?:Jan|...|Dec)[\s-]\d{2,4}] *)
Definition day_mon_year : re :=
  cat [times dg 1 2; RSet sp_dash; month_abbr; RSet sp_dash; times dg 2 4].

Definition dob_patterns : list re := [
  (* (?:Date of Birth|DOB|Birth)[:.]?\s*(\d{1,2}[\s-](?:Jan|...)[\s-]\d{2,4}) *)
  cat (dob_label ++ [RGrp day_mon_year]);
  (* (?:Date of Birth|DOB|Birth)[:.]?\s*(\d{1,2}[\/\.-]\d{1,2}[\/\.-]\d{2,4}) *)
  cat (dob_label ++
       [RGrp (cat [times dg 1 2; RSet date_sep; times dg 1 2; RSet date_sep;
                   times dg 2 4])]);
  (* (\d{1,2}\s+(?:January|...|December)\s+\d{4}) *)
  RGrp (cat [times dg 1 2; plus sp; month_full; plus sp; times dg 4 4]);
  (* (\d{1,2}[\s-](?:Jan|...)[\s-]\d{2,4}) *)
  RGrp day_mon_year
].

Definition dob_patterns_source : list string := [
  "(?:Date of Birth|DOB|Birth)[:.]?\s*(\d{1,2}[\s-](?:Jan|Feb|Mar|Apr|May|Jun|Jul|Aug|Sep|Oct|Nov|Dec)[\s-]\d{2,4})";
  "(?:Date of Birth|DOB|Birth)[:.]?\s*(\d{1,2}[\/\.-]\d{1,2}[\/\.-]\d{2,4})";
  "(\d{1,2}\s+(?:January|February|March|April|May|June|July|August|September|October|November|December)\s+\d{4})";
  "(\d{1,2}[\s-](?:Jan|Feb|Mar|Apr|May|Jun|Jul|Aug|Sep|Oct|Nov|Dec)[\s-]\d{2,4})"
].

Definition dig_sp_dash : cls := [CDigit; CSpace; CChr "-"].

Definition id_patterns : list re := [
  (* ID\s*NO[:.]?\s*(\d[\d\s-]{5,18}\d) *)
  cat [RLit "ID"; star sp; RLit "NO"; opt colon_dot; star sp;
       RGrp (cat [RSet dg; times dig_sp_dash 5 18; RSet dg])];
  (* NID\s*No[:.]?\s*(\d[\d\s-]{5,18}\d) *)
  cat [RLit "NID"; star sp; RLit "No"; opt colon_dot; star sp;
       RGrp (cat [RSet dg; times dig_sp_dash 5 18; RSet dg])];
  (* \b(\d{3}\s+\d{3}\s+\d{4})\b *)
  cat [RBound;
       RGrp (cat [times dg 3 3; plus sp; times dg 3 3; plus sp; times dg 4 4]);
       RBound];
  (* \b(\d{10}|\d{13}|\d{17})\b *)
  cat [RBound;
       RGrp (alt [times dg 10 10; times dg 13 13; times dg 17 17]);
       RBound];
  (* [<I]BGD(\d{9,})[<\d] *)
  cat [RSet [CChr "<"; CChr "I"]; RLit "BGD"; RGrp (atleast dg 9);
       RSet [CChr "<"; CDigit]];
  (* (?:ID|NID|Number|No)[:.]\s*(\d[\d\s-]+\d) *)
  cat [alt [RLit "ID"; RLit "NID"; RLit "Number"; RLit "No"]; RSet colon_dot;
       star sp; RGrp (cat [RSet dg; plus dig_sp_dash; RSet dg])];
  (* \b(\d{3}[\s-]?\d{3}[\s-]?\d{4})\b *)
  cat [RBound;
       RGrp (cat [times dg 3 3; opt sp_dash; times dg 3 3; opt sp_dash;
                  times dg 4 4]);
       RBound];
  (* \b(\d{10,})\b *)
  cat [RBound; RGrp (atleast dg 10); RBound]
].

Definition id_patterns_source : list string := [
  "ID\s*NO[:.]?\s*(\d[\d\s-]{5,18}\d)";
  "NID\s*No[:.]?\s*(\d[\d\s-]{5,18}\d)";
  "\b(\d{3}\s+\d{3}\s+\d{4})\b";
  "\b(\d{10}|\d{13}|\d{17})\b";
  "[<I]BGD(\d{9,})[<\d]";
  "(?:ID|NID|Number|No)[:.]\s*(\d[\d\s-]+\d)";
  "\b(\d{3}[\s-]?\d{3}[\s-]?\d{4})\b";
  "\b(\d{10,})\b"
].

(** *** The result dictionary and the exceptions *)

(** [nid_data]: the four keys set at the start, and the optional
    ['error'] key. *)
Record nid_data : Type := NidData {
  Name : string;
  Date_of_birth : string;
  ID_Number : string;
  Full_extracted_text : string;
  error : option string
}.

Definition nid_init : nid_data := NidData "" "" "" "" None.

Definition set_Name (v : string) (d : nid_data) : nid_data :=
  NidData v (Date_of_birth d) (ID_Number d) (Full_extracted_text d) (error d).
Definition set_Date_of_birth (v : string) (d : nid_data) : nid_data :=
  NidData (Name d) v (ID_Number d) (Full_extracted_text d) (error d).
Definition set_ID_Number (v : string) (d : nid_data) : nid_data :=
  NidData (Name d) (Date_of_birth d) v (Full_extracted_text d) (error d).
Definition set_Full_extracted_text (v : string) (d : nid_data) : nid_data :=
  NidData (Name d) (Date_of_birth d) (ID_Number d) v (error d).
Definition set_error (v : string) (d : nid_data) : nid_data :=
  NidData (Name d) (Date_of_birth d) (ID_Number d) (Full_extracted_text d)
          (Some v).

(** A computation either yields a value or raises an exception, of
    which the handlers only read [str(e)]. *)
Inductive res (A : Type) : Type :=
| Val (a : A)
| Exn (msg : string).
Arguments Val {A} a.
Arguments Exn {A} msg.

(** Statements of the [try] body act on the dictionary, which keeps
    what was stored in it when an exception leaves the body. *)
Definition M (A : Type) : Type := nid_data -> res A * nid_data.

Definition ret {A : Type} (a : A) : M A := fun d => (Val a, d).
Definition bind {A B : Type} (m : M A) (f : A -> M B) : M B :=
  fun d =>
    match m d with
    | (Val a, d') => f a d'
    | (Exn msg, d') => (Exn msg, d')
    end.
Definition store (f : nid_data -> nid_data) : M unit := fun d => (Val tt, f d).

(** The value under a key that was last assigned [o], or never. *)
Definition value_of (o : option string) : string :=
  match o with
  | Some v => v
  | None => ""
  end.

(** The effect of a loop that assigned its key last to [o], or not at
    all. *)
Definition assigned (set : string -> nid_data -> nid_data) (o : option string)
    (d : nid_data) : nid_data :=
  match o with
  | Some v => set v d
  | None => d
  end.
Definition lift {A : Type} (r : res A) : M A := fun d => (r, d).

Notation "x <- m ;; k" := (bind m (fun x => k))
  (at level 61, m at next level, right associativity).
Notation "m ;;; k" := (bind m (fun _ => k))
  (at level 61, right associativity).

(** *** The three pattern loops *)

(** [m.group(1).strip()]; a group that took no part is [None], which
    has no [strip]. *)
Definition group1_strip (m : option string) : res string :=
  match m with
  | Some g => Val (strip g)
  | None => Exn "'NoneType' object has no attribute 'strip'"
  end.

(** [any(blacklisted.lower() in name_candidate.lower() for ...)] *)
Definition blacklisted (name_candidate : string) : bool :=
  existsb (fun b => contains (lower b) (lower name_candidate)) name_blacklist.

(** [' ' in name_candidate and 4 <= len(name_candidate) <= 40] *)
Definition valid_name (name_candidate : string) : bool :=
  contains " " name_candidate &&
  ((4 <=? String.length name_candidate) && (String.length name_candidate <=? 40)).

(** [len(name_candidate) > 5 and not re.search(r'\d', name_candidate)] *)
Definition potential_name (name_candidate : string) : bool :=
  (5 <? String.length name_candidate) &&
  negb (match search false (RSet dg) name_candidate with
        | Some _ => true
        | None => false
        end).

(** [for pattern in name_patterns: ...] *)
Fixpoint name_loop (patterns : list re) (full_text : string) : M unit :=
  match patterns with
  | [] => ret tt
  | pattern :: later =>
      match search false pattern full_text with
      | Some name_match =>
          name_candidate <- lift (group1_strip name_match) ;;
          if blacklisted name_candidate then
            name_loop later full_text                       (* continue *)
          else if valid_name name_candidate then
            store (set_Name name_candidate)                 (* break *)
          else if potential_name name_candidate then
            store (set_Name name_candidate) ;;;
            name_loop later full_text
          else name_loop later full_text
      | None => name_loop later full_text
      end
  end.

(** [for pattern in dob_patterns: ...] *)
Fixpoint dob_loop (patterns : list re) (full_text : string) : M unit :=
  match patterns with
  | [] => ret tt
  | pattern :: later =>
      match search true pattern full_text with
      | Some dob_match =>
          dob <- lift (group1_strip dob_match) ;;
          store (set_Date_of_birth dob)                     (* break *)
      | None => dob_loop later full_text
      end
  end.

(** Removing every match of [[\s-]] from a string. *)
Definition strip_sep (t : string) : string :=
  sfilter (fun c => negb (in_cls false sp_dash c)) t.

(** [re.sub(r'[\s-]', '', id_text)] *)
Definition clean (id_text : option string) : res string :=
  match id_text with
  | Some t => Val (strip_sep t)
  | None => Exn "expected string or bytes-like object, got 'NoneType'"
  end.

(** The characters of the class [[\d\s-]]. *)
Definition digit_or_sep (c : ascii) : bool := in_cls false dig_sp_dash c.

(** [len(clean_id) in [10, 13, 17]] *)
Definition canonical (clean_id : string) : bool :=
  existsb (Nat.eqb (String.length clean_id)) [10; 13; 17].

(** [for pattern in id_patterns: ...] *)
Fixpoint id_loop (patterns : list re) (full_text : string) : M unit :=
  match patterns with
  | [] => ret tt
  | pattern :: later =>
      match search false pattern full_text with
      | Some id_match =>
          clean_id <- lift (clean id_match) ;;
          if canonical clean_id then
            store (set_ID_Number clean_id)                  (* break *)
          else
            store (set_ID_Number clean_id) ;;;
            id_loop later full_text
      | None => id_loop later full_text
      end
  end.

(** *** Recognition results *)

(** The values the recognizer may hand back as one entry of its result
    list; with [paragraph=True, detail=1] an entry is a two-element
    list of a box and a text. *)
#[local] Unset Elimination Schemes.
Inductive pyobj : Type :=
| PStr (s : string)
| PInt (z : Z)
| PNone
| PList (items : list pyobj)
| PTuple (items : list pyobj).
#[local] Set Elimination Schemes.

Definition type_name (o : pyobj) : string :=
  match o with
  | PStr _ => "str"
  | PInt _ => "int"
  | PNone => "NoneType"
  | PList _ => "list"
  | PTuple _ => "tuple"
  end.

(** [len(result)] *)
Definition py_len (o : pyobj) : res nat :=
  match o with
  | PStr s => Val (String.length s)
  | PList l | PTuple l => Val (List.length l)
  | _ => Exn ("object of type '" ++ type_name o ++ "' has no len()")
  end.

(** [result[1]] *)
Definition py_item1 (o : pyobj) : res pyobj :=
  match o with
  | PStr (String _ (String c _)) => Val (PStr (String c ""))
  | PList (_ :: x :: _) | PTuple (_ :: x :: _) => Val x
  | PStr _ => Exn "string index out of range"
  | PList _ => Exn "list index out of range"
  | PTuple _ => Exn "tuple index out of range"
  | _ => Exn ("'" ++ type_name o ++ "' object is not subscriptable")
  end.

(** The body of [for result in results]: an exception inside it is
    caught and the entry skipped. *)
Definition block_of (result : pyobj) : option pyobj :=
  match py_len result with
  | Val n =>
      if 2 <=? n then
        match py_item1 result with
        | Val text => Some text
        | Exn _ => None
        end
      else None
  | Exn _ => None
  end.

Fixpoint collect_blocks (results : list pyobj) : list pyobj :=
  match results with
  | [] => []
  | result :: later =>
      match block_of result with
      | Some text => text :: collect_blocks later
      | None => collect_blocks later
      end
  end.

Definition nat_to_string (n : nat) : string :=
  DecimalString.NilZero.string_of_uint (Nat.to_uint n).

(** [" ".join(text_blocks)]: every item has to be a [str]. *)
Fixpoint join_items (i : nat) (text_blocks : list pyobj) : res (list string) :=
  match text_blocks with
  | [] => Val []
  | PStr s :: later =>
      match join_items (S i) later with
      | Val l => Val (s :: l)
      | Exn msg => Exn msg
      end
  | o :: _ =>
      Exn ("sequence item " ++ nat_to_string i ++ ": expected str instance, "
           ++ type_name o ++ " found")
  end.

Definition py_join (sep : string) (text_blocks : list pyobj) : res string :=
  match join_items 0 text_blocks with
  | Val l => Val (join sep l)
  | Exn msg => Exn msg
  end.

(** *** [extract_nid_fields] *)

(** The argument of [extract_nid_fields]. *)
Inductive image : Type :=
| ImgPath (path : string)        (* isinstance(image, str) *)
| ImgArray                       (* isinstance(image, np.ndarray) *)
| ImgOther.                      (* anything else *)

(** What the function asks of its surroundings: the file system, the
    lazily built reader, and the recognizer. *)
Record world : Type := World {
  path_exists : string -> bool;          (* os.path.exists *)
  get_reader : res unit;                 (* get_reader() *)
  readtext : image -> res (list pyobj)   (* ocr_reader.readtext(image, ...) *)
}.

(** The rule pipelines on the flat text: from the assignment of
    ['Full extracted text'] to the end of the [try] body. *)
Definition extract_fields (full_text : string) : M unit :=
  store (set_Full_extracted_text (strip full_text)) ;;;
  name_loop name_patterns full_text ;;;
  dob_loop dob_patterns full_text ;;;
  id_loop id_patterns full_text.

(** The statements from [text_blocks = []] to the end of the [try]
    body. *)
Definition extract_from_results (results : list pyobj) : M unit :=
  full_text <- lift (py_join " " (collect_blocks results)) ;;
  extract_fields full_text.

(** The flat text of a recognition result, when there is one. *)
Definition flat_text (results : list pyobj) : res string :=
  py_join " " (collect_blocks results).

(** The input is one the recognizer is run on. *)
Definition supported (w : world) (img : image) : bool :=
  match img with
  | ImgPath path => path_exists w path
  | ImgArray => true
  | ImgOther => false
  end.

(** The recognizer is run on the input and yields entries whose flat
    text is [text]. *)
Definition reads (w : world) (img : image) (text : string) : Prop :=
  supported w img = true /\ get_reader w = Val tt /\
  exists results,
    readtext w img = Val results /\ results <> [] /\
    flat_text results = Val text.

(** Some step before the rule pipelines fails: the input is rejected,
    the reader or the recognizer raises, nothing is recognized, or the
    recognized entries cannot be joined. *)
Definition fails (w : world) (img : image) : bool :=
  negb (supported w img) ||
  match get_reader w with
  | Exn _ => true
  | Val _ =>
      match readtext w img with
      | Exn _ => true
      | Val [] => true
      | Val results =>
          match flat_text results with
          | Exn _ => true
          | Val _ => false
          end
      end
  end.

(** The body of the outer [try] from [get_reader()] on.  The inner
    handler and the empty-result test store the error and return. *)
Definition try_body (w : world) (img : image) : M unit :=
  fun d =>
    match get_reader w with
    | Exn msg => (Exn msg, d)
    | Val _ =>
        match readtext w img with
        | Exn msg => (Val tt, set_error ("OCR reading failed: " ++ msg) d)
        | Val [] => (Val tt, set_error "No text detected in the image" d)
        | Val results => extract_from_results results d
        end
    end.

Definition extract_nid_fields (w : world) (img : image) : nid_data :=
  let nid_data := nid_init in
  let supported :=
    match img with
    | ImgPath path =>
        if path_exists w path then None else Some "Image file not found"
    | ImgArray => None
    | ImgOther => Some "Unsupported image format"
    end in
  match supported with
  | Some msg => set_error msg nid_data
  | None =>
      match try_body w img nid_data with
      | (Val _, d) => d
      | (Exn msg, d) => set_error ("OCR processing failed: " ++ msg) d
      end
  end.

(** The recognizer's answer for a text read as one paragraph. *)
Definition one_block (text : string) : list pyobj :=
  [PList [PList []; PStr text]].

Definition world_of (results : list pyobj) : world :=
  World (fun _ => true) (Val tt) (fun _ => Val results).

End Extractor.


(** ** Binary64 numbers

    Python's [float], through the Standard Library's specification of
    IEEE 754 arithmetic.  Sizes stay below [sys.maxsize], far from the
    range where the conversion of an [int] overflows. *)

Module Float.

Definition prec : Z := 53.
Definition emax : Z := 1024.

(** [float(n)] *)
Definition of_Z (n : Z) : spec_float := binary_normalize prec emax n 0 false.
Definition of_nat (n : nat) : spec_float := of_Z (Z.of_nat n).

Definition mul : spec_float -> spec_float -> spec_float := SFmul prec emax.
Definition div : spec_float -> spec_float -> spec_float := SFdiv prec emax.

Definition one : spec_float := S754_finite false 4503599627370496 (-52).
Definition two : spec_float := S754_finite false 4503599627370496 (-51).
Definition hundred : spec_float := S754_finite false 7036874417766400 (-46).

(** The integer nearest to [m * 2^e * 100], ties going to the even
    one. *)
Definition hundredths (m : positive) (e : Z) : Z :=
  let n := (Zpos m * 100)%Z in
  match e with
  | Zneg p =>
      let d := (2 ^ Zpos p)%Z in
      let q := (n / d)%Z in
      match (2 * (n mod d) ?= d)%Z with
      | Lt => q
      | Gt => (q + 1)%Z
      | Eq => if Z.even q then q else (q + 1)%Z
      end
  | _ => (n * 2 ^ e)%Z
  end.

(** [round(x, 2)]: the decimal with two places nearest to the exact
    value of [x] (ties to even), read back as a [float]. *)
Definition round2 (x : spec_float) : spec_float :=
  match x with
  | S754_finite s m e =>
      div (binary_normalize prec emax (cond_Zopp s (hundredths m e)) 0 s)
          hundred
  | _ => x
  end.

End Float.

(** ** [difflib.SequenceMatcher(None, a, b).ratio()]

    The matcher of the Python library, with its defaults: no junk
    test and [autojunk=True]. *)

Module Difflib.

Section SequenceMatcher.

Variables a b : list ascii.

Definition item (l : list ascii) (i : nat) : ascii := nth i l Ascii.zero.

(** The positions of [elt] in [b], in ascending order:
    [b2j[elt]] before the purge. *)
Fixpoint indices (elt : ascii) (j : nat) (l : list ascii) : list nat :=
  match l with
  | [] => []
  | x :: t =>
      if Ascii.eqb x elt then j :: indices elt (S j) t
      else indices elt (S j) t
  end.

(** [autojunk]: in a [b] of 200 items or more, an item found more
    than [n // 100 + 1] times is popular and leaves [b2j]. *)
Definition popular (elt : ascii) : bool :=
  (200 <=? List.length b) &&
  (List.length b / 100 + 1 <? List.length (indices elt 0 b)).

(** [b2j.get(elt, nothing)] *)
Definition b2j (elt : ascii) : list nat :=
  if popular elt then [] else indices elt 0 b.

(** The dictionaries [j2len] and [newj2len]. *)
Definition dict : Type := list (nat * nat).

Fixpoint dict_get (d : dict) (key : nat) : nat :=
  match d with
  | [] => 0
  | (j, k) :: t => if j =? key then k else dict_get t key
  end.

(** [j2lenget(j-1, 0)]; no key is negative. *)
Definition before (j2len : dict) (j : nat) : nat :=
  match j with
  | 0 => 0
  | S j' => dict_get j2len j'
  end.

(** [(besti, bestj, bestsize)] *)
Definition best : Type := (nat * nat * nat)%type.

(** [for j in b2j.get(a[i], nothing): ...] *)
Fixpoint row (i blo bhi : nat) (j2len : dict) (js : list nat)
    (newj2len : dict) (bst : best) : dict * best :=
  match js with
  | [] => (newj2len, bst)
  | j :: js' =>
      if j <? blo then row i blo bhi j2len js' newj2len bst     (* continue *)
      else if bhi <=? j then (newj2len, bst)                    (* break *)
      else
        let k := before j2len j + 1 in
        let '(_, _, bestsize) := bst in
        row i blo bhi j2len js' ((j, k) :: newj2len)
            (if bestsize <? k then (i + 1 - k, j + 1 - k, k) else bst)
  end.

(** [for i in range(alo, ahi): ...], [n] rows from row [i] on. *)
Fixpoint rows (n i blo bhi : nat) (j2len : dict) (bst : best) : best :=
  match n with
  | 0 => bst
  | S n' =>
      let '(newj2len, bst') :=
        row i blo bhi j2len (b2j (item a i)) [] bst in
      rows n' (S i) blo bhi newj2len bst'
  end.

(** The first [while]: the block grows to the left as long as the
    items agree. *)
Fixpoint extend_left (alo blo besti bestj bestsize : nat) {struct besti}
    : best :=
  match besti, bestj with
  | S i', S j' =>
      if (alo <? besti) && (blo <? bestj) &&
         Ascii.eqb (item a i') (item b j')
      then extend_left alo blo i' j' (S bestsize)
      else (besti, bestj, bestsize)
  | _, _ => (besti, bestj, bestsize)
  end.

(** The second [while]: the block grows to the right; it stops at
    [ahi] at the latest, which is when [todo] is used up. *)
Fixpoint extend_right (todo ahi bhi besti bestj bestsize : nat) : nat :=
  match todo with
  | 0 => bestsize
  | S todo' =>
      if (besti + bestsize <? ahi) && (bestj + bestsize <? bhi) &&
         Ascii.eqb (item a (besti + bestsize)) (item b (bestj + bestsize))
      then extend_right todo' ahi bhi besti bestj (S bestsize)
      else bestsize
  end.

(** [find_longest_match(alo, ahi, blo, bhi)]; the two loops over junk
    do nothing, no item being junk. *)
Definition find_longest_match (alo ahi blo bhi : nat) : best :=
  let '(besti, bestj, bestsize) := rows (ahi - alo) alo blo bhi [] (alo, blo, 0) in
  let '(besti, bestj, bestsize) := extend_left alo blo besti bestj bestsize in
  (besti, bestj,
   extend_right (ahi - (besti + bestsize)) ahi bhi besti bestj bestsize).

(** The ranges still to be searched: [queue], its last entry first. *)
Definition queue : Type := list (nat * nat * nat * nat).

(** [while queue: ...] of [get_matching_blocks]; every turn takes one
    unit of [fuel]. *)
Fixpoint blocks_loop (fuel : nat) (q : queue) (matching_blocks : list best)
    : option (list best) :=
  match fuel with
  | 0 => None
  | S fuel' =>
      match q with
      | [] => Some matching_blocks
      | (alo, ahi, blo, bhi) :: q' =>
          let '(i, j, k) := find_longest_match alo ahi blo bhi in
          if k =? 0 then blocks_loop fuel' q' matching_blocks
          else
            let q1 :=
              if (alo <? i) && (blo <? j) then (alo, i, blo, j) :: q' else q' in
            let q2 :=
              if (i + k <? ahi) && (j + k <? bhi)
              then (i + k, ahi, j + k, bhi) :: q1 else q1 in
            blocks_loop fuel' q2 (matching_blocks ++ [(i, j, k)])
      end
  end.

(** The turns a queue takes at most. *)
Definition turns (q : queue) : nat :=
  fold_right (fun '(alo, ahi, _, _) n => 2 * (ahi - alo) + 1 + n) 0 q.

(** The blocks found, in the order they are found. *)
Definition matching_blocks : list best :=
  let q := [(0, List.length a, 0, List.length b)] in
  match blocks_loop (S (turns q)) q [] with
  | Some blocks => blocks
  | None => []
  end.

(** [sum(triple[-1] for triple in self.get_matching_blocks())]:
    sorting the blocks, merging adjacent ones and closing the list
    with a block of size 0 do not change the sum. *)
Definition matches : nat :=
  fold_right (fun '(_, _, k) n => k + n) 0 matching_blocks.

(** [_calculate_ratio(matches, len(a) + len(b))] *)
Definition calculate_ratio (matches length : nat) : spec_float :=
  if length =? 0 then Float.one
  else Float.div (Float.mul Float.two (Float.of_nat matches))
                 (Float.of_nat length).

Definition seq_ratio : spec_float :=
  calculate_ratio matches (List.length a + List.length b).

(** For the proofs: a block lies in the range it was searched in. *)
Definition in_range (alo ahi blo bhi : nat) (bst : best) : Prop :=
  let '(i, j, k) := bst in
  alo <= i /\ blo <= j /\ i + k <= ahi /\ j + k <= bhi.

Definition queue_ok (q : queue) : Prop :=
  Forall (fun '(alo, ahi, blo, bhi) => alo <= ahi /\ blo <= bhi) q.

(** For the proofs: the lengths in a dictionary fit the rows above row
    [top] and the columns from [blo] on. *)
Definition dict_ok (alo blo top : nat) (d : dict) : Prop :=
  forall j,
    dict_get d j <= top - alo /\
    (0 < dict_get d j -> blo <= j /\ dict_get d j <= j + 1 - blo).

End SequenceMatcher.

(** For the proofs: the length of the run of items of [l] that are
    not popular and end at position [i]. *)
Fixpoint diag (l : list ascii) (i : nat) : nat :=
  if popular l (item l i) then 0
  else match i with
       | 0 => 1
       | S i' => diag l i' + 1
       end.

(** For the proofs: the bound on what row [i] reads in column [j] of
    the dictionary of the row before. *)
Definition diag_before (l : list ascii) (i j : nat) : nat :=
  match i, j with
  | S i', S j' => diag l (Nat.min i' j')
  | _, _ => 0
  end.

(** For the proofs: a list of positions from [lo] on, in strictly
    ascending order. *)
Fixpoint ascending (lo : nat) (js : list nat) : Prop :=
  match js with
  | [] => True
  | j :: js' => lo <= j /\ ascending (S j) js'
  end.

(** [difflib.SequenceMatcher(None, a, b).ratio()] on two strings *)
Definition ratio (a b : string) : spec_float :=
  seq_ratio (list_ascii_of_string a) (list_ascii_of_string b).

End Difflib.

(** ** The similarity block of [process_image] in [app.py] *)

Module App.
Import Py Extractor.

(** The form fields sent with the image; a field may be missing. *)
Record form : Type := Form {
  form_Name : option string;
  form_Date_of_Birth : option string
}.

(** [request.form.get(key, "")] *)
Definition form_get (field : option string) : string :=
  match field with
  | Some v => v
  | None => ""
  end.

(** The value under a key of the similarity dictionary. *)
Inductive slot : Type :=
| SNull                      (* None *)
| SText (s : string)         (* a sentinel *)
| SNumber (x : spec_float).  (* a rounded ratio *)

(** The similarity dictionary: ["status"], and the two keys that only
    a comparison report has. *)
Record similarity : Type := Similarity {
  status : string;
  name_similarity : option slot;
  dob_similarity : option slot
}.

(** [result] once it has its ["similarity"] key. *)
Record response : Type := Response {
  fields : nid_data;
  similarity_of : similarity
}.

(** [provided_name] and [provided_dob]; a failure to read the form
    leaves both empty. *)
Definition provided (request_form : res form) : string * string :=
  match request_form with
  | Val f =>
      (strip (form_get (form_Name f)), strip (form_get (form_Date_of_Birth f)))
  | Exn _ => ("", "")
  end.

Section Scoring.

(** [difflib.SequenceMatcher(None, x, y).ratio()] as the interpreter
    runs it: its value, or the exception that ends it. *)
Variable sequence_ratio : string -> string -> res spec_float.

(** One slot: the [if]/[elif] on a provided and an extracted value. *)
Definition score_slot (sentinel provided_value extracted_value : string)
    : res slot :=
  if truthy provided_value && truthy extracted_value then
    match sequence_ratio (upper provided_value) (upper extracted_value) with
    | Val x => Val (SNumber (Float.round2 x))
    | Exn msg => Exn msg
    end
  else if truthy provided_value then Val (SText sentinel)
  else Val SNull.

(** The body of the [try] up to the assignment of [similarity]. *)
Definition score (provided_name provided_dob : string) (result : nid_data)
    : res similarity :=
  if negb (truthy provided_name) && negb (truthy provided_dob) then
    Val (Similarity "no_comparison_data_provided" None None)
  else
    let extracted_name := strip (Name result) in
    match score_slot "no_extracted_name_available" provided_name extracted_name with
    | Exn msg => Exn msg
    | Val name_slot =>
        let extracted_dob := strip (Date_of_birth result) in
        match score_slot "no_extracted_dob_available" provided_dob extracted_dob with
        | Exn msg => Exn msg
        | Val dob_slot =>
            Val (Similarity "partial_comparison" (Some name_slot) (Some dob_slot))
        end
    end.

(** From the reading of the form to [result["similarity"] = ...], the
    handler of the [try] included. *)
Definition attach_similarity (request_form : res form) (result : nid_data)
    : response :=
  let '(provided_name, provided_dob) := provided request_form in
  match score provided_name provided_dob result with
  | Val similarity => Response result similarity
  | Exn _ => Response result (Similarity "error_calculating_similarity" None None)
  end.

End Scoring.

(** The library call when nothing stops it. *)
Definition difflib_ratio (x y : string) : res spec_float :=
  Val (Difflib.ratio x y).

End App.

(** ** The words of the specification

    Definitions that follow the statements of the specification, for
    the code to be compared with. *)

Module Stated.
Import Py App.

(** *** ID numbers *)

(** A separator: white space or a hyphen. *)
Definition separator (c : ascii) : bool := is_space c || Ascii.eqb c "-".

(** A matched string with its separators stripped. *)
Definition without_separators (t : string) : string :=
  sfilter (fun c => negb (separator c)) t.

(** The digits of a string, in their order. *)
Definition digits_of (t : string) : string := sfilter is_digit t.

(** A count of exactly 10, 13 or 17. *)
Definition canonical_length (v : string) : Prop :=
  String.length v = 10 \/ String.length v = 13 \/ String.length v = 17.

(** *** Similarity *)

(** [c] is made of items of [l], in their order. *)
Inductive subsequence : list ascii -> list ascii -> Prop :=
| sub_nil : subsequence [] []
| sub_take (x : ascii) (c l : list ascii) :
    subsequence c l -> subsequence (x :: c) (x :: l)
| sub_skip (x : ascii) (c l : list ascii) :
    subsequence c l -> subsequence c (x :: l).

(** The two strings have a subsequence of [n] characters in common. *)
Definition common (x y : string) (n : nat) : Prop :=
  exists c,
    List.length c = n /\
    subsequence c (list_ascii_of_string x) /\
    subsequence c (list_ascii_of_string y).

(** Some character occurs in both strings. *)
Definition share_character (x y : string) : Prop :=
  exists c, In c (list_ascii_of_string x) /\ In c (list_ascii_of_string y).

(** [k] is the integer nearest to [num / den], the even one when two
    integers are equally near; [den] is positive. *)
Definition nearest (num den k : Z) : Prop :=
  (Z.abs (2 * num - 2 * k * den) < den)%Z \/
  ((Z.abs (2 * num - 2 * k * den) = den)%Z /\ Z.even k = true).

(** The integer [k] as a float with the sign [s], also when it is
    zero. *)
Definition signed (s : bool) (k : Z) : spec_float :=
  binary_normalize Float.prec Float.emax (cond_Zopp s k) 0 s.

(** [y] is [x] rounded to two decimal places: for a number
    [x = +-m * 2^e] that is not zero, the float nearest to [+-k / 100]
    where [k] is the integer nearest to [100 * m * 2^e]; a zero, an
    infinity or a NaN is kept. *)
Definition two_places (x y : spec_float) : Prop :=
  match x with
  | S754_finite s m e =>
      exists k : Z,
        (if (0 <=? e)%Z then nearest (100 * Zpos m * 2 ^ e) 1 k
         else nearest (100 * Zpos m) (2 ^ (- e)) k) /\
        y = Float.div (signed s k) Float.hundred
  | _ => y = x
  end.

(** [2 * n / total] in binary64 arithmetic. *)
Definition twice_over (n total : nat) : spec_float :=
  Float.div (Float.mul Float.two (Float.of_nat n)) (Float.of_nat total).

(** What the specification says of one slot of a comparison report,
    given the expected and the extracted value.

    When both are there, the slot is a number: with [n] the number of
    characters that the matching finds in common, in order, in the two
    upper-cased strings, it is [2 * n / total] rounded to two decimal
    places, [total] being the sum of the two lengths.  The matching
    takes all the characters when the upper-cased strings are the
    same, which gives 1.0 (strings are shorter than 2^52 characters),
    and at least one character when the two share one and the
    extracted value is shorter than 200 characters.

    When only the expected value is there, the slot is the sentinel of
    the field; when no expected value was supplied it is null. *)
Definition slot_stated (sentinel expected extracted : string) (s : slot)
    : Prop :=
  (expected <> "" -> extracted <> "" ->
   exists n y,
     common (upper expected) (upper extracted) n /\
     (upper expected = upper extracted -> n = String.length expected) /\
     (share_character (upper expected) (upper extracted) ->
      String.length extracted < 200 -> 0 < n) /\
     two_places
       (twice_over n (String.length expected + String.length extracted)) y /\
     s = SNumber y)
  /\
  (expected <> "" -> extracted <> "" -> upper expected = upper extracted ->
   (Z.of_nat (String.length expected) < 2 ^ 52)%Z ->
   s = SNumber Float.one)
  /\
  (expected <> "" -> extracted = "" -> s = SText sentinel)
  /\
  (expected = "" -> s = SNull).

End Stated.

(** ** Notions for the proofs about the matcher *)

Module Matching.
Import Difflib Stated.

(** The [k] items from [i] on in [a] are the [k] items from [j] on in
    [b]. *)
Definition agree (a b : list ascii) (i j k : nat) : Prop :=
  forall d, d < k -> item a (i + d) = item b (j + d).

Definition block_agree (a b : list ascii) (bst : best) : Prop :=
  let '(i, j, k) := bst in agree a b i j k.

(** Every length in the dictionary of the row above row [top] is that
    of a block of equal items that ends in that row. *)
Definition dict_agree (a b : list ascii) (top : nat) (d : dict) : Prop :=
  forall j, agree a b (top - dict_get d j) (j + 1 - dict_get d j) (dict_get d j).

(** The items [lo], ..., [hi - 1] of a list. *)
Definition slice (l : list ascii) (lo hi : nat) : list ascii :=
  firstn (hi - lo) (skipn lo l).

(** The sizes of the blocks, summed. *)
Definition total (blocks : list best) : nat :=
  fold_right (fun '(_, _, k) n => k + n) 0 blocks.

(** The size of a block. *)
Definition size (bst : best) : nat := snd bst.

(** The ranges of the queue lie in the two sequences. *)
Definition queue_within (a b : list ascii) (q : queue) : Prop :=
  Forall (fun '(alo, ahi, blo, bhi) =>
            alo <= ahi /\ ahi <= List.length a /\
            blo <= bhi /\ bhi <= List.length b) q.

(** The two ranges have a subsequence of [n] items in common. *)
Definition common_in (a b : list ascii) (r : nat * nat * nat * nat) (n : nat)
    : Prop :=
  let '(alo, ahi, blo, bhi) := r in
  exists c,
    List.length c = n /\
    subsequence c (slice a alo ahi) /\ subsequence c (slice b blo bhi).

End Matching.

(** ** What a pattern needs of a text *)

Module Needs.
Import Py Re Extractor.

(** Every character of the class, under the flags of the call,
    satisfies [p]. *)
Definition cls_within (ic : bool) (p : ascii -> bool) (cs : cls) : bool :=
  forallb (fun c => implb (in_cls ic cs c) (p c)) all_ascii.

(** Every match of the pattern consumes a character that satisfies
    [p]. *)
Fixpoint needs_chr (ic : bool) (p : ascii -> bool) (r : re) : bool :=
  match r with
  | RSet cs => cls_within ic p cs
  | RRep cs lo _ => (1 <=? lo) && cls_within ic p cs
  | RCat r1 r2 => needs_chr ic p r1 || needs_chr ic p r2
  | RAlt r1 r2 => needs_chr ic p r1 && needs_chr ic p r2
  | RGrp r1 => needs_chr ic p r1
  | _ => false
  end.

(** Every match of the pattern, case being respected, goes through
    the literal [l]. *)
Fixpoint needs_lit (l : string) (r : re) : bool :=
  match r with
  | RLit l' => String.eqb l' l
  | RCat r1 r2 => needs_lit l r1 || needs_lit l r2
  | RAlt r1 r2 => needs_lit l r1 && needs_lit l r2
  | RGrp r1 => needs_lit l r1
  | _ => false
  end.

(** The characters the name patterns capture. *)
Definition name_char (c : ascii) : bool :=
  is_upper c || is_lower c || is_space c || Ascii.eqb c ".".

(** An entry of a recognition result that the loop over the entries
    skips: it has no length, or fewer than two items. *)
Definition skipped (o : pyobj) : Prop :=
  match py_len o with
  | Val n => n < 2
  | Exn _ => True
  end.

Definition is_str (o : pyobj) : bool :=
  match o with
  | PStr _ => true
  | _ => false
  end.

(** The surroundings [w] with a recognizer that answers [results]. *)
Definition answering (w : world) (results : list pyobj) : world :=
  World (path_exists w) (get_reader w) (fun _ => Val results).

End Needs.

(** ** [get_reader] in [nid_extractor.py] *)

Module Reader.
Import Extractor.

Section GetReader.

(** The instances of [easyocr.Reader]. *)
Variable R : Type.

(** What one call of [get_reader] may ask of its surroundings. *)
Record setup : Type := Setup {
  cuda_is_available : res bool;  (* import torch; torch.cuda.is_available() *)
  first_Reader : bool -> res R;  (* easyocr.Reader(['en'], gpu=gpu_available, ...) *)
  cpu_Reader : res R             (* easyocr.Reader(['en'], gpu=False, ...) *)
}.

(** [get_reader()] on the module variable [reader]: the value it
    returns or the exception that leaves it, and [reader] afterwards. *)
Definition get_reader (s : setup) (reader : option R) : res R * option R :=
  match reader with
  | Some r => (Val r, reader)
  | None =>
      let attempt :=
        match cuda_is_available s with
        | Val gpu_available => first_Reader s gpu_available
        | Exn msg => Exn msg
        end in
      match attempt with
      | Val r => (Val r, Some r)
      | Exn _ =>
          match cpu_Reader s with
          | Val r => (Val r, Some r)
          | Exn msg => (Exn msg, None)
          end
      end
  end.

(** One call after the other. *)
Fixpoint calls (ss : list setup) (reader : option R)
    : list (res R) * option R :=
  match ss with
  | [] => ([], reader)
  | s :: later =>
      let '(x, reader') := get_reader s reader in
      let '(xs, reader'') := calls later reader' in
      (x :: xs, reader'')
  end.

End GetReader.

Arguments cuda_is_available {R} s.
Arguments first_Reader {R} s _.
Arguments cpu_Reader {R} s.
Arguments get_reader {R} s reader.
Arguments calls {R} ss reader.

End Reader.

(** ** [utils.py] *)

Module Utils.
Import Py Extractor.

(** *** Settings of [config.py] that are constants *)

Definition ALLOWED_EXTENSIONS : list string := ["png"; "jpg"; "jpeg"].
Definition ALLOWED_MIME_TYPES : list string :=
  ["image/png"; "image/jpeg"; "image/jpg"].

(** [x in s] for a set of strings. *)
Definition mem (x : string) (s : list string) : bool :=
  existsb (String.eqb x) s.

(** *** [allowed_file] *)

(** [s.rsplit(sep, 1)] for a separator of one character: the string
    itself, or what lies before and after the last separator. *)
Fixpoint rsplit1 (sep : ascii) (s : string) : list string :=
  match s with
  | EmptyString => [EmptyString]
  | String c t =>
      match rsplit1 sep t with
      | [head; tail] => [String c head; tail]
      | _ => if Ascii.eqb c sep then [EmptyString; t] else [String c t]
      end
  end.

(** [l[1]] *)
Definition item1 (l : list string) : res string :=
  match l with
  | _ :: x :: _ => Val x
  | _ => Exn "list index out of range"
  end.

(** ['.' in filename and
     filename.rsplit('.', 1)[1].lower() in ALLOWED_EXTENSIONS] *)
Definition allowed_file (filename : string) : res bool :=
  if contains "." filename then
    match item1 (rsplit1 "." filename) with
    | Val ext => Val (mem (lower ext) ALLOWED_EXTENSIONS)
    | Exn msg => Exn msg
    end
  else Val false.

(** *** The cache directory

    The directory is absent, or present with the names of the files in
    it; a path handed to [cleanup_file] is such a name.  What the
    operating system and [magic] answer to the calls of one request is
    an input. *)

Definition cache : Type := option (list string).

Record os : Type := OS {
  os_makedirs : res unit;                 (* os.makedirs(CACHE_DIR, mode=0o750) *)
  os_remove : res unit;                   (* os.remove(filepath) *)
  os_rmdir : res unit;                    (* os.listdir and os.rmdir *)
  magic_from_file : string -> res string  (* magic.Magic(mime=True).from_file *)
}.

(** [ensure_cache_dir()]: the handler logs and raises again. *)
Definition ensure_cache_dir (o : os) (c : cache) : res unit * cache :=
  match c with
  | Some _ => (Val tt, c)
  | None =>
      match os_makedirs o with
      | Val _ => (Val tt, Some [])
      | Exn msg => (Exn msg, None)
      end
  end.

Definition without (name : string) (files : list string) : list string :=
  filter (fun f => negb (String.eqb f name)) files.

(** [cleanup_file(filepath)]: every exception ends in the handler. *)
Definition cleanup_file (o : os) (filepath : string) (c : cache) : cache :=
  match c with
  | Some files =>
      if mem filepath files then
        match os_remove o with
        | Val _ =>
            match without filepath files with
            | [] =>
                match os_rmdir o with
                | Val _ => None
                | Exn _ => Some []
                end
            | rest => Some rest
            end
        | Exn _ => c
        end
      else c
  | None => c
  end.

(** [validate_file_mime(file_path)] *)
Definition validate_file_mime (o : os) (file_path : string) : bool :=
  match magic_from_file o file_path with
  | Val file_mime => mem file_mime ALLOWED_MIME_TYPES
  | Exn _ => false
  end.

(** *** Requests, replies and the state of the server *)

(** The exceptions [handle_exceptions] tells apart. *)
Inductive exn : Type :=
| RequestEntityTooLarge
| Unauthorized
| TooManyRequests
| OtherException (msg : string).

Inductive outcome (A : Type) : Type :=
| Return (a : A)
| Raise (e : exn).
Arguments Return {A} a.
Arguments Raise {A} e.

(** [jsonify(...)] of an error, or of the result dictionary. *)
Inductive payload : Type :=
| Error (msg : string)
| Result (r : App.response).

Record reply : Type := Reply {
  payload_of : payload;
  status_code : nat
}.

(** The uploaded part: its name, and what [file.save] does. *)
Record upload : Type := Upload {
  filename : string;
  save : res unit
}.

(** One request with everything it meets on its way. *)
Record request : Type := Request {
  token : option string;          (* request.headers.get(TOKEN_HEADER_NAME) *)
  remote_addr : option string;    (* request.remote_addr *)
  time_time : spec_float;         (* time.time() *)
  files_image : outcome (option upload);  (* request.files, its 'image' part *)
  request_form : res App.form;    (* request.form *)
  temp_name : res string;         (* NamedTemporaryFile(...).name *)
  imread : res bool;              (* cv2.imread: an array, or None *)
  system : os;
  ocr : world
}.

(** [request_history]: a dictionary from client identifiers to lists
    of clock readings, in insertion order. *)
Definition client : Type := option string.
Definition history : Type := list (client * list spec_float).

Record server : Type := Server {
  request_history : history;
  cache_dir : cache
}.

Definition view : Type := request -> server -> outcome reply * server.

Definition client_eqb (a b : client) : bool :=
  match a, b with
  | Some x, Some y => String.eqb x y
  | None, None => true
  | _, _ => false
  end.

(** [d.get(key, [])] *)
Fixpoint history_get (h : history) (key : client) : list spec_float :=
  match h with
  | [] => []
  | (k, ts) :: later => if client_eqb k key then ts else history_get later key
  end.

(** [d[key] = ts] *)
Fixpoint history_set (key : client) (ts : list spec_float) (h : history)
    : history :=
  match h with
  | [] => [(key, ts)]
  | (k, old) :: later =>
      if client_eqb k key then (k, ts) :: later
      else (k, old) :: history_set key ts later
  end.

(** [x < n] for a float [x] and an integer [n]: the comparison is
    exact, and false on a NaN. *)
Definition float_lt_int (x : spec_float) (n : Z) : bool :=
  match x with
  | S754_nan => false
  | S754_infinity s => s
  | S754_zero _ => (0 <? n)%Z
  | S754_finite s m e =>
      let v := if s then Z.neg m else Z.pos m in
      if (0 <=? e)%Z then (v * 2 ^ e <? n)%Z else (v <? n * 2 ^ (- e))%Z
  end.

Section Decorators.

(** Settings of [config.py] read from the environment. *)
Variable AUTH_TOKEN : string.
Variable RATE_LIMIT : Z.
Variable RATE_LIMIT_WINDOW : Z.

(** [authenticate(f)] *)
Definition authenticate (f : view) : view :=
  fun req st =>
    match token req with
    | None | Some EmptyString =>
        (Return (Reply (Error "Authentication required") 401), st)
    | Some t =>
        if negb (String.eqb t AUTH_TOKEN) then
          (Return (Reply (Error "Invalid authentication token") 401), st)
        else f req st
    end.

(** [current_time - t < RATE_LIMIT_WINDOW] *)
Definition recent (current_time t : spec_float) : bool :=
  float_lt_int (SFsub Float.prec Float.emax current_time t) RATE_LIMIT_WINDOW.

(** The loop that cleans old entries. *)
Definition clean_old (current_time : spec_float) (h : history) : history :=
  map (fun '(key, ts) => (key, filter (recent current_time) ts)) h.

(** [request.headers.get(TOKEN_HEADER_NAME, request.remote_addr)] *)
Definition client_id (req : request) : client :=
  match token req with
  | Some t => Some t
  | None => remote_addr req
  end.

(** The body of [rate_limit]'s wrapper up to the call of [f]: whether
    the request is within the limit, and [request_history] then. *)
Definition within_limit (req : request) (h : history) : bool * history :=
  let current_time := time_time req in
  let cleaned := clean_old current_time h in
  let client_history := history_get cleaned (client_id req) in
  if (RATE_LIMIT <=? Z.of_nat (List.length client_history))%Z then
    (false, cleaned)
  else
    (true,
     history_set (client_id req) (client_history ++ [current_time]) cleaned).

(** [rate_limit(f)] *)
Definition rate_limit (f : view) : view :=
  fun req st =>
    let '(ok, h) := within_limit req (request_history st) in
    if ok then f req (Server h (cache_dir st))
    else (Return (Reply (Error "Rate limit exceeded") 429),
          Server h (cache_dir st)).

(** [handle_exceptions(f)] *)
Definition handle_exceptions (f : view) : view :=
  fun req st =>
    match f req st with
    | (Return r, st') => (Return r, st')
    | (Raise RequestEntityTooLarge, st') =>
        (Return (Reply (Error "Uploaded file exceeds size limit") 413), st')
    | (Raise Unauthorized, st') =>
        (Return (Reply (Error "Authentication required") 401), st')
    | (Raise TooManyRequests, st') =>
        (Return (Reply (Error "Rate limit exceeded") 429), st')
    | (Raise (OtherException _), st') =>
        (Return (Reply (Error "Internal server error") 500), st')
    end.

(** The decisions of the limiter on one request after the other. *)
Fixpoint limiter (reqs : list request) (h : history) : list bool * history :=
  match reqs with
  | [] => ([], h)
  | req :: later =>
      let '(ok, h') := within_limit req h in
      let '(oks, h'') := limiter later h' in
      (ok :: oks, h'')
  end.

End Decorators.

(** The reading is a number. *)
Definition finite (x : spec_float) : bool :=
  match x with
  | S754_zero _ | S754_finite _ _ _ => true
  | _ => false
  end.

(** Every list of the history has at most [n] readings. *)
Definition bounded (n : nat) (h : history) : Prop :=
  Forall (fun entry => List.length (snd entry) <= n) h.

(** The identifiers in a history. *)
Definition clients (h : history) : list client := map fst h.

End Utils.

(** ** The view [process_image] of [app.py] and its decorators *)

Module Endpoint.
Import Py Extractor App Utils.

(** [NamedTemporaryFile(dir=CACHE_DIR, suffix=".jpg", delete=False)]
    puts a new file into the directory. *)
Definition NamedTemporaryFile (name : res string) (c : cache)
    : res string * cache :=
  match c with
  | Some files =>
      match name with
      | Val n => (Val n, Some (n :: files))
      | Exn msg => (Exn msg, c)
      end
  | None => (Exn "No such file or directory", c)
  end.

Definition failure (msg : string) (status : nat) : outcome reply :=
  Return (Reply (Error msg) status).

Section View.

(** [difflib.SequenceMatcher(None, x, y).ratio()] as the interpreter
    runs it. *)
Variable sequence_ratio : string -> string -> res spec_float.

(** [process_image()].  [extract_nid_fields] ends every exception of
    its own in its result, so that the handler around its call has
    nothing to catch. *)
Definition process_image : view :=
  fun req st =>
    let h := request_history st in
    match files_image req with
    | Raise e => (Raise e, st)
    | Return None => (failure "No image provided" 400, st)
    | Return (Some file) =>
        if String.eqb (filename file) "" then (failure "Empty filename" 400, st)
        else
          match allowed_file (filename file) with
          | Exn msg => (Raise (OtherException msg), st)
          | Val false => (failure "File type not allowed" 400, st)
          | Val true =>
              match ensure_cache_dir (system req) (cache_dir st) with
              | (Exn _, c) =>
                  (failure "Server configuration error" 500, Server h c)
              | (Val _, c) =>
                  match NamedTemporaryFile (temp_name req) c with
                  | (Exn _, c1) =>
                      (failure "Failed to process image upload" 500,
                       Server h c1)
                  | (Val image_path, c1) =>
                      match save file with
                      | Exn _ =>
                          (failure "Failed to process image upload" 500,
                           Server h c1)
                      | Val _ =>
                          let cleaned :=
                            Server h (cleanup_file (system req) image_path c1) in
                          if negb (validate_file_mime (system req) image_path)
                          then (failure "Invalid file format" 400, cleaned)
                          else
                            match imread req with
                            | Exn _ =>
                                (failure "Image processing error" 500, cleaned)
                            | Val false =>
                                (failure "Invalid image provided" 400, cleaned)
                            | Val true =>
                                let result :=
                                  extract_nid_fields (ocr req) ImgArray in
                                let result :=
                                  attach_similarity sequence_ratio
                                    (request_form req) result in
                                (Return (Reply (Result result) 200), cleaned)
                            end
                      end
                  end
              end
          end
    end.

Variable AUTH_TOKEN : string.
Variable RATE_LIMIT : Z.
Variable RATE_LIMIT_WINDOW : Z.

(** The view as the route has it: [@authenticate @rate_limit
    @handle_exceptions]. *)
Definition route : view :=
  authenticate AUTH_TOKEN
    (rate_limit RATE_LIMIT RATE_LIMIT_WINDOW
       (handle_exceptions process_image)).

(** One request after the other. *)
Fixpoint serve (reqs : list request) (st : server)
    : list (outcome reply) * server :=
  match reqs with
  | [] => ([], st)
  | req :: later =>
      let '(r, st') := route req st in
      let '(rs, st'') := serve later st' in
      (r :: rs, st'')
  end.

End View.

(** The request gets as far as the temporary file: it carries a part
    with an allowed name, the cache directory is there, now holding
    [files], and the new file [image_path] is put into it. *)
Definition creates (req : request) (st : server) (file : upload)
    (image_path : string) (files : list string) : Prop :=
  files_image req = Return (Some file) /\
  filename file <> "" /\
  allowed_file (filename file) = Val true /\
  ensure_cache_dir (system req) (cache_dir st) = (Val tt, Some files) /\
  temp_name req = Val image_path.

(** The request reaches the extraction: the upload is saved, has an
    allowed MIME type and is read as an image. *)
Definition reaches_ocr (req : request) (st : server) : Prop :=
  exists file image_path files,
    creates req st file image_path files /\
    save file = Val tt /\
    validate_file_mime (system req) image_path = true /\
    imread req = Val true.

(** The caller presents the token of the server. *)
Definition authentic (AUTH_TOKEN : string) (req : request) : bool :=
  match token req with
  | Some t => negb (String.eqb t "") && String.eqb t AUTH_TOKEN
  | None => false
  end.

(** A history with one key at most, which is the server's token. *)
Definition one_bucket (AUTH_TOKEN : string) (h : history) : Prop :=
  h = [] \/ exists ts, h = [(Some AUTH_TOKEN, ts)].

(** A request that carries the token [tok] and an image named [name]
    in which the recognizer reads [text] as one paragraph, at the clock
    reading [now], when nothing fails. *)
Definition upload_of (tok : option string) (now : Z) (name text : string)
    : request :=
  Request tok (Some "127.0.0.1") (Float.of_Z now)
    (Return (Some (Upload name (Val tt))))
    (Val (Form None None))
    (Val "tmp1.jpg") (Val true)
    (OS (Val tt) (Val tt) (Val tt) (fun _ => Val "image/png"))
    (world_of (one_block text)).

End Endpoint.
(** * Properties *)

(** ** Strings *)

Section StringFacts.
Import Py.

Lemma take_drop (n : nat) (s : string) : (take n s ++ drop n s)%string = s.
Proof.
  revert s; induction n as [|n IH]; intros [|c t]; simpl; trivial.
  now rewrite IH.
Qed.

Lemma drop_drop (n p : nat) (s : string) : drop n (drop p s) = drop (p + n) s.
Proof.
  revert s; induction p as [|p IH]; intros s; simpl; trivial.
  destruct s as [|c t]; simpl.
  - now destruct n.
  - apply IH.
Qed.

Lemma sall_app (p : ascii -> bool) (a b : string) :
  sall p (a ++ b)%string = sall p a && sall p b.
Proof.
  induction a as [|c a IH]; simpl; trivial.
  now rewrite IH, andb_assoc.
Qed.

Lemma sall_sfilter_both (p q r : ascii -> bool) (s : string) :
  (forall c, q c = true -> p c = true -> r c = true) ->
  sall q s = true -> sall r (sfilter p s) = true.
Proof.
  intros H; induction s as [|c t IH]; simpl; trivial.
  intros Hq; apply andb_true_iff in Hq as [Hc Ht].
  destruct (p c) eqn:E; simpl; auto.
  now rewrite (H _ Hc E), IH.
Qed.

Lemma in_all_ascii (c : ascii) : In c all_ascii.
Proof.
  unfold all_ascii. rewrite <- (ascii_nat_embedding c).
  apply in_map, in_seq. pose proof (nat_ascii_bounded c). lia.
Qed.

Lemma take_drop_substring (n p : nat) (text : string) :
  substring_of (take n (drop p text)) text.
Proof.
  exists (take p text), (drop n (drop p text)).
  now rewrite take_drop, take_drop.
Qed.

End StringFacts.

(** ** The matcher *)

Section Matcher.
Import Py Re.

Variable ic : bool.

Lemma lit_span (l : string) (s s' : mstate) :
  lit ic l s = Some s' ->
  span (String.length l) s s' /\ m_grp s' = m_grp s.
Proof.
  revert s; induction l as [|a l IH]; intros s; simpl.
  - intros [= <-]. unfold span; simpl. repeat split; lia.
  - destruct (m_rest s) as [|c t] eqn:E; try discriminate.
    destruct (chr_eq ic a c); try discriminate.
    intros H. apply IH in H as [(H1 & H2 & H3) H4]. simpl in *.
    unfold span. rewrite E. simpl. repeat split; trivial; lia.
Qed.

Lemma lit_chars (l : string) (s s' : mstate) :
  ic = false -> lit ic l s = Some s' ->
  take (String.length l) (m_rest s) = l.
Proof.
  intros ->. revert s; induction l as [|a l IH]; intros s; simpl.
  - now destruct (m_rest s).
  - destruct (m_rest s) as [|c t] eqn:E; try discriminate.
    destruct (Ascii.eqb a c) eqn:Eac; try discriminate.
    apply Ascii.eqb_eq in Eac as ->.
    intros H. apply IH in H. simpl in H. now rewrite H.
Qed.

Lemma Run_span (cs : cls) (n : nat) (s s' : mstate) :
  Run ic cs n s s' -> span n s s' /\ m_grp s' = m_grp s.
Proof.
  induction 1 as [s|n s s' c t E Hc _ [(H1 & H2 & H3) H4]].
  - unfold span; simpl. repeat split; lia.
  - unfold span, adv in *. simpl in *. rewrite E. simpl.
    repeat split; trivial; lia.
Qed.

Lemma Run_chars (cs : cls) (p : ascii -> bool) (n : nat) (s s' : mstate) :
  (forall c, in_cls ic cs c = true -> p c = true) ->
  Run ic cs n s s' -> sall p (take n (m_rest s)) = true.
Proof.
  intros Hp. induction 1 as [s|n s s' c t E Hc _ IH]; simpl.
  - now destruct (m_rest s).
  - rewrite E. simpl in *. now rewrite (Hp _ Hc), IH.
Qed.

Lemma span_trans (n p : nat) (s s1 s' : mstate) :
  span n s s1 -> span p s1 s' -> span (n + p) s s'.
Proof.
  intros (H1 & H2 & H3) (K1 & K2 & K3). unfold span.
  rewrite K1, H1, drop_drop, K2, H2. repeat split; try lia.
  rewrite H1 in K3.
  assert (L : forall k u, String.length (drop k u) = String.length u - k).
  { induction k as [|k IHk]; intros [|a u]; simpl; auto. }
  rewrite L in K3. lia.
Qed.

(** A match moves forward in the text and leaves the text alone. *)
Lemma Matches_span (r : re) (s s' : mstate) :
  Matches ic r s s' -> exists n, span n s s'.
Proof.
  revert s s'; induction r as
    [l|cs|cs lo hi|r1 IH1 r2 IH2|r1 IH1 r2 IH2|r1 IH1|r1 IH1|r1 IH1| |];
    intros s s'; simpl.
  - intros H. eexists. apply (lit_span _ _ _ H).
  - intros (c & t & E & _ & ->). exists 1. unfold span, adv; simpl.
    rewrite E; simpl. repeat split; lia.
  - intros (n & H & _). exists n. apply (Run_span _ _ _ _ H).
  - intros (s1 & H1 & H2). destruct (IH1 _ _ H1) as [n Hn].
    destruct (IH2 _ _ H2) as [p Hp]. exists (n + p).
    eapply span_trans; eassumption.
  - intros [H|H]; eauto.
  - intros [H| ->]; eauto. exists 0. unfold span; simpl. repeat split; lia.
  - intros (s1 & H1 & ->). destruct (IH1 _ _ H1) as [n Hn]. exists n. exact Hn.
  - intros (s1 & _ & ->). exists 0. unfold span; simpl. repeat split; lia.
  - intros (_ & ->). exists 0. unfold span; simpl. repeat split; lia.
  - intros (_ & ->). exists 0. unfold span; simpl. repeat split; lia.
Qed.

(** The repetition loop finds what [Run] describes. *)
Lemma rep_sound (cs : cls) (t : string) :
  forall lo hi pv i g k m,
    rep ic cs lo hi t pv i g k = Some m ->
    exists n s',
      Run ic cs n (MState pv i t g) s' /\ lo <= n /\ below hi n /\
      k s' = Some m.
Proof.
  induction t as [|c t IH]; intros lo hi pv i g k m; simpl.
  - destruct (lo =? 0) eqn:E; try discriminate.
    apply Nat.eqb_eq in E as ->. intros H.
    exists 0, (MState pv i "" g). repeat split; trivial.
    + constructor.
    + destruct hi; simpl; lia.
  - assert (Here : (if lo =? 0 then k (MState pv i (String c t) g) else None)
                   = Some m ->
                   exists n s',
                     Run ic cs n (MState pv i (String c t) g) s' /\
                     lo <= n /\ below hi n /\ k s' = Some m).
    { destruct (lo =? 0) eqn:E; try discriminate.
      apply Nat.eqb_eq in E as ->. intros H.
      exists 0, (MState pv i (String c t) g). repeat split; trivial.
      - constructor.
      - destruct hi; simpl; lia. }
    destruct (in_cls ic cs c && hi_open hi) eqn:E; trivial.
    apply andb_true_iff in E as [Ec Eh].
    destruct (rep ic cs (pred lo) (option_map pred hi) t (Some c) (S i) g k)
      as [m'|] eqn:R; trivial.
    intros [= ->]. apply IH in R as (n & s' & R1 & R2 & R3 & R4).
    exists (S n), s'. repeat split; trivial.
    + econstructor; [reflexivity|exact Ec|exact R1].
    + lia.
    + destruct hi as [[|h]|]; simpl in *; try discriminate; lia.
Qed.

(** The backtracking matcher only returns matches. *)
Lemma rmatch_sound (r : re) :
  forall s k m,
    rmatch ic r s k = Some m ->
    exists s', Matches ic r s s' /\ k s' = Some m.
Proof.
  induction r as
    [l|cs|cs lo hi|r1 IH1 r2 IH2|r1 IH1 r2 IH2|r1 IH1|r1 IH1|r1 IH1| |];
    intros s k m; simpl.
  - destruct (lit ic l s) as [s'|] eqn:E; try discriminate. eauto.
  - destruct (m_rest s) as [|c t] eqn:E; try discriminate.
    destruct (in_cls ic cs c) eqn:Ec; try discriminate.
    intros H. eexists. split; [|exact H]. exists c, t. auto.
  - intros H. apply rep_sound in H as (n & s' & H1 & H2 & H3 & H4).
    exists s'. split; trivial. exists n. destruct s; auto.
  - intros H. apply IH1 in H as (s1 & H1 & H).
    apply IH2 in H as (s' & H2 & H). eauto.
  - destruct (rmatch ic r1 s k) as [m'|] eqn:E.
    + intros [= ->]. apply IH1 in E as (s' & H1 & H). eauto.
    + intros H. apply IH2 in H as (s' & H2 & H). eauto.
  - destruct (rmatch ic r1 s k) as [m'|] eqn:E.
    + intros [= ->]. apply IH1 in E as (s' & H1 & H). eauto.
    + intros H. eauto.
  - intros H. apply IH1 in H as (s1 & H1 & H). eauto.
  - destruct (rmatch ic r1 s Some) as [s1|] eqn:E; try discriminate.
    apply IH1 in E as (s1' & H1 & [= ->]). eauto.
  - destruct (at_bound s) eqn:E; try discriminate. eauto.
  - destruct (at_end s) eqn:E; try discriminate. eauto.
Qed.

(** [re.search] returns a match that starts somewhere in the text. *)
Lemma search_from_sound (r : re) (t : string) :
  forall pv i m,
    search_from ic r pv i t = Some m ->
    exists n pv' s',
      Matches ic r (MState pv' (i + n) (drop n t) None) s' /\ m = s'.
Proof.
  induction t as [|c t IH]; intros pv i m; simpl.
  - destruct (rmatch ic r (MState pv i "" None) Some) as [m'|] eqn:E;
      try discriminate.
    intros [= ->]. apply rmatch_sound in E as (s' & H & [= ->]).
    exists 0, pv, m. now rewrite Nat.add_0_r.
  - destruct (rmatch ic r (MState pv i (String c t) None) Some) as [m'|] eqn:E.
    + intros [= ->]. apply rmatch_sound in E as (s' & H & [= ->]).
      exists 0, pv, m. now rewrite Nat.add_0_r.
    + intros H. apply IH in H as (n & pv' & s' & H & ->).
      exists (S n), pv', s'. simpl.
      replace (i + S n) with (S i + n) by lia. auto.
Qed.

End Matcher.

(** ** What group 1 holds *)

Section Groups.
Import Py Re.

Variable ic : bool.

Lemma span_rest (text : string) (n : nat) (s s' : mstate) :
  span n s s' -> (exists p, m_rest s = drop p text) ->
  exists p, m_rest s' = drop p text.
Proof.
  intros (H & _) [p Hp]. exists (p + n). now rewrite H, Hp, drop_drop.
Qed.

(** Nothing unsets the group. *)
Lemma Matches_grp_kept (r : re) (s s' : mstate) :
  Matches ic r s s' -> m_grp s <> None -> m_grp s' <> None.
Proof.
  revert s s'; induction r as
    [l|cs|cs lo hi|r1 IH1 r2 IH2|r1 IH1 r2 IH2|r1 IH1|r1 IH1|r1 IH1| |];
    intros s s'; simpl.
  - intros H. now rewrite (proj2 (lit_span _ _ _ _ H)).
  - now intros (c & t & _ & _ & ->).
  - intros (n & H & _). now rewrite (proj2 (Run_span _ _ _ _ _ H)).
  - intros (s1 & H1 & H2) Hs. eauto.
  - intros [H|H]; eauto.
  - intros [H| ->]; eauto.
  - intros (s1 & _ & ->) _. discriminate.
  - intros (s1 & H1 & ->) Hs. simpl. eauto.
  - now intros (_ & ->).
  - now intros (_ & ->).
Qed.

Lemma Matches_has_grp (r : re) (s s' : mstate) :
  has_grp r = true -> Matches ic r s s' -> m_grp s' <> None.
Proof.
  revert s s'; induction r as
    [l|cs|cs lo hi|r1 IH1 r2 IH2|r1 IH1 r2 IH2|r1 IH1|r1 IH1|r1 IH1| |];
    intros s s'; simpl; try discriminate.
  - intros Hg (s1 & H1 & H2). destruct (has_grp r1) eqn:E1.
    + eapply Matches_grp_kept; eauto.
    + simpl in Hg. eauto.
  - intros Hg [H|H]; apply andb_true_iff in Hg as [G1 G2]; eauto.
  - intros _ (s1 & _ & ->). discriminate.
Qed.

(** The group is a piece of the text that is searched. *)
Lemma Matches_grp_substring (text : string) (r : re) (s s' : mstate) :
  Matches ic r s s' ->
  (exists p, m_rest s = drop p text) ->
  (forall g, m_grp s = Some g -> substring_of g text) ->
  forall g, m_grp s' = Some g -> substring_of g text.
Proof.
  revert s s'; induction r as
    [l|cs|cs lo hi|r1 IH1 r2 IH2|r1 IH1 r2 IH2|r1 IH1|r1 IH1|r1 IH1| |];
    intros s s'; simpl.
  - intros H _. now rewrite (proj2 (lit_span _ _ _ _ H)).
  - now intros (c & t & _ & _ & ->) _.
  - intros (n & H & _) _. now rewrite (proj2 (Run_span _ _ _ _ _ H)).
  - intros (s1 & H1 & H2) Hp Hg.
    destruct (Matches_span _ _ _ _ H1) as [n Hn].
    eapply IH2; eauto using span_rest.
  - intros [H|H]; eauto.
  - intros [H| ->]; eauto.
  - intros (s1 & H1 & ->) [p Hp] _ g [= <-]. rewrite Hp.
    apply take_drop_substring.
  - intros (s1 & H1 & ->) Hp Hg. simpl. eauto.
  - now intros (_ & ->).
  - now intros (_ & ->).
Qed.

End Groups.

Section GroupChars.
Import Py Re.

Variable p : ascii -> bool.

Lemma cls_sub_in (cs : cls) (c : ascii) :
  cls_sub p cs = true -> in_cls false cs c = true -> p c = true.
Proof.
  unfold cls_sub, in_cls. rewrite forallb_forall. intros H Hc.
  specialize (H c (in_all_ascii c)). simpl in Hc. rewrite orb_false_r in Hc.
  now rewrite Hc in H.
Qed.

Lemma take_add (n k : nat) (s : string) :
  take (n + k) s = (take n s ++ take k (drop n s))%string.
Proof.
  revert s; induction n as [|n IH]; intros [|c t]; simpl; trivial.
  - now destruct k.
  - now rewrite IH.
Qed.

(** A pattern made of [p]-characters consumes [p]-characters. *)
Lemma only_consumed (r : re) (s s' : mstate) :
  only p r = true -> Matches false r s s' ->
  exists n, span n s s' /\ sall p (take n (m_rest s)) = true.
Proof.
  revert s s'; induction r as
    [l|cs|cs lo hi|r1 IH1 r2 IH2|r1 IH1 r2 IH2|r1 IH1|r1 IH1|r1 IH1| |];
    intros s s'; simpl.
  - intros Hl H. exists (String.length l). split.
    + apply (lit_span _ _ _ _ H).
    + now rewrite (lit_chars _ _ _ _ eq_refl H).
  - intros Hc (c & t & E & Hin & ->). exists 1. split.
    + unfold span, adv; simpl. rewrite E; simpl. repeat split; lia.
    + rewrite E. simpl. now rewrite (cls_sub_in _ _ Hc Hin).
  - intros Hc (n & H & _). exists n. split.
    + apply (Run_span _ _ _ _ _ H).
    + eapply Run_chars; [|exact H]. intros c. now apply cls_sub_in.
  - intros Ho (s1 & H1 & H2). apply andb_true_iff in Ho as [O1 O2].
    destruct (IH1 _ _ O1 H1) as (n & Sn & Cn).
    destruct (IH2 _ _ O2 H2) as (k & Sk & Ck).
    exists (n + k). split.
    + eapply span_trans; eassumption.
    + rewrite take_add, sall_app, Cn. simpl.
      destruct Sn as (E & _). now rewrite <- E.
  - intros Ho [H|H]; apply andb_true_iff in Ho as [O1 O2]; eauto.
  - intros Ho [H| ->]; eauto. exists 0. split.
    + unfold span; simpl. repeat split; lia.
    + now destruct (m_rest s).
  - intros Ho (s1 & H1 & ->). destruct (IH1 _ _ Ho H1) as (n & Sn & Cn).
    exists n. split; trivial.
  - intros _ (s1 & _ & ->). exists 0. split.
    + unfold span; simpl. repeat split; lia.
    + now destruct (m_rest s).
  - intros _ (_ & ->). exists 0. split.
    + unfold span; simpl. repeat split; lia.
    + now destruct (m_rest s).
  - intros _ (_ & ->). exists 0. split.
    + unfold span; simpl. repeat split; lia.
    + now destruct (m_rest s).
Qed.

Lemma Matches_grp_only (r : re) (s s' : mstate) :
  grp_only p r = true -> Matches false r s s' ->
  (forall g, m_grp s = Some g -> sall p g = true) ->
  forall g, m_grp s' = Some g -> sall p g = true.
Proof.
  revert s s'; induction r as
    [l|cs|cs lo hi|r1 IH1 r2 IH2|r1 IH1 r2 IH2|r1 IH1|r1 IH1|r1 IH1| |];
    intros s s'; simpl.
  - intros _ H. now rewrite (proj2 (lit_span _ _ _ _ H)).
  - now intros _ (c & t & _ & _ & ->).
  - intros _ (n & H & _). now rewrite (proj2 (Run_span _ _ _ _ _ H)).
  - intros Ho (s1 & H1 & H2) Hg. apply andb_true_iff in Ho as [O1 O2]. eauto.
  - intros Ho [H|H]; apply andb_true_iff in Ho as [O1 O2]; eauto.
  - intros Ho [H| ->]; eauto.
  - intros Ho (s1 & H1 & ->) _ g [= <-]. apply andb_true_iff in Ho as [O1 O2].
    destruct (only_consumed _ _ _ O1 H1) as (n & (_ & E & _) & Cn).
    now replace (m_pos s1 - m_pos s) with n by lia.
  - intros Ho (s1 & H1 & ->) Hg. simpl. eauto.
  - now intros _ (_ & ->).
  - now intros _ (_ & ->).
Qed.

End GroupChars.

Section Search.
Import Py Re.

Lemma search_has_grp (ic : bool) (r : re) (text : string) (g : option string) :
  has_grp r = true -> search ic r text = Some g -> g <> None.
Proof.
  unfold search. intros Hg.
  destruct (search_from ic r None 0 text) as [m|] eqn:E; try discriminate.
  intros [= <-]. apply search_from_sound in E as (n & pv & s' & H & ->).
  eapply Matches_has_grp; eassumption.
Qed.

Lemma search_substring (ic : bool) (r : re) (text g : string) :
  search ic r text = Some (Some g) -> substring_of g text.
Proof.
  unfold search.
  destruct (search_from ic r None 0 text) as [m|] eqn:E; try discriminate.
  intros [= Hm]. apply search_from_sound in E as (n & pv & s' & H & ->).
  eapply Matches_grp_substring; try eassumption; simpl; eauto.
  discriminate.
Qed.

Lemma search_grp_only (p : ascii -> bool) (r : re) (text g : string) :
  grp_only p r = true -> search false r text = Some (Some g) ->
  sall p g = true.
Proof.
  unfold search. intros Ho.
  destruct (search_from false r None 0 text) as [m|] eqn:E; try discriminate.
  intros [= Hm]. apply search_from_sound in E as (n & pv & s' & H & ->).
  eapply Matches_grp_only; try eassumption; simpl. discriminate.
Qed.

End Search.

(** ** The pattern loops *)

Section Loops.
Import Py Re Extractor.

(** The name loop never raises and its effect is at most one
    assignment to ['Name'], of a value the blacklist lets through. *)
Lemma name_loop_runs (text : string) (ps : list re) :
  forallb has_grp ps = true ->
  exists o,
    (forall d, name_loop ps text d = (Val tt, assigned set_Name o d)) /\
    (forall v, o = Some v -> blacklisted v = false).
Proof.
  induction ps as [|p ps IH]; simpl; intros Hg.
  - exists None. split; [reflexivity|discriminate].
  - apply andb_true_iff in Hg as [Hp Hps].
    destruct (IH Hps) as (o & Ho & Hb).
    destruct (search false p text) as [g|] eqn:E; [|eauto].
    destruct g as [g|]; [|exfalso; exact (search_has_grp _ _ _ _ Hp E eq_refl)].
    unfold bind, lift, store; simpl.
    destruct (blacklisted (strip g)) eqn:B; [eauto|].
    destruct (valid_name (strip g)).
    { exists (Some (strip g)). split; [reflexivity|now intros v [= <-]]. }
    destruct (potential_name (strip g)); [|eauto].
    destruct o as [v|].
    + exists (Some v). split; [|exact Hb]. intros d. now rewrite Ho.
    + exists (Some (strip g)). split; [|now intros v [= <-]].
      intros d. now rewrite Ho.
Qed.

Lemma dob_loop_runs (text : string) (ps : list re) :
  forallb has_grp ps = true ->
  exists o,
    forall d, dob_loop ps text d = (Val tt, assigned set_Date_of_birth o d).
Proof.
  induction ps as [|p ps IH]; simpl; intros Hg.
  - now exists None.
  - apply andb_true_iff in Hg as [Hp Hps]. destruct (IH Hps) as (o & Ho).
    destruct (search true p text) as [g|] eqn:E; [|eauto].
    destruct g as [g|]; [|exfalso; exact (search_has_grp _ _ _ _ Hp E eq_refl)].
    unfold bind, lift, store; simpl. now exists (Some (strip g)).
Qed.

Lemma strip_sep_digits (g : string) :
  sall digit_or_sep g = true -> sall is_digit (strip_sep g) = true.
Proof.
  apply sall_sfilter_both. intros c.
  unfold digit_or_sep, in_cls, cls_has, dig_sp_dash, sp_dash.
  cbn [existsb item_has andb]. rewrite !orb_false_r.
  destruct (is_digit c), (is_space c), (Ascii.eqb "-" c); cbn; trivial;
    intros; discriminate.
Qed.

(** The ID loop never raises and its effect is at most one assignment
    to ['ID Number'], of digits. *)
Lemma id_loop_runs (text : string) (ps : list re) :
  forallb has_grp ps = true ->
  forallb (grp_only digit_or_sep) ps = true ->
  exists o,
    (forall d, id_loop ps text d = (Val tt, assigned set_ID_Number o d)) /\
    (forall v, o = Some v -> sall is_digit v = true).
Proof.
  induction ps as [|p ps IH]; simpl; intros Hg Hd.
  - exists None. split; [reflexivity|discriminate].
  - apply andb_true_iff in Hg as [Hp Hps].
    apply andb_true_iff in Hd as [Dp Dps].
    destruct (IH Hps Dps) as (o & Ho & Hv).
    destruct (search false p text) as [g|] eqn:E; [|eauto].
    destruct g as [g|]; [|exfalso; exact (search_has_grp _ _ _ _ Hp E eq_refl)].
    pose proof (strip_sep_digits _ (search_grp_only _ _ _ _ Dp E)) as Dg.
    unfold bind, lift, store; simpl.
    destruct (canonical (strip_sep g)).
    { exists (Some (strip_sep g)). split; [reflexivity|now intros v [= <-]]. }
    destruct o as [v|].
    + exists (Some v). split; [|exact Hv]. intros d. now rewrite Ho.
    + exists (Some (strip_sep g)). split; [|now intros v [= <-]].
      intros d. now rewrite Ho.
Qed.

(** The ID loop stops at the first canonical value. *)
Lemma id_loop_canonical (text : string) (pre : list re) :
  forall p post g,
    forallb has_grp pre = true ->
    (forall q g', In q pre -> search false q text = Some (Some g') ->
                  canonical (strip_sep g') = false) ->
    search false p text = Some (Some g) ->
    canonical (strip_sep g) = true ->
    forall d, id_loop (pre ++ p :: post) text d
              = (Val tt, set_ID_Number (strip_sep g) d).
Proof.
  induction pre as [|q pre IH]; intros p post g Hg Hpre Hp Hc d; simpl.
  - rewrite Hp. unfold bind, lift, store; simpl. now rewrite Hc.
  - simpl in Hg. apply andb_true_iff in Hg as [Gq Gpre].
    assert (Hpre' : forall q' g', In q' pre ->
              search false q' text = Some (Some g') ->
              canonical (strip_sep g') = false)
      by (intros; eapply Hpre; [right|]; eassumption).
    destruct (search false q text) as [[g'|]|] eqn:E.
    + unfold bind, lift, store; simpl.
      rewrite (Hpre q g' (or_introl eq_refl) E).
      now rewrite (IH p post g Gpre Hpre' Hp Hc).
    + exfalso. exact (search_has_grp _ _ _ _ Gq E eq_refl).
    + now apply IH.
Qed.

Lemma id_loop_none (text : string) (ps : list re) :
  (forall q, In q ps -> search false q text = None) ->
  forall d, id_loop ps text d = (Val tt, d).
Proof.
  induction ps as [|q ps IH]; intros H d; simpl; trivial.
  rewrite (H q (or_introl eq_refl)). apply IH. intros; apply H. now right.
Qed.

(** Without a canonical value, the last value found stays. *)
Lemma id_loop_last (text : string) (pre : list re) :
  forall p post g,
    forallb has_grp pre = true ->
    (forall q g', In q (pre ++ [p]) -> search false q text = Some (Some g') ->
                  canonical (strip_sep g') = false) ->
    search false p text = Some (Some g) ->
    (forall q, In q post -> search false q text = None) ->
    forall d, id_loop (pre ++ p :: post) text d
              = (Val tt, set_ID_Number (strip_sep g) d).
Proof.
  induction pre as [|q pre IH]; intros p post g Hg Hnc Hp Hpost d; simpl.
  - rewrite Hp. unfold bind, lift, store; simpl.
    rewrite (Hnc p g (or_introl eq_refl) Hp).
    now rewrite (id_loop_none text post Hpost).
  - simpl in Hg. apply andb_true_iff in Hg as [Gq Gpre].
    assert (Hnc' : forall q' g', In q' (pre ++ [p]) ->
              search false q' text = Some (Some g') ->
              canonical (strip_sep g') = false)
      by (intros; eapply Hnc; [right|]; eassumption).
    destruct (search false q text) as [[g'|]|] eqn:E.
    + unfold bind, lift, store; simpl.
      rewrite (Hnc q g' (or_introl eq_refl) E).
      now rewrite (IH p post g Gpre Hnc' Hp Hpost).
    + exfalso. exact (search_has_grp _ _ _ _ Gq E eq_refl).
    + now apply IH.
Qed.

(** The date loop stops at the first pattern that matches. *)
Lemma dob_loop_first (text : string) (pre : list re) :
  forall p post g,
    (forall q, In q pre -> search true q text = None) ->
    search true p text = Some (Some g) ->
    forall d, dob_loop (pre ++ p :: post) text d
              = (Val tt, set_Date_of_birth (strip g) d).
Proof.
  induction pre as [|q pre IH]; intros p post g Hpre Hp d; simpl.
  - now rewrite Hp.
  - rewrite (Hpre q (or_introl eq_refl)). apply IH; trivial.
    intros; apply Hpre. now right.
Qed.

Lemma dob_loop_none (text : string) (ps : list re) :
  (forall q, In q ps -> search true q text = None) ->
  forall d, dob_loop ps text d = (Val tt, d).
Proof.
  induction ps as [|q ps IH]; intros H d; simpl; trivial.
  rewrite (H q (or_introl eq_refl)). apply IH. intros; apply H. now right.
Qed.

(** The name loop stops at the first candidate that passes the
    blacklist and the first test, whatever was stored before. *)
Lemma name_loop_valid (text : string) (pre : list re) :
  forall p post g,
    forallb has_grp pre = true ->
    (forall q g', In q pre -> search false q text = Some (Some g') ->
                  blacklisted (strip g') = true \/ valid_name (strip g') = false) ->
    search false p text = Some (Some g) ->
    blacklisted (strip g) = false ->
    valid_name (strip g) = true ->
    forall d, name_loop (pre ++ p :: post) text d
              = (Val tt, set_Name (strip g) d).
Proof.
  induction pre as [|q pre IH]; intros p post g Hg Hpre Hp Hb Hv d; simpl.
  - rewrite Hp. unfold bind, lift, store; simpl. now rewrite Hb, Hv.
  - simpl in Hg. apply andb_true_iff in Hg as [Gq Gpre].
    assert (Hpre' : forall q' g', In q' pre ->
              search false q' text = Some (Some g') ->
              blacklisted (strip g') = true \/ valid_name (strip g') = false)
      by (intros; eapply Hpre; [right|]; eassumption).
    destruct (search false q text) as [[g'|]|] eqn:E.
    + unfold bind, lift, store; simpl.
      destruct (blacklisted (strip g')) eqn:B; [now apply IH|].
      destruct (Hpre q g' (or_introl eq_refl) E) as [C|C]; [congruence|].
      rewrite C. destruct (potential_name (strip g')); [|now apply IH].
      now rewrite (IH p post g Gpre Hpre' Hp Hb Hv).
    + exfalso. exact (search_has_grp _ _ _ _ Gq E eq_refl).
    + now apply IH.
Qed.

(** Candidates that fail the blacklist or both tests leave the
    dictionary alone. *)
Lemma name_loop_rejects (text : string) (ps : list re) :
  forallb has_grp ps = true ->
  (forall q g', In q ps -> search false q text = Some (Some g') ->
                blacklisted (strip g') = true \/
                (valid_name (strip g') = false /\
                 potential_name (strip g') = false)) ->
  forall d, name_loop ps text d = (Val tt, d).
Proof.
  induction ps as [|q ps IH]; intros Hg H d; simpl; trivial.
  simpl in Hg. apply andb_true_iff in Hg as [Gq Gps].
  assert (H' : forall q' g', In q' ps ->
            search false q' text = Some (Some g') ->
            blacklisted (strip g') = true \/
            (valid_name (strip g') = false /\ potential_name (strip g') = false))
    by (intros; eapply H; [right|]; eassumption).
  destruct (search false q text) as [[g'|]|] eqn:E.
  - unfold bind, lift, store; simpl.
    destruct (H q g' (or_introl eq_refl) E) as [B|[V P]].
    + rewrite B. now apply IH.
    + destruct (blacklisted (strip g')); [now apply IH|].
      rewrite V, P. now apply IH.
  - exfalso. exact (search_has_grp _ _ _ _ Gq E eq_refl).
  - now apply IH.
Qed.

(** Without a candidate that passes the first test, the last
    candidate that passes the second one stays. *)
Lemma name_loop_tentative (text : string) (pre : list re) :
  forall p post g,
    forallb has_grp pre = true ->
    forallb has_grp post = true ->
    (forall q g', In q pre -> search false q text = Some (Some g') ->
                  blacklisted (strip g') = true \/ valid_name (strip g') = false) ->
    search false p text = Some (Some g) ->
    blacklisted (strip g) = false ->
    valid_name (strip g) = false ->
    potential_name (strip g) = true ->
    (forall q g', In q post -> search false q text = Some (Some g') ->
                  blacklisted (strip g') = true \/
                  (valid_name (strip g') = false /\
                   potential_name (strip g') = false)) ->
    forall d, name_loop (pre ++ p :: post) text d
              = (Val tt, set_Name (strip g) d).
Proof.
  induction pre as [|q pre IH];
    intros p post g Hg Hgp Hpre Hp Hb Hv Ht Hpost d; simpl.
  - rewrite Hp. unfold bind, lift, store; simpl. rewrite Hb, Hv, Ht.
    now rewrite (name_loop_rejects text post Hgp Hpost).
  - simpl in Hg. apply andb_true_iff in Hg as [Gq Gpre].
    assert (Hpre' : forall q' g', In q' pre ->
              search false q' text = Some (Some g') ->
              blacklisted (strip g') = true \/ valid_name (strip g') = false)
      by (intros; eapply Hpre; [right|]; eassumption).
    destruct (search false q text) as [[g'|]|] eqn:E.
    + unfold bind, lift, store; simpl.
      destruct (blacklisted (strip g')) eqn:B; [now apply IH|].
      destruct (Hpre q g' (or_introl eq_refl) E) as [C|C]; [congruence|].
      rewrite C. destruct (potential_name (strip g')); [|now apply IH].
      now rewrite (IH p post g Gpre Hgp Hpre' Hp Hb Hv Ht Hpost).
    + exfalso. exact (search_has_grp _ _ _ _ Gq E eq_refl).
    + now apply IH.
Qed.

(** [re.search(r'\d', s)] finds a digit when there is one. *)
Lemma search_digit (s : string) :
  match search false (RSet dg) s with
  | Some _ => sany is_digit s = true
  | None => sany is_digit s = false
  end.
Proof.
  unfold search.
  assert (H : forall pv i,
            match search_from false (RSet dg) pv i s with
            | Some _ => sany is_digit s = true
            | None => sany is_digit s = false
            end).
  { induction s as [|c s IH]; intros pv i; simpl; trivial.
    unfold in_cls, dg, cls_has. cbn [existsb item_has andb].
    rewrite !orb_false_r.
    destruct (is_digit c); simpl; trivial. apply IH. }
  specialize (H None 0).
  now destruct (search_from false (RSet dg) None 0 s).
Qed.

Lemma potential_name_spec (c : string) :
  potential_name c = (5 <? String.length c) && negb (sany is_digit c).
Proof.
  unfold potential_name. pose proof (search_digit c) as H.
  destruct (search false (RSet dg) c); now rewrite H.
Qed.

Lemma forallb_app_r (A : Type) (f : A -> bool) (l l' : list A) :
  forallb f (l ++ l') = true -> forallb f l' = true.
Proof. rewrite forallb_app. now intros [_ H]%andb_true_iff. Qed.

Lemma forallb_app_l (A : Type) (f : A -> bool) (l l' : list A) :
  forallb f (l ++ l') = true -> forallb f l = true.
Proof. rewrite forallb_app. now intros [H _]%andb_true_iff. Qed.

(** The syntax trees are those of the patterns of the source. *)
Lemma patterns_as_in_source :
  map compile name_patterns_source = map Some name_patterns /\
  map compile dob_patterns_source = map Some dob_patterns /\
  map compile id_patterns_source = map Some id_patterns.
Proof.
  split; [|split]; vm_compute; reflexivity.
Qed.

Lemma name_patterns_grp : forallb has_grp name_patterns = true.
Proof. reflexivity. Qed.

Lemma dob_patterns_grp : forallb has_grp dob_patterns = true.
Proof. reflexivity. Qed.

Lemma id_patterns_grp : forallb has_grp id_patterns = true.
Proof. reflexivity. Qed.

Lemma id_patterns_digits : forallb (grp_only digit_or_sep) id_patterns = true.
Proof. vm_compute. reflexivity. Qed.

(** The rule pipelines run to their end on every text, each loop
    leaving the other keys alone. *)
Lemma extract_fields_runs (text : string) :
  exists n b i,
    (forall d, name_loop name_patterns text d = (Val tt, assigned set_Name n d)) /\
    (forall d, dob_loop dob_patterns text d
               = (Val tt, assigned set_Date_of_birth b d)) /\
    (forall d, id_loop id_patterns text d
               = (Val tt, assigned set_ID_Number i d)) /\
    (forall d, extract_fields text d
               = (Val tt, assigned set_ID_Number i
                            (assigned set_Date_of_birth b
                               (assigned set_Name n
                                  (set_Full_extracted_text (strip text) d))))) /\
    (forall v, n = Some v -> blacklisted v = false) /\
    (forall v, i = Some v -> sall is_digit v = true).
Proof.
  destruct (name_loop_runs text _ name_patterns_grp) as (n & Hn & Bn).
  destruct (dob_loop_runs text _ dob_patterns_grp) as (b & Hb).
  destruct (id_loop_runs text _ id_patterns_grp id_patterns_digits)
    as (i & Hi & Di).
  exists n, b, i. repeat split; trivial.
  intros d. unfold extract_fields, bind, store. now rewrite Hn, Hb, Hi.
Qed.

End Loops.

(** ** [extract_nid_fields] *)

Section Extraction.
Import Py Re Extractor.

Ltac stored_error := intros _; eexists; reflexivity.

Lemma extract_reads (w : world) (img : image) (text : string) :
  reads w img text ->
  extract_nid_fields w img = snd (extract_fields text nid_init).
Proof.
  intros (Hs & Hr & results & Ht & Hne & Hf).
  destruct (extract_fields_runs text) as (n & b & i & _ & _ & _ & He & _).
  assert (T : try_body w img nid_init = extract_fields text nid_init).
  { unfold try_body. rewrite Hr, Ht. destruct results as [|r rs]; [easy|].
    unfold extract_from_results, bind, lift.
    unfold flat_text in Hf. now rewrite Hf. }
  unfold extract_nid_fields.
  replace (match img with
           | ImgPath path =>
               if path_exists w path then None else Some "Image file not found"
           | ImgArray => None
           | ImgOther => Some "Unsupported image format"
           end) with (@None string).
  - rewrite T, He. reflexivity.
  - destruct img; simpl in Hs; try discriminate; trivial. now rewrite Hs.
Qed.

Lemma extract_fails (w : world) (img : image) :
  fails w img = true ->
  exists msg, extract_nid_fields w img = NidData "" "" "" "" (Some msg).
Proof.
  unfold fails, extract_nid_fields, try_body, supported.
  unfold extract_from_results, flat_text, bind, lift.
  destruct img as [path| |]; simpl.
  - destruct (path_exists w path); simpl; [|stored_error].
    destruct (get_reader w); [|stored_error].
    destruct (readtext w (ImgPath path)) as [[|r rs]|msg]; try stored_error.
    destruct (py_join " " (collect_blocks (r :: rs)));
      [discriminate|stored_error].
  - destruct (get_reader w); [|stored_error].
    destruct (readtext w ImgArray) as [[|r rs]|msg]; try stored_error.
    destruct (py_join " " (collect_blocks (r :: rs)));
      [discriminate|stored_error].
  - stored_error.
Qed.

Lemma not_fails_reads (w : world) (img : image) :
  fails w img = false -> exists text, reads w img text.
Proof.
  unfold fails, reads. intros H. apply orb_false_iff in H as [Hs H].
  apply negb_false_iff in Hs.
  destruct (get_reader w) as [[]|]; try discriminate.
  destruct (readtext w img) as [[|r rs]|]; try discriminate.
  destruct (flat_text (r :: rs)) as [text|] eqn:E; try discriminate.
  exists text. repeat split; trivial. exists (r :: rs). now repeat split.
Qed.

Lemma extract_fields_error (text : string) :
  error (snd (extract_fields text nid_init)) = None.
Proof.
  destruct (extract_fields_runs text) as (n & b & i & _ & _ & _ & He & _).
  rewrite He. now destruct n, b, i.
Qed.

(** What the rule pipelines leave, key by key. *)
Lemma extract_fields_result (text : string) :
  exists n b i,
    (forall d, name_loop name_patterns text d = (Val tt, assigned set_Name n d)) /\
    (forall d, dob_loop dob_patterns text d
               = (Val tt, assigned set_Date_of_birth b d)) /\
    (forall d, id_loop id_patterns text d
               = (Val tt, assigned set_ID_Number i d)) /\
    snd (extract_fields text nid_init)
    = NidData (value_of n) (value_of b) (value_of i) (strip text) None.
Proof.
  destruct (extract_fields_runs text) as (n & b & i & Hn & Hb & Hi & He & _).
  exists n, b, i. repeat split; trivial. rewrite He. now destruct n, b, i.
Qed.

Lemma assigned_ID_value (o : option string) (v : string) :
  assigned set_ID_Number o nid_init = set_ID_Number v nid_init ->
  value_of o = v.
Proof. destruct o; simpl; now intros [= ->]. Qed.

Lemma assigned_dob_value (o : option string) (v : string) :
  assigned set_Date_of_birth o nid_init = set_Date_of_birth v nid_init ->
  value_of o = v.
Proof. destruct o; simpl; now intros [= ->]. Qed.

Lemma assigned_name_value (o : option string) (v : string) :
  assigned set_Name o nid_init = set_Name v nid_init ->
  value_of o = v.
Proof. destruct o; simpl; now intros [= ->]. Qed.

(** The two ways [extract_nid_fields] ends. *)
Lemma extract_cases (w : world) (img : image) :
  (fails w img = true /\
   exists msg, extract_nid_fields w img = NidData "" "" "" "" (Some msg)) \/
  (fails w img = false /\
   exists text,
     reads w img text /\
     extract_nid_fields w img = snd (extract_fields text nid_init)).
Proof.
  destruct (fails w img) eqn:F.
  - left. split; trivial. now apply extract_fails.
  - right. split; trivial. destruct (not_fails_reads _ _ F) as [text R].
    exists text. split; trivial. now apply extract_reads.
Qed.

(** ** The claims about extraction *)

(** C1.  [extract_nid_fields] is a total function of its input and of
    what the file system, the reader and the recognizer answer: every
    exception of its body ends in the result.  The result is in one of
    two states.  Either some step before the rule pipelines failed, and
    then ['error'] is set and the four other keys hold the empty
    string; or the recognizer was run and gave a flat text, and then
    the result is what the rule pipelines leave, without ['error'].
    Hence a result with ['error'] set has empty ['Name'],
    ['Date of birth'] and ['ID Number']. *)
Theorem extract_error_or_fields (w : world) (img : image) :
  let r := extract_nid_fields w img in
  ((fails w img = true /\
    exists msg, r = NidData "" "" "" "" (Some msg)) \/
   (fails w img = false /\ error r = None /\
    exists text, reads w img text /\ r = snd (extract_fields text nid_init)))
  /\
  (error r <> None ->
   Name r = "" /\ Date_of_birth r = "" /\ ID_Number r = "" /\
   Full_extracted_text r = "").
Proof.
  cbv zeta.
  destruct (extract_cases w img) as [(F & msg & E)|(F & text & R & E)];
    rewrite E.
  - split; [left; eauto|]. simpl. auto.
  - split.
    + right. repeat split; eauto using extract_fields_error.
    + intros H. now rewrite extract_fields_error in H.
Qed.

Lemma extract_error_or_fields_witness :
  let r := extract_nid_fields (world_of [PList [PNone; PInt 7]]) (ImgPath "card.jpg") in
  error r <> None /\
  Name r = "" /\ Date_of_birth r = "" /\ ID_Number r = "" /\
  Full_extracted_text r = "".
Proof.
  intros r.
  assert (E : error r <> None) by (vm_compute; intros H; discriminate H).
  split; [exact E|].
  exact (proj2 (extract_error_or_fields
                  (world_of [PList [PNone; PInt 7]]) (ImgPath "card.jpg")) E).
Defined.

(** C2.  When the recognizer returns no entry, the result holds the
    error ["No text detected in the image"] and the empty string under
    ['Name'], ['Date of birth'], ['ID Number'] and
    ['Full extracted text']. *)
Theorem no_text_detected (w : world) (img : image) :
  supported w img = true ->
  get_reader w = Val tt ->
  readtext w img = Val [] ->
  extract_nid_fields w img
  = NidData "" "" "" "" (Some "No text detected in the image").
Proof.
  intros Hs Hr Ht. unfold extract_nid_fields, try_body.
  rewrite Hr, Ht.
  destruct img; simpl in Hs; try discriminate; trivial. now rewrite Hs.
Qed.

Lemma no_text_detected_witness :
  extract_nid_fields (world_of []) ImgArray
  = NidData "" "" "" "" (Some "No text detected in the image").
Proof.
  apply (no_text_detected (world_of []) ImgArray); reflexivity.
Defined.

(** C4.  A candidate that contains a blacklisted phrase, case being
    ignored, is never the ['Name'] of a result. *)
Theorem blacklisted_never_name (w : world) (img : image)
    (phrase candidate : string) :
  In phrase name_blacklist ->
  contains (lower phrase) (lower candidate) = true ->
  Name (extract_nid_fields w img) <> candidate.
Proof.
  intros Hin Hc Hn.
  assert (B : blacklisted candidate = true).
  { unfold blacklisted. apply existsb_exists. eauto. }
  destruct (extract_cases w img) as [(_ & msg & E)|(_ & text & _ & E)];
    rewrite E in Hn.
  - simpl in Hn. subst candidate. discriminate.
  - destruct (extract_fields_runs text) as (n & b & i & _ & _ & _ & He & Bn & _).
    rewrite He in Hn. destruct n as [v|].
    + assert (v = candidate) as -> by now destruct b, i.
      rewrite (Bn _ eq_refl) in B. discriminate.
    + assert (candidate = "") as -> by now destruct b, i.
      discriminate.
Qed.

Lemma blacklisted_never_name_witness :
  In "NATIONAL" name_blacklist /\
  contains (lower "NATIONAL") (lower "Abdul Karim National") = true /\
  Name (extract_nid_fields
          (world_of (one_block "Md. Abdul Karim National ID Card Bangladesh"))
          ImgArray)
  <> "Abdul Karim National".
Proof.
  assert (I : In "NATIONAL" name_blacklist) by (simpl; tauto).
  assert (C : contains (lower "NATIONAL") (lower "Abdul Karim National") = true)
    by (vm_compute; reflexivity).
  repeat split; trivial.
  exact (blacklisted_never_name
           (world_of (one_block "Md. Abdul Karim National ID Card Bangladesh"))
           ImgArray "NATIONAL" "Abdul Karim National" I C).
Defined.

Lemma sfilter_within (r p q : ascii -> bool) (s : string) :
  (forall c, r c = true -> p c = q c) ->
  sall r s = true -> sfilter p s = sfilter q s.
Proof.
  intros H. induction s as [|c t IH]; [reflexivity|].
  simpl. intros A. apply andb_true_iff in A as [A1 A2].
  now rewrite (H c A1), (IH A2).
Qed.

Lemma sall_true (s : string) : sall (fun _ => true) s = true.
Proof. induction s as [|c t IH]; [reflexivity|exact IH]. Qed.

(** The code strips what the specification calls separators. *)
Lemma strip_sep_stated (g : string) :
  strip_sep g = Stated.without_separators g.
Proof.
  unfold strip_sep, Stated.without_separators.
  apply (sfilter_within (fun _ => true)); [|apply sall_true].
  intros c _.
  assert (A : forallb (fun c => Bool.eqb (negb (in_cls false sp_dash c))
                                          (negb (Stated.separator c)))
                all_ascii = true) by (vm_compute; reflexivity).
  rewrite forallb_forall in A. specialize (A c (in_all_ascii c)).
  now apply Bool.eqb_prop in A.
Qed.

(** Where there are digits and separators only, stripping the
    separators keeps the digits. *)
Lemma without_separators_digits (g : string) :
  sall digit_or_sep g = true ->
  Stated.without_separators g = Stated.digits_of g.
Proof.
  unfold Stated.without_separators, Stated.digits_of.
  apply sfilter_within. intros c H.
  assert (A : forallb (fun c => implb (digit_or_sep c)
                                  (Bool.eqb (negb (Stated.separator c))
                                            (is_digit c)))
                all_ascii = true) by (vm_compute; reflexivity).
  rewrite forallb_forall in A. specialize (A c (in_all_ascii c)).
  rewrite H in A. now apply Bool.eqb_prop in A.
Qed.

Lemma canonical_stated (v : string) :
  canonical v = true <-> Stated.canonical_length v.
Proof.
  unfold canonical, Stated.canonical_length. cbn [existsb].
  rewrite orb_false_r, !orb_true_iff, !Nat.eqb_eq. tauto.
Qed.

Lemma not_canonical_stated (v : string) :
  ~ Stated.canonical_length v -> canonical v = false.
Proof.
  intros N. destruct (canonical v) eqn:E; [|reflexivity].
  elim N. now apply canonical_stated.
Qed.

(** C5.  Each ID pattern is searched in the flat text in order.  What
    a pattern captures consists of digits and separators (white space
    and hyphens), so that stripping the separators leaves its digits.
    The first stripped value with exactly 10, 13 or 17 digits is the
    ['ID Number'] and ends the scan; when no pattern yields such a
    value, the ['ID Number'] is the stripped value of the last pattern
    that matched; when no pattern matches it stays empty.  Four texts
    show the stripping, a value of 13 digits replacing an earlier one
    of 8, and a first value of 16 digits being replaced where one of 17
    is kept. *)
Theorem id_scan_policy (w : world) (img : image) (text : string) :
  reads w img text ->
  let id := ID_Number (extract_nid_fields w img) in
  (forall p g,
      In p id_patterns -> search false p text = Some (Some g) ->
      Stated.without_separators g = Stated.digits_of g) /\
  (forall pre p post g,
      id_patterns = (pre ++ p :: post)%list ->
      (forall q g', In q pre -> search false q text = Some (Some g') ->
                    ~ Stated.canonical_length (Stated.without_separators g')) ->
      search false p text = Some (Some g) ->
      Stated.canonical_length (Stated.without_separators g) ->
      id = Stated.without_separators g) /\
  (forall pre p post g,
      id_patterns = (pre ++ p :: post)%list ->
      (forall q g', In q id_patterns -> search false q text = Some (Some g') ->
                    ~ Stated.canonical_length (Stated.without_separators g')) ->
      search false p text = Some (Some g) ->
      (forall q, In q post -> search false q text = None) ->
      id = Stated.without_separators g) /\
  ((forall q, In q id_patterns -> search false q text = None) -> id = "") /\
  (text = "ID NO: 123-456 7890" -> id = "1234567890") /\
  (text = "ID NO: 12345678 x 1234567890123" -> id = "1234567890123") /\
  (text = "ID NO: 12345678-12345678 No: 999" -> id = "999") /\
  (text = "ID NO: 123456789-12345678 No: 999" -> id = "12345678912345678").
Proof.
  intros R. cbv zeta. rewrite (extract_reads _ _ _ R).
  split; [|split; [|split; [|split]]].
  - intros p g Hin Hs. apply without_separators_digits.
    pose proof id_patterns_digits as D. rewrite forallb_forall in D.
    exact (search_grp_only _ _ _ _ (D p Hin) Hs).
  - destruct (extract_fields_result text) as (n & b & i & _ & _ & Hi & ->).
    cbn [ID_Number]. pose proof id_patterns_grp as G.
    intros pre p post g Hps Hpre Hp Hc. rewrite Hps in G.
    rewrite <- strip_sep_stated.
    assert (Hpre' : forall q g', In q pre ->
              search false q text = Some (Some g') ->
              canonical (strip_sep g') = false).
    { intros q g' Hq Hs. apply not_canonical_stated.
      rewrite strip_sep_stated. exact (Hpre q g' Hq Hs). }
    assert (Hc' : canonical (strip_sep g) = true).
    { apply canonical_stated. now rewrite strip_sep_stated. }
    pose proof (id_loop_canonical text pre p post g
                  (forallb_app_l _ _ _ _ G) Hpre' Hp Hc' nid_init) as L.
    rewrite <- Hps, Hi in L. injection L as L. now apply assigned_ID_value.
  - destruct (extract_fields_result text) as (n & b & i & _ & _ & Hi & ->).
    cbn [ID_Number]. pose proof id_patterns_grp as G.
    intros pre p post g Hps Hnc Hp Hpost.
    rewrite <- strip_sep_stated.
    assert (Hnc' : forall q g', In q (pre ++ [p]) ->
              search false q text = Some (Some g') ->
              canonical (strip_sep g') = false).
    { intros q g' Hq Hs. apply not_canonical_stated.
      rewrite strip_sep_stated. apply (Hnc q g'); trivial. rewrite Hps.
      apply in_app_or in Hq as [Hq|[->|[]]]; apply in_or_app; simpl; auto. }
    rewrite Hps in G.
    pose proof (id_loop_last text pre p post g
                  (forallb_app_l _ _ _ _ G) Hnc' Hp Hpost nid_init) as L.
    rewrite <- Hps, Hi in L. injection L as L. now apply assigned_ID_value.
  - destruct (extract_fields_result text) as (n & b & i & _ & _ & Hi & ->).
    cbn [ID_Number].
    intros Hnone. pose proof (id_loop_none text id_patterns Hnone nid_init) as L.
    rewrite Hi in L. injection L as L.
    destruct i as [v|]; cbn in L |- *; [now injection L|reflexivity].
  - split; [|split; [|split]]; intros ->; vm_compute; reflexivity.
Qed.

Lemma id_scan_policy_witness :
  let text := "NID No: 12345678 9876543210" in
  reads (world_of (one_block text)) ImgArray text /\
  ID_Number (extract_nid_fields (world_of (one_block text)) ImgArray)
  = "9876543210".
Proof.
  intros text.
  assert (R : reads (world_of (one_block text)) ImgArray text).
  { repeat split. exists (one_block text). repeat split. discriminate. }
  split; [exact R|].
  refine (proj1 (proj2 (id_scan_policy _ _ _ R))
            (firstn 3 id_patterns) (nth 3 id_patterns REnd)
            (skipn 4 id_patterns) "9876543210" eq_refl _ _ _).
  - intros q g' Hq H. simpl in Hq.
    destruct Hq as [<-|[<-|[<-|[]]]]; vm_compute in H;
      try discriminate.
    injection H as <-. vm_compute. intros [N|[N|N]]; discriminate N.
  - vm_compute. reflexivity.
  - vm_compute. auto.
Defined.

(** C6.  The date patterns are searched in the flat text in order,
    with [re.IGNORECASE].  The ['Date of birth'] is what the first
    pattern that matches captured, trimmed; it is a piece of the flat
    text as it stands, and nothing checks it against the calendar: a
    day 35 is returned like any other.  When no pattern matches the
    key stays empty. *)
Theorem dob_first_match (w : world) (img : image) (text : string) :
  reads w img text ->
  let dob := Date_of_birth (extract_nid_fields w img) in
  List.length dob_patterns = 4 /\
  (forall pre p post g,
      dob_patterns = (pre ++ p :: post)%list ->
      (forall q, In q pre -> search true q text = None) ->
      search true p text = Some (Some g) ->
      dob = strip g /\ substring_of g text) /\
  ((forall q, In q dob_patterns -> search true q text = None) -> dob = "") /\
  (text = "Birth: 35-Jan-2020" -> dob = "35-Jan-2020") /\
  (text = "dob 31 FEB 99" -> dob = "31 FEB 99").
Proof.
  intros R. cbv zeta. rewrite (extract_reads _ _ _ R). split; [reflexivity|].
  split; [|split; [|split]].
  - destruct (extract_fields_result text) as (n & b & i & _ & Hb & _ & ->).
    cbn [Date_of_birth]. intros pre p post g Hps Hpre Hp. split.
    + pose proof (dob_loop_first text pre p post g Hpre Hp nid_init) as L.
      rewrite <- Hps, Hb in L. injection L as L. now apply assigned_dob_value.
    + exact (search_substring _ _ _ _ Hp).
  - destruct (extract_fields_result text) as (n & b & i & _ & Hb & _ & ->).
    cbn [Date_of_birth]. intros Hnone.
    pose proof (dob_loop_none text dob_patterns Hnone nid_init) as L.
    rewrite Hb in L. injection L as L.
    destruct b as [v|]; cbn in L |- *; [now injection L|reflexivity].
  - intros ->. vm_compute. reflexivity.
  - intros ->. vm_compute. reflexivity.
Qed.

(** C7.  On the flat text of the labeled scenario the result holds
    the name, the date and the number of the scenario. *)
Theorem labeled_scenario (w : world) (img : image) :
  reads w img
    "Name: JOHN MICHAEL SMITH Date of Birth: 05-Jan-1990 ID NO: 1234567890123" ->
  let r := extract_nid_fields w img in
  Name r = "JOHN MICHAEL SMITH" /\
  Date_of_birth r = "05-Jan-1990" /\
  ID_Number r = "1234567890123" /\
  error r = None.
Proof.
  intros R. cbv zeta. rewrite (extract_reads _ _ _ R). vm_compute. auto.
Qed.

(** C10.  The ['ID Number'] of every result consists of decimal digits
    only (the empty string included): what an ID pattern captures
    consists of digits, whitespace and hyphens, and the value stored is
    the capture without its whitespace and hyphens. *)
Theorem id_number_digits (w : world) (img : image) :
  sall is_digit (ID_Number (extract_nid_fields w img)) = true /\
  (forall p text g,
      In p id_patterns -> search false p text = Some (Some g) ->
      sall digit_or_sep g = true /\
      clean (Some g) = Val (strip_sep g) /\
      sall is_digit (strip_sep g) = true).
Proof.
  split.
  - destruct (extract_cases w img) as [(_ & msg & ->)|(_ & text & _ & ->)];
      trivial.
    destruct (extract_fields_runs text) as (n & b & i & _ & _ & _ & He & _ & Di).
    rewrite He. destruct i as [v|].
    + rewrite <- (Di v eq_refl). now destruct b.
    + now destruct b, n.
  - intros p text g Hin Hs.
    pose proof id_patterns_digits as D. rewrite forallb_forall in D.
    pose proof (search_grp_only _ _ _ _ (D p Hin) Hs) as Dg.
    auto using strip_sep_digits.
Qed.

Lemma id_number_digits_witness :
  let text := "ID NO: 123-456 7890" in
  In (nth 0 id_patterns REnd) id_patterns /\
  search false (nth 0 id_patterns REnd) text = Some (Some "123-456 7890") /\
  sall digit_or_sep "123-456 7890" = true /\
  clean (Some "123-456 7890") = Val (strip_sep "123-456 7890") /\
  sall is_digit (strip_sep "123-456 7890") = true.
Proof.
  intros text.
  assert (I : In (nth 0 id_patterns REnd) id_patterns) by (simpl; tauto).
  assert (S : search false (nth 0 id_patterns REnd) text
              = Some (Some "123-456 7890")) by (vm_compute; reflexivity).
  split; [exact I|]. split; [exact S|].
  exact (proj2 (id_number_digits (world_of []) ImgArray) _ text _ I S).
Defined.

(** A text recognized as one paragraph is read as it is. *)
Lemma reads_one_block (text : string) :
  reads (world_of (one_block text)) ImgArray text.
Proof.
  repeat split. exists (one_block text). repeat split. discriminate.
Qed.

Lemma dob_first_match_witness :
  let text := "DOB: 7 march 2001 Birth 1.2.03" in
  reads (world_of (one_block text)) ImgArray text /\
  Date_of_birth (extract_nid_fields (world_of (one_block text)) ImgArray)
  = "1.2.03".
Proof.
  intros text.
  assert (R : reads (world_of (one_block text)) ImgArray text).
  { repeat split. exists (one_block text). repeat split. discriminate. }
  split; [exact R|].
  refine (proj1 (proj1 (proj2 (dob_first_match _ _ _ R))
            (firstn 1 dob_patterns) (nth 1 dob_patterns REnd)
            (skipn 2 dob_patterns) "1.2.03" eq_refl _ _)).
  - intros q Hq. simpl in Hq. destruct Hq as [<-|[]]. vm_compute. reflexivity.
  - vm_compute. reflexivity.
Defined.

Lemma labeled_scenario_witness :
  let text :=
    "Name: JOHN MICHAEL SMITH Date of Birth: 05-Jan-1990 ID NO: 1234567890123" in
  let r := extract_nid_fields (world_of (one_block text)) ImgArray in
  reads (world_of (one_block text)) ImgArray text /\
  Name r = "JOHN MICHAEL SMITH" /\
  Date_of_birth r = "05-Jan-1990" /\
  ID_Number r = "1234567890123" /\
  error r = None.
Proof.
  intros text r.
  assert (R : reads (world_of (one_block text)) ImgArray text).
  { repeat split. exists (one_block text). repeat split. discriminate. }
  split; [exact R|].
  exact (labeled_scenario _ _ R).
Defined.




End Extraction.

(** ** The sequence matcher *)

Section MatcherRanges.
Import Difflib.

Variables a b : list ascii.

Lemma in_range_wider (alo ahi ahi' blo bhi : nat) (bst : best) :
  ahi <= ahi' -> in_range alo ahi blo bhi bst -> in_range alo ahi' blo bhi bst.
Proof. destruct bst as [[i j] k]. unfold in_range. lia. Qed.

Lemma before_ok (alo blo top : nat) (d : dict) (j : nat) :
  dict_ok alo blo top d -> blo <= j ->
  before d j <= top - alo /\ before d j <= j - blo.
Proof.
  intros Hd Hj. destruct j as [|j']; cbn [before]; [lia|].
  destruct (Hd j') as [H1 H2]. split; trivial.
  destruct (dict_get d j') as [|v] eqn:E; [lia|].
  destruct H2 as [H2 H3]; lia.
Qed.

Lemma dict_ok_cons (alo blo top : nat) (d : dict) (j k : nat) :
  dict_ok alo blo top d -> blo <= j -> 0 < k -> k <= top - alo ->
  k <= j + 1 - blo -> dict_ok alo blo top ((j, k) :: d).
Proof.
  intros Hd Hj Hk H1 H2 j'. simpl.
  destruct (j =? j') eqn:E; [|apply Hd].
  apply Nat.eqb_eq in E as <-. auto.
Qed.

Lemma row_ok (i alo blo bhi : nat) (d : dict) (js : list nat) :
  alo <= i -> dict_ok alo blo i d ->
  forall new bst,
    dict_ok alo blo (S i) new -> in_range alo (S i) blo bhi bst ->
    dict_ok alo blo (S i) (fst (row i blo bhi d js new bst)) /\
    in_range alo (S i) blo bhi (snd (row i blo bhi d js new bst)).
Proof.
  intros Hi Hd. induction js as [|j js IH]; intros new bst Hn Hb; simpl; auto.
  destruct (j <? blo) eqn:E1; [auto|]. apply Nat.ltb_ge in E1.
  destruct (bhi <=? j) eqn:E2; [auto|]. apply Nat.leb_gt in E2.
  destruct bst as [[bi bj] bs].
  destruct (before_ok _ _ _ _ j Hd E1) as [B1 B2].
  apply IH.
  - apply dict_ok_cons; trivial; lia.
  - destruct (bs <? before d j + 1); trivial. unfold in_range. lia.
Qed.

Lemma rows_ok (alo blo bhi : nat) (n : nat) :
  forall i d bst,
    alo <= i -> dict_ok alo blo i d -> in_range alo i blo bhi bst ->
    in_range alo (i + n) blo bhi (rows a b n i blo bhi d bst).
Proof.
  induction n as [|n IH]; intros i d bst Hi Hd Hb; simpl.
  - now rewrite Nat.add_0_r.
  - destruct (row i blo bhi d (b2j b (item a i)) [] bst) as [new bst'] eqn:E.
    assert (Hn : dict_ok alo blo (S i) []) by (intros j; simpl; lia).
    destruct (row_ok i alo blo bhi d (b2j b (item a i)) Hi Hd [] bst Hn
                (in_range_wider _ _ _ _ _ _ (Nat.le_succ_diag_r i) Hb))
      as [D B].
    rewrite E in D, B. simpl in D, B.
    replace (i + S n) with (S i + n) by lia. apply IH; auto.
Qed.

Lemma extend_left_ok (alo ahi blo bhi : nat) (besti : nat) :
  forall bestj bestsize,
    in_range alo ahi blo bhi (besti, bestj, bestsize) ->
    in_range alo ahi blo bhi (extend_left a b alo blo besti bestj bestsize).
Proof.
  induction besti as [|i' IH]; intros bestj bestsize H; simpl; trivial.
  destruct bestj as [|j']; trivial.
  destruct ((alo <? S i') && (blo <? S j') &&
            Ascii.eqb (item a i') (item b j')) eqn:E; trivial.
  apply andb_true_iff in E as [E _]. apply andb_true_iff in E as [E1 E2].
  apply Nat.ltb_lt in E1, E2. apply IH. unfold in_range in *. lia.
Qed.

Lemma extend_right_ok (alo ahi blo bhi besti bestj : nat) (todo : nat) :
  forall bestsize,
    in_range alo ahi blo bhi (besti, bestj, bestsize) ->
    in_range alo ahi blo bhi
      (besti, bestj, extend_right a b todo ahi bhi besti bestj bestsize).
Proof.
  induction todo as [|todo IH]; intros bestsize H; simpl; trivial.
  destruct ((besti + bestsize <? ahi) && (bestj + bestsize <? bhi) &&
            Ascii.eqb (item a (besti + bestsize)) (item b (bestj + bestsize)))
    eqn:E; trivial.
  apply andb_true_iff in E as [E _]. apply andb_true_iff in E as [E1 E2].
  apply Nat.ltb_lt in E1, E2. apply IH. unfold in_range in *. lia.
Qed.

(** The block found lies in the range searched. *)
Lemma find_longest_match_in_range (alo ahi blo bhi : nat) :
  alo <= ahi -> blo <= bhi ->
  in_range alo ahi blo bhi (find_longest_match a b alo ahi blo bhi).
Proof.
  intros Ha Hb. unfold find_longest_match.
  assert (R : in_range alo (alo + (ahi - alo)) blo bhi
                (rows a b (ahi - alo) alo blo bhi [] (alo, blo, 0))).
  { apply rows_ok; trivial.
    - intros j; simpl; lia.
    - unfold in_range; lia. }
  replace (alo + (ahi - alo)) with ahi in R by lia.
  destruct (rows a b (ahi - alo) alo blo bhi [] (alo, blo, 0)) as [[i j] k].
  apply (extend_left_ok alo ahi blo bhi) in R.
  destruct (extend_left a b alo blo i j k) as [[i' j'] k'].
  now apply extend_right_ok.
Qed.

Lemma turns_cons (alo ahi blo bhi : nat) (q : queue) :
  turns ((alo, ahi, blo, bhi) :: q) = 2 * (ahi - alo) + 1 + turns q.
Proof. reflexivity. Qed.

(** The loop of [get_matching_blocks] ends before its fuel does. *)
Lemma blocks_loop_ends (fuel : nat) :
  forall q blocks,
    queue_ok q -> turns q < fuel ->
    exists found, blocks_loop a b fuel q blocks = Some found.
Proof.
  induction fuel as [|fuel IH]; intros q blocks Hq Ht; [lia|].
  destruct q as [|[[[alo ahi] blo] bhi] q]; simpl; [eauto|].
  inversion Hq as [|x l Hab Hq']; subst. cbn in Hab. destruct Hab as [Ha Hb].
  pose proof (find_longest_match_in_range alo ahi blo bhi Ha Hb) as R.
  destruct (find_longest_match a b alo ahi blo bhi) as [[i j] k].
  unfold in_range in R. rewrite turns_cons in Ht.
  destruct (k =? 0) eqn:K; [apply IH; trivial; lia|].
  apply Nat.eqb_neq in K.
  apply IH.
  - assert (Q1 : queue_ok ((alo, i, blo, j) :: q))
      by (constructor; [cbn; lia|trivial]).
    destruct ((i + k <? ahi) && (j + k <? bhi));
      destruct ((alo <? i) && (blo <? j)); trivial;
      constructor; trivial; cbn; lia.
  - destruct ((i + k <? ahi) && (j + k <? bhi));
      destruct ((alo <? i) && (blo <? j));
      rewrite ?turns_cons; lia.
Qed.

(** [matching_blocks] is what the loop finds. *)
Lemma matching_blocks_found :
  blocks_loop a b (S (turns [(0, List.length a, 0, List.length b)]))
    [(0, List.length a, 0, List.length b)] []
  = Some (matching_blocks a b).
Proof.
  unfold matching_blocks.
  destruct (blocks_loop_ends
              (S (turns [(0, List.length a, 0, List.length b)]))
              [(0, List.length a, 0, List.length b)] []) as [found E].
  - repeat constructor; lia.
  - lia.
  - now rewrite E.
Qed.

End MatcherRanges.

(** ** A sequence matched against itself *)

Section SameSequence.
Import Difflib.

Variable l : list ascii.

Lemma indices_ascending (elt : ascii) (t : list ascii) :
  forall s, ascending s (indices elt s t).
Proof.
  induction t as [|x t IH]; intros s; simpl; trivial.
  destruct (Ascii.eqb x elt); simpl.
  - split; [lia|apply IH].
  - assert (M : forall lo lo' js, lo <= lo' -> ascending lo' js -> ascending lo js).
    { intros lo lo' [|j js] Hlo; simpl; trivial. intros [H1 H2]. split; [lia|trivial]. }
    apply (M s (S s)); [lia|apply IH].
Qed.

Lemma ascending_in (lo : nat) (js : list nat) (j : nat) :
  ascending lo js -> In j js -> lo <= j.
Proof.
  revert lo; induction js as [|x js IH]; intros lo; simpl; [tauto|].
  intros [H1 H2] [->|Hin]; trivial. specialize (IH _ H2 Hin). lia.
Qed.

Lemma indices_in (elt : ascii) (t : list ascii) :
  forall s j, In j (indices elt s t) ->
              s <= j < s + List.length t /\ item t (j - s) = elt.
Proof.
  induction t as [|x t IH]; intros s j; simpl; [tauto|].
  assert (Later : In j (indices elt (S s) t) ->
                  s <= j < s + S (List.length t) /\ item (x :: t) (j - s) = elt).
  { intros H. apply IH in H as [H1 H2]. split; [lia|].
    replace (j - s) with (S (j - S s)) by lia. exact H2. }
  destruct (Ascii.eqb x elt) eqn:E; trivial.
  intros [<-|H]; auto. split; [lia|].
  rewrite Nat.sub_diag. now apply Ascii.eqb_eq.
Qed.

Lemma in_indices (elt : ascii) (t : list ascii) :
  forall s i, i < List.length t -> item t i = elt ->
              In (s + i) (indices elt s t).
Proof.
  unfold item. induction t as [|x t IH]; intros s i; simpl; [lia|].
  destruct i as [|i]; simpl.
  - intros _ ->. rewrite Ascii.eqb_refl, Nat.add_0_r. now left.
  - intros Hi He. replace (s + S i) with (S s + i) by lia.
    destruct (Ascii.eqb x elt); [right|]; apply IH; trivial; lia.
Qed.

Lemma b2j_in (elt : ascii) (j : nat) :
  In j (b2j l elt) ->
  popular l elt = false /\ j < List.length l /\ item l j = elt.
Proof.
  unfold b2j. destruct (popular l elt); simpl; [tauto|].
  intros H. apply indices_in in H as [H1 H2]. rewrite Nat.sub_0_r in H2.
  repeat split; trivial; lia.
Qed.

Lemma diag_step (i j : nat) :
  popular l (item l (Nat.min i j)) = false ->
  diag l (Nat.min i j) = diag_before l i j + 1.
Proof.
  intros H. destruct i as [|i], j as [|j]; simpl in *; rewrite ?H; trivial.
Qed.

Lemma diag_popular (i : nat) : popular l (item l i) = true -> diag l i = 0.
Proof. intros H. destruct i; simpl; now rewrite H. Qed.

(** One row of the search of [l] in itself: the best block stays on
    the diagonal. *)
Lemma row_same (i n : nat) (d : dict) (js : list nat) :
  (forall j, before d j <= diag_before l i j) ->
  diag_before l i i <= before d i ->
  forall new bi bs,
    ascending 0 js ->
    (forall j, In j js ->
               popular l (item l i) = false /\ j < n /\ item l j = item l i) ->
    (forall j, dict_get new j <= diag l (Nat.min i j)) ->
    (forall r, r < i -> diag l r <= bs) ->
    (In i js \/ (diag l i <= dict_get new i /\ diag l i <= bs)) ->
    exists new' bi' bs',
      row i 0 n d js new (bi, bi, bs) = (new', (bi', bi', bs')) /\
      (forall j, dict_get new' j <= diag l (Nat.min i j)) /\
      (forall r, r < i -> diag l r <= bs') /\
      diag l i <= dict_get new' i /\ diag l i <= bs'.
Proof.
  intros Hd Hdi. induction js as [|j js IH]; intros new bi bs Ha Hjs N1 N3 N4.
  - simpl. destruct N4 as [[]|[N4 N5]]. exists new, bi, bs. auto.
  - simpl in Ha. destruct Ha as [_ Ha].
    destruct (Hjs j (or_introl eq_refl)) as (Hp & Hj & He).
    assert (Hjs' : forall j', In j' js ->
              popular l (item l i) = false /\ j' < n /\ item l j' = item l i)
      by (intros; apply Hjs; now right).
    assert (Ha' : ascending 0 js).
    { destruct js as [|x js]; simpl in *; trivial. split; [lia|tauto]. }
    assert (Hm : popular l (item l (Nat.min i j)) = false).
    { destruct (Nat.min_spec i j) as [[_ ->]|[_ ->]]; trivial. now rewrite He. }
    pose proof (diag_step i j Hm) as Ds.
    cbn [row]. replace (j <? 0) with false by reflexivity.
    replace (n <=? j) with false by (symmetry; apply Nat.leb_gt; exact Hj).
    set (k := before d j + 1).
    assert (Kle : k <= diag l (Nat.min i j)) by (specialize (Hd j); lia).
    assert (N1' : forall j', dict_get ((j, k) :: new) j' <= diag l (Nat.min i j')).
    { intros j'. simpl. destruct (j =? j') eqn:E; [|apply N1].
      apply Nat.eqb_eq in E as <-. exact Kle. }
    destruct (Nat.eq_dec j i) as [->|Hne].
    + rewrite Nat.min_id in *.
      assert (Keq : diag l i <= k) by lia.
      assert (Hnew : diag l i <= dict_get ((i, k) :: new) i)
        by (simpl; now rewrite Nat.eqb_refl).
      destruct (bs <? k) eqn:B.
      * apply Nat.ltb_lt in B.
        apply (IH ((i, k) :: new) (i + 1 - k) k); trivial.
        -- intros r Hr. specialize (N3 r Hr). lia.
        -- right. split; trivial.
      * apply Nat.ltb_ge in B.
        apply (IH ((i, k) :: new) bi bs); trivial.
        right. split; trivial. lia.
    + assert (Kbs : k <= bs).
      { destruct (Nat.lt_ge_cases j i) as [Lt|Ge].
        - rewrite Nat.min_r in Kle by lia. specialize (N3 j Lt). lia.
        - rewrite Nat.min_l in Kle by lia.
          destruct N4 as [[Hij|Hin]|[_ N5]]; [congruence| |lia].
          pose proof (ascending_in _ _ _ Ha Hin). lia. }
      replace (bs <? k) with false by (symmetry; apply Nat.ltb_ge; exact Kbs).
      apply (IH ((j, k) :: new) bi bs); trivial.
      destruct N4 as [[Hij|Hin]|[N4 N5]]; [congruence|now left|right].
      split; trivial. simpl. destruct (j =? i) eqn:E; trivial.
      apply Nat.eqb_eq in E. congruence.
Qed.

Lemma rows_same (cnt : nat) :
  forall i d bi bs,
    i + cnt = List.length l ->
    (forall j, before d j <= diag_before l i j) ->
    diag_before l i i <= before d i ->
    (forall r, r < i -> diag l r <= bs) ->
    exists bi' bs',
      rows l l cnt i 0 (List.length l) d (bi, bi, bs) = (bi', bi', bs').
Proof.
  induction cnt as [|cnt IH]; intros i d bi bs Hn Hd Hdi N3; simpl; [eauto|].
  destruct (row_same i (List.length l) d (b2j l (item l i)) Hd Hdi [] bi bs)
    as (new & bi' & bs' & -> & N1' & N3' & N4' & N5'); trivial.
  - unfold b2j. destruct (popular l (item l i)); simpl; trivial.
    apply indices_ascending.
  - intros j Hj. now apply b2j_in in Hj.
  - intros j. simpl. lia.
  - destruct (popular l (item l i)) eqn:P.
    + right. rewrite (diag_popular i P). split; lia.
    + left. unfold b2j. rewrite P.
      apply (in_indices (item l i) l 0 i); trivial. lia.
  - apply IH; trivial.
    + lia.
    + intros [|j]; simpl; trivial.
    + simpl. now rewrite Nat.min_id.
    + intros r Hr. destruct (Nat.eq_dec r i) as [->|Hne]; trivial.
      apply N3'. lia.
Qed.

Lemma extend_left_same (besti : nat) :
  forall bestsize,
    extend_left l l 0 0 besti besti bestsize = (0, 0, besti + bestsize).
Proof.
  induction besti as [|i IH]; intros bestsize; simpl; trivial.
  rewrite Ascii.eqb_refl. simpl. rewrite IH. f_equal. lia.
Qed.

Lemma extend_right_same (todo : nat) :
  forall bestsize,
    bestsize + todo = List.length l ->
    extend_right l l todo (List.length l) (List.length l) 0 0 bestsize
    = List.length l.
Proof.
  induction todo as [|todo IH]; intros bestsize H; simpl; [lia|].
  rewrite Ascii.eqb_refl.
  replace (bestsize <? List.length l) with true
    by (symmetry; apply Nat.ltb_lt; lia).
  simpl. apply IH. lia.
Qed.

(** The longest block of a sequence in itself is the whole of it,
    popular items or not. *)
Lemma find_longest_match_same :
  find_longest_match l l 0 (List.length l) 0 (List.length l)
  = (0, 0, List.length l).
Proof.
  unfold find_longest_match. rewrite Nat.sub_0_r.
  pose proof (rows_ok l l 0 0 (List.length l) (List.length l) 0 [] (0, 0, 0))
    as R.
  destruct (rows_same (List.length l) 0 [] 0 0) as (bi & bs & E); trivial.
  - intros [|j]; simpl; lia.
  - intros r Hr. lia.
  - rewrite E in *. simpl in R.
    assert (Hr : bi + bs <= List.length l).
    { apply R; try lia. intros j; simpl; lia. }
    rewrite extend_left_same. simpl.
    rewrite extend_right_same; trivial. lia.
Qed.

Lemma matches_same : matches l l = List.length l.
Proof.
  unfold matches, matching_blocks.
  replace (S (turns [(0, List.length l, 0, List.length l)]))
    with (S (S (2 * List.length l))) by (unfold turns; simpl; lia).
  cbn [blocks_loop]. rewrite find_longest_match_same.
  destruct (List.length l =? 0) eqn:E.
  - apply Nat.eqb_eq in E. simpl. lia.
  - cbn [Nat.add]. rewrite Nat.ltb_irrefl. simpl. lia.
Qed.

End SameSequence.

(** ** The ratio of equal lengths *)

Section RatioOne.
Open Scope Z_scope.

(** A mantissa of 53 bits with an exponent in range is left as it is. *)
Lemma round_canonical (m : positive) (e : Z) :
  digits2_pos m = 53%positive -> -1074 <= e <= 971 ->
  binary_round_aux 53 1024 false (Zpos m) e loc_Exact = S754_finite false m e.
Proof.
  intros Hd He.
  unfold binary_round_aux, shr_fexp, Zdigits2. rewrite Hd.
  unfold fexp, emin.
  replace (Z.max (53 + e - 53) (3 - 1024 - 53)) with e by lia.
  rewrite Z.sub_diag.
  cbn [shr shr_record_of_loc shr_m loc_of_shr_record round_nearest_even].
  unfold shr_fexp, Zdigits2. rewrite Hd. unfold fexp, emin.
  replace (Z.max (53 + e - 53) (3 - 1024 - 53)) with e by lia.
  rewrite Z.sub_diag. cbn [shr shr_record_of_loc shr_m].
  replace (e <=? 1024 - 53) with true by (symmetry; apply Z.leb_le; lia).
  reflexivity.
Qed.

Lemma digits_xO (p : positive) : digits2_pos p~0 = Pos.succ (digits2_pos p).
Proof. reflexivity. Qed.

(** [2.0 * x] moves the exponent. *)
Lemma mul_two (m : positive) (e : Z) :
  digits2_pos m = 53%positive -> -1074 <= e <= 900 ->
  Float.mul Float.two (S754_finite false m e) = S754_finite false m (e + 1).
Proof.
  intros Hd He. unfold Float.mul, Float.two, Float.prec, Float.emax, SFmul.
  cbn [xorb].
  assert (HD : digits2_pos (4503599627370496 * m) = 105%positive).
  { cbn [Pos.mul]. rewrite !digits_xO, Hd. reflexivity. }
  unfold binary_round_aux, shr_fexp, Zdigits2. rewrite HD.
  unfold fexp, emin.
  replace (Z.max (105 + (-51 + e) - 53) (3 - 1024 - 53) - (-51 + e))
    with 52 by lia.
  cbn [Pos.mul shr shr_record_of_loc].
  cbn [iter_pos shr_1 orb]. cbn [shr_m loc_of_shr_record round_nearest_even].
  unfold shr_fexp, Zdigits2. rewrite Hd. unfold fexp, emin.
  replace (Z.max (53 + (-51 + e + 52) - 53) (3 - 1024 - 53) - (-51 + e + 52))
    with 0 by lia.
  cbn [shr shr_record_of_loc shr_m].
  replace (-51 + e + 52 <=? 1024 - 53) with true
    by (symmetry; apply Z.leb_le; lia).
  f_equal. lia.
Qed.

(** [x / x] is 1.0. *)
Lemma div_self (m : positive) (e : Z) :
  Float.div (S754_finite false m e) (S754_finite false m e) = Float.one.
Proof.
  unfold Float.div, Float.one, Float.prec, Float.emax, SFdiv, SFdiv_core_binary.
  cbn [xorb Zdigits2].
  replace (Z.pos (digits2_pos m) + e - (Z.pos (digits2_pos m) + e))
    with 0 by lia.
  rewrite Z.sub_diag.
  change (Z.min (fexp 53 1024 0) 0) with (-53).
  change (0 - -53) with 53.
  cbv iota beta.
  rewrite Z.shiftl_mul_pow2 by lia.
  assert (E : Z.div_eucl (Z.pos m * 2 ^ 53) (Z.pos m) = (2 ^ 53, 0)).
  { pose proof (Z_div_mod (Z.pos m * 2 ^ 53) (Z.pos m) eq_refl) as H.
    destruct (Z.div_eucl (Z.pos m * 2 ^ 53) (Z.pos m)) as [q r].
    destruct H as [H2 H3].
    assert (q = 2 ^ 53) by nia. subst q. f_equal. lia. }
  rewrite E.
  assert (L : new_location (Z.pos m) 0 = loc_Exact).
  { unfold new_location. destruct (Z.even (Z.pos m)); reflexivity. }
  rewrite L. vm_compute. reflexivity.
Qed.

Lemma iter_xO (p k : positive) :
  digits2_pos (Pos.iter xO p k) = (digits2_pos p + k)%positive /\
  Z.pos (Pos.iter xO p k) = Z.pos p * 2 ^ Z.pos k.
Proof.
  induction k as [|k [IH1 IH2]] using Pos.peano_ind.
  - simpl. split; [now rewrite Pos.add_1_r|lia].
  - rewrite Pos.iter_succ. cbn [digits2_pos]. rewrite IH1. split; [lia|].
    rewrite Pos2Z.inj_xO, IH2, Pos2Z.inj_succ, Z.pow_succ_r by lia. lia.
Qed.

Lemma digits_lower (p : positive) : 2 ^ (Z.pos (digits2_pos p) - 1) <= Z.pos p.
Proof.
  induction p as [p IH|p IH|]; cbn [digits2_pos]; [| |simpl; lia];
    rewrite Pos2Z.inj_succ;
    replace (Z.succ (Z.pos (digits2_pos p)) - 1)
      with (Z.succ (Z.pos (digits2_pos p) - 1)) by lia;
    rewrite Z.pow_succ_r by lia; lia.
Qed.

(** [float(n)] for an [n] of at most 53 bits: no rounding. *)
Lemma of_pos (p : positive) :
  Z.pos (digits2_pos p) <= 53 ->
  exists m,
    Float.of_Z (Z.pos p) = S754_finite false m (Z.pos (digits2_pos p) - 53) /\
    digits2_pos m = 53%positive /\
    Z.pos m = Z.pos p * 2 ^ (53 - Z.pos (digits2_pos p)).
Proof.
  intros Hd. unfold Float.of_Z, Float.prec, Float.emax.
  unfold binary_normalize, binary_round, shl_align, fexp, emin.
  replace (Z.max (Z.pos (digits2_pos p) + 0 - 53) (3 - 1024 - 53) - 0)
    with (Z.pos (digits2_pos p) - 53) by lia.
  destruct (Z.pos (digits2_pos p) - 53) as [|k|k] eqn:E; [| lia |].
  - exists p. replace (Z.pos (digits2_pos p)) with 53 by lia.
    repeat split.
    + apply round_canonical; lia.
    + lia.
    + simpl. lia.
  - destruct (iter_xO p k) as [I1 I2].
    assert (D : digits2_pos (Pos.iter xO p k) = 53%positive) by lia.
    exists (Pos.iter xO p k). repeat split; trivial.
    + replace (Z.max (Z.pos (digits2_pos p) + 0 - 53) (3 - 1024 - 53))
        with (Z.neg k) by lia.
      apply round_canonical; trivial. lia.
    + rewrite I2. f_equal. f_equal. lia.
Qed.

(** [2.0 * n / (n + n)] is 1.0. *)
Lemma calculate_ratio_same (n : nat) :
  0 < Z.of_nat n < 2 ^ 52 ->
  Difflib.calculate_ratio n (n + n) = Float.one.
Proof.
  intros Hn. unfold Difflib.calculate_ratio, Float.of_nat.
  replace (n + n =? 0)%nat with false by (symmetry; apply Nat.eqb_neq; lia).
  destruct (Z.of_nat n) as [|p|p] eqn:E; try lia.
  replace (Z.of_nat (n + n)) with (Z.pos p~0) by lia.
  assert (Dg : Z.pos (digits2_pos p) <= 52).
  { pose proof (digits_lower p) as L.
    destruct (Z_le_gt_dec (Z.pos (digits2_pos p)) 52) as [|G]; trivial.
    assert (2 ^ 52 <= 2 ^ (Z.pos (digits2_pos p) - 1))
      by (apply Z.pow_le_mono_r; lia).
    lia. }
  destruct (of_pos p) as (m & E1 & D1 & V1); [lia|].
  destruct (of_pos p~0) as (m' & E2 & D2 & V2); [cbn [digits2_pos]; lia|].
  assert (m' = m) as ->.
  { cbn [digits2_pos] in V2. rewrite Pos2Z.inj_succ in V2.
    assert (Z.pos m' = Z.pos m); [|congruence].
    rewrite V1, V2, Pos2Z.inj_xO.
    replace (53 - Z.pos (digits2_pos p))
      with (Z.succ (53 - Z.succ (Z.pos (digits2_pos p)))) by lia.
    rewrite Z.pow_succ_r by lia. lia. }
  rewrite E1, E2. rewrite mul_two; trivial; [|lia].
  cbn [digits2_pos]. rewrite Pos2Z.inj_succ.
  replace (Z.succ (Z.pos (digits2_pos p)) - 53)
    with (Z.pos (digits2_pos p) - 53 + 1) by lia.
  apply div_self.
Qed.

End RatioOne.

(** ** The similarity block *)

(** ** The blocks found are common to the two sequences *)

Section Subsequences.
Import Stated Matching Difflib.

Lemma sub_empty (l : list ascii) : subsequence [] l.
Proof. induction l; constructor; trivial. Qed.

Lemma sub_refl (l : list ascii) : subsequence l l.
Proof. induction l; constructor; trivial. Qed.

Lemma sub_app (c1 l1 c2 l2 : list ascii) :
  subsequence c1 l1 -> subsequence c2 l2 ->
  subsequence (c1 ++ c2)%list (l1 ++ l2)%list.
Proof.
  intros H1 H2. induction H1; cbn [app]; trivial; constructor; trivial.
Qed.

Lemma skipn_item (l : list ascii) :
  forall i, i < List.length l -> skipn i l = item l i :: skipn (S i) l.
Proof.
  unfold item. induction l as [|x l IH]; intros i H; simpl in H; [lia|].
  destruct i as [|i]; [reflexivity|].
  change (skipn (S i) (x :: l)) with (skipn i l).
  change (skipn (S (S i)) (x :: l)) with (skipn (S i) l).
  cbn [nth]. apply IH. lia.
Qed.

Lemma slice_items (l : list ascii) (k : nat) :
  forall i, i + k <= List.length l ->
            slice l i (i + k) = map (fun d => item l (i + d)) (seq 0 k).
Proof.
  unfold slice. induction k as [|k IH]; intros i H.
  - replace (i + 0 - i) with 0 by lia. reflexivity.
  - replace (i + S k - i) with (S k) by lia.
    rewrite skipn_item by lia. cbn [firstn seq map].
    rewrite Nat.add_0_r. f_equal.
    specialize (IH (S i)). replace (S i + k - S i) with k in IH by lia.
    rewrite IH by lia. rewrite <- seq_shift, map_map.
    apply map_ext. intros d. f_equal. lia.
Qed.

Lemma slice_agree (a b : list ascii) (i j k : nat) :
  agree a b i j k -> i + k <= List.length a -> j + k <= List.length b ->
  slice a i (i + k) = slice b j (j + k).
Proof.
  intros A Ha Hb. rewrite !slice_items by trivial.
  apply map_ext_in. intros d Hd. apply in_seq in Hd. apply A. lia.
Qed.

Lemma firstn_plus (n m : nat) (l : list ascii) :
  firstn (n + m) l = (firstn n l ++ firstn m (skipn n l))%list.
Proof.
  revert l. induction n as [|n IH]; intros l; [reflexivity|].
  destruct l as [|x l]; cbn [Nat.add firstn skipn app].
  - now rewrite firstn_nil.
  - now rewrite IH.
Qed.

Lemma slice_split (l : list ascii) (lo mid hi : nat) :
  lo <= mid -> mid <= hi ->
  slice l lo hi = (slice l lo mid ++ slice l mid hi)%list.
Proof.
  intros H1 H2. unfold slice.
  replace (hi - lo) with ((mid - lo) + (hi - mid)) by lia.
  rewrite firstn_plus, skipn_skipn.
  now replace (mid - lo + lo) with mid by lia.
Qed.

Lemma slice_all (l : list ascii) : slice l 0 (List.length l) = l.
Proof. unfold slice. rewrite Nat.sub_0_r. apply firstn_all. Qed.

Lemma common_none (a b : list ascii) (r : nat * nat * nat * nat) :
  common_in a b r 0.
Proof.
  destruct r as [[[alo ahi] blo] bhi]. exists [].
  split; [reflexivity|]. split; apply sub_empty.
Qed.

(** A block of equal items between two ranges that have [n1] and [n2]
    items in common. *)
Lemma common_join (a b : list ascii) (alo ahi blo bhi i j k n1 n2 : nat) :
  in_range alo ahi blo bhi (i, j, k) ->
  ahi <= List.length a -> bhi <= List.length b ->
  agree a b i j k ->
  common_in a b (alo, i, blo, j) n1 ->
  common_in a b (i + k, ahi, j + k, bhi) n2 ->
  common_in a b (alo, ahi, blo, bhi) (n1 + k + n2).
Proof.
  intros (R1 & R2 & R3 & R4) Ha Hb A (c1 & L1 & A1 & B1) (c2 & L2 & A2 & B2).
  exists (c1 ++ slice a i (i + k) ++ c2)%list. split; [|split].
  - rewrite !length_app, L1, L2, slice_items, length_map, length_seq by lia.
    lia.
  - rewrite (slice_split a alo i ahi), (slice_split a i (i + k) ahi) by lia.
    apply sub_app; trivial. apply sub_app; trivial. apply sub_refl.
  - rewrite (slice_split b blo j bhi), (slice_split b j (j + k) bhi) by lia.
    apply sub_app; trivial. apply sub_app; trivial.
    rewrite (slice_agree a b i j k A) by lia. apply sub_refl.
Qed.

End Subsequences.

Section MatcherSound.
Import Stated Matching Difflib.

Variables a b : list ascii.

Lemma agree_longer (i j m : nat) :
  agree a b i j m -> item a (i + m) = item b (j + m) ->
  agree a b i j (S m).
Proof.
  intros A E d Hd. destruct (Nat.eq_dec d m) as [->|N]; trivial.
  apply A. lia.
Qed.

Lemma row_agree (i alo blo bhi : nat) (d : dict) (js : list nat) :
  alo <= i -> dict_ok alo blo i d -> dict_agree a b i d ->
  (forall j, In j js -> item b j = item a i) ->
  forall new bst,
    dict_agree a b (S i) new -> block_agree a b bst ->
    dict_agree a b (S i) (fst (row i blo bhi d js new bst)) /\
    block_agree a b (snd (row i blo bhi d js new bst)).
Proof.
  intros Hi Hd Ha. induction js as [|j js IH]; intros Hjs new bst Hn Hb;
    cbn [row]; [auto|].
  assert (Hjs' : forall j', In j' js -> item b j' = item a i)
    by (intros; apply Hjs; now right).
  destruct (j <? blo) eqn:E1; [auto|]. apply Nat.ltb_ge in E1.
  destruct (bhi <=? j) eqn:E2; [auto|].
  destruct bst as [[bi bj] bs].
  destruct (before_ok _ _ _ _ j Hd E1) as [B1 B2].
  assert (K : agree a b (S i - (before d j + 1)) (j + 1 - (before d j + 1))
                (before d j + 1)).
  { replace (before d j + 1) with (S (before d j)) by lia.
    apply agree_longer.
    - destruct j as [|j']; cbn [before] in *; [intros x Hx; lia|].
      specialize (Ha j').
      replace (S i - S (dict_get d j')) with (i - dict_get d j') by lia.
      replace (S j' + 1 - S (dict_get d j'))
        with (j' + 1 - dict_get d j') by lia.
      exact Ha.
    - replace (S i - S (before d j) + before d j) with i by lia.
      replace (j + 1 - S (before d j) + before d j) with j by lia.
      symmetry. apply Hjs. now left. }
  apply IH; trivial.
  - intros j'. cbn [dict_get]. destruct (j =? j') eqn:E; [|apply Hn].
    apply Nat.eqb_eq in E as <-. exact K.
  - destruct (bs <? before d j + 1); trivial. cbn [block_agree].
    replace (i + 1 - (before d j + 1)) with (S i - (before d j + 1)) by lia.
    exact K.
Qed.

Lemma dict_agree_nil (top : nat) : dict_agree a b top [].
Proof. intros j d Hd. cbn [dict_get] in Hd. lia. Qed.

Lemma b2j_item (elt : ascii) (j : nat) :
  In j (b2j b elt) -> item b j = elt.
Proof. intros H. now apply b2j_in in H. Qed.

Lemma rows_agree (alo blo bhi : nat) (n : nat) :
  forall i d bst,
    alo <= i -> dict_ok alo blo i d -> dict_agree a b i d ->
    in_range alo i blo bhi bst -> block_agree a b bst ->
    block_agree a b (rows a b n i blo bhi d bst).
Proof.
  induction n as [|n IH]; intros i d bst Hi Hd Ha Hr Hb; cbn [rows]; trivial.
  assert (Hn : dict_ok alo blo (S i) []) by (intros j; simpl; lia).
  destruct (row_ok i alo blo bhi d (b2j b (item a i)) Hi Hd [] bst Hn
              (in_range_wider _ _ _ _ _ _ (Nat.le_succ_diag_r i) Hr))
    as [D R].
  destruct (row_agree i alo blo bhi d (b2j b (item a i)) Hi Hd Ha
              (b2j_item (item a i)) [] bst (dict_agree_nil (S i)) Hb)
    as [A B].
  destruct (row i blo bhi d (b2j b (item a i)) [] bst) as [new bst'].
  cbn [fst snd] in *. apply IH; trivial. lia.
Qed.

Lemma extend_left_agree (alo blo besti : nat) :
  forall bestj bestsize,
    agree a b besti bestj bestsize ->
    block_agree a b (extend_left a b alo blo besti bestj bestsize).
Proof.
  induction besti as [|i' IH]; intros bestj bestsize H; cbn [extend_left];
    trivial.
  destruct bestj as [|j']; trivial.
  destruct ((alo <? S i') && (blo <? S j') &&
            Ascii.eqb (item a i') (item b j')) eqn:E; trivial.
  apply andb_true_iff in E as [_ E]. apply Ascii.eqb_eq in E.
  apply IH. intros d Hd. destruct d as [|d].
  - now rewrite !Nat.add_0_r.
  - replace (i' + S d) with (S i' + d) by lia.
    replace (j' + S d) with (S j' + d) by lia. apply H. lia.
Qed.

Lemma extend_right_agree (ahi bhi besti bestj : nat) (todo : nat) :
  forall bestsize,
    agree a b besti bestj bestsize ->
    agree a b besti bestj
      (extend_right a b todo ahi bhi besti bestj bestsize).
Proof.
  induction todo as [|todo IH]; intros bestsize H; cbn [extend_right];
    trivial.
  destruct ((besti + bestsize <? ahi) && (bestj + bestsize <? bhi) &&
            Ascii.eqb (item a (besti + bestsize)) (item b (bestj + bestsize)))
    eqn:E; trivial.
  apply andb_true_iff in E as [_ E]. apply Ascii.eqb_eq in E.
  apply IH. now apply agree_longer.
Qed.

(** The block found is one of equal items. *)
Lemma find_longest_match_agree (alo ahi blo bhi : nat) :
  alo <= ahi -> blo <= bhi ->
  block_agree a b (find_longest_match a b alo ahi blo bhi).
Proof.
  intros Ha Hb. unfold find_longest_match.
  assert (R : block_agree a b
                (rows a b (ahi - alo) alo blo bhi [] (alo, blo, 0))).
  { apply (rows_agree alo blo bhi); trivial.
    - intros j; simpl; lia.
    - apply dict_agree_nil.
    - unfold in_range; lia.
    - intros d Hd. lia. }
  destruct (rows a b (ahi - alo) alo blo bhi [] (alo, blo, 0)) as [[i j] k].
  apply (extend_left_agree alo blo) in R.
  destruct (extend_left a b alo blo i j k) as [[i' j'] k'].
  now apply extend_right_agree.
Qed.

Lemma total_app (l l' : list best) : total (l ++ l') = total l + total l'.
Proof.
  induction l as [|[[i j] k] l IH]; [reflexivity|].
  cbn [app total fold_right] in *. fold (total (l ++ l')). fold (total l).
  rewrite IH. lia.
Qed.

(** What the loop adds to the blocks it was given is common to the
    ranges of its queue. *)
Lemma blocks_loop_common (fuel : nat) :
  forall q acc res,
    queue_within a b q ->
    blocks_loop a b fuel q acc = Some res ->
    exists ns,
      Forall2 (common_in a b) q ns /\ total res = total acc + list_sum ns.
Proof.
  induction fuel as [|fuel IH]; intros q acc res Hq E; [discriminate E|].
  destruct q as [|[[[alo ahi] blo] bhi] q]; cbn [blocks_loop] in E.
  - injection E as <-. exists []. split; [constructor|simpl; lia].
  - inversion Hq as [|x l Hab Hq']; subst. cbn in Hab.
    destruct Hab as (Ha & Ha' & Hb & Hb').
    pose proof (find_longest_match_in_range a b alo ahi blo bhi Ha Hb) as R.
    pose proof (find_longest_match_agree alo ahi blo bhi Ha Hb) as A.
    destruct (find_longest_match a b alo ahi blo bhi) as [[i j] k].
    cbn [block_agree] in A. pose proof R as (R1 & R2 & R3 & R4).
    destruct (k =? 0) eqn:K.
    + destruct (IH q acc res Hq' E) as (ns & F & T).
      exists (0 :: ns). split; [|simpl; lia].
      constructor; trivial. apply common_none.
    + assert (Q1 : queue_within a b ((alo, i, blo, j) :: q))
        by (constructor; [cbn; lia|trivial]).
      assert (Join : forall n1 n2,
                 common_in a b (alo, i, blo, j) n1 ->
                 common_in a b (i + k, ahi, j + k, bhi) n2 ->
                 common_in a b (alo, ahi, blo, bhi) (n1 + k + n2))
        by (intros; now apply (common_join a b alo ahi blo bhi i j k)).
      assert (T0 : total (acc ++ [(i, j, k)]) = total acc + k)
        by (rewrite total_app; simpl; lia).
      pose proof (common_none a b (alo, i, blo, j)) as N1.
      pose proof (common_none a b (i + k, ahi, j + k, bhi)) as N2.
      destruct ((i + k <? ahi) && (j + k <? bhi));
        destruct ((alo <? i) && (blo <? j)).
      * assert (Q : queue_within a b
                      ((i + k, ahi, j + k, bhi) :: (alo, i, blo, j) :: q))
          by (constructor; [cbn; lia|exact Q1]).
        destruct (IH _ _ _ Q E) as (ns & F & T). rewrite T0 in T.
        inversion F as [|x2 n2 l2 ns2 C2 F2]; subst.
        inversion F2 as [|x1 n1 l1 ns1 C1 F1]; subst.
        exists (n1 + k + n2 :: ns1). split; [constructor; auto|].
        simpl in *. lia.
      * assert (Q : queue_within a b ((i + k, ahi, j + k, bhi) :: q))
          by (constructor; [cbn; lia|exact Hq']).
        destruct (IH _ _ _ Q E) as (ns & F & T). rewrite T0 in T.
        inversion F as [|x2 n2 l2 ns2 C2 F2]; subst.
        exists (0 + k + n2 :: ns2). split; [constructor; auto|].
        simpl in *. lia.
      * destruct (IH _ _ _ Q1 E) as (ns & F & T). rewrite T0 in T.
        inversion F as [|x1 n1 l1 ns1 C1 F1]; subst.
        exists (n1 + k + 0 :: ns1). split; [constructor; auto|].
        simpl in *. lia.
      * destruct (IH _ _ _ Hq' E) as (ns & F & T). rewrite T0 in T.
        exists (0 + k + 0 :: ns). split; [constructor; auto|].
        simpl in *. lia.
Qed.

(** The matches counted are the items of a subsequence that the two
    sequences have in common. *)
Lemma matches_common :
  exists c,
    List.length c = matches a b /\ subsequence c a /\ subsequence c b.
Proof.
  assert (Q : queue_within a b [(0, List.length a, 0, List.length b)])
    by (repeat constructor; lia).
  destruct (blocks_loop_common _ _ _ _ Q (matching_blocks_found a b))
    as (ns & F & T).
  inversion F as [|x n l ns' C F']; subst. inversion F'; subst.
  destruct C as (c & L & Sa & Sb). rewrite !slice_all in *.
  exists c. split; [|auto]. unfold matches. fold (total (matching_blocks a b)).
  rewrite T, L. simpl. lia.
Qed.

(** *** A shared item is found *)

Lemma row_size (i blo bhi : nat) (d : dict) (js : list nat) :
  forall new bst, size bst <= size (snd (row i blo bhi d js new bst)).
Proof.
  induction js as [|j js IH]; intros new bst; cbn [row]; [simpl; lia|].
  destruct (j <? blo); [apply IH|].
  destruct (bhi <=? j); [simpl; lia|].
  destruct bst as [[bi bj] bs].
  etransitivity; [|apply IH].
  destruct (Nat.ltb_spec bs (before d j + 1)); unfold size; simpl; lia.
Qed.

Lemma row_hit (i blo bhi : nat) (d : dict) (j : nat) (js : list nat) :
  forall lo new bst,
    ascending lo js -> In j js -> blo <= j -> j < bhi ->
    1 <= size (snd (row i blo bhi d js new bst)).
Proof.
  induction js as [|j0 js IH]; intros lo new bst Ha Hin H1 H2; [elim Hin|].
  cbn [ascending] in Ha. destruct Ha as [_ Ha]. cbn [row].
  destruct Hin as [->|Hin].
  - replace (j <? blo) with false by (symmetry; apply Nat.ltb_ge; lia).
    replace (bhi <=? j) with false by (symmetry; apply Nat.leb_gt; lia).
    destruct bst as [[bi bj] bs].
    etransitivity; [|apply row_size].
    destruct (Nat.ltb_spec bs (before d j + 1)); unfold size; simpl; lia.
  - pose proof (ascending_in _ _ _ Ha Hin) as Lt.
    destruct (j0 <? blo); [now apply (IH (S j0))|].
    replace (bhi <=? j0) with false by (symmetry; apply Nat.leb_gt; lia).
    destruct bst as [[bi bj] bs]. now apply (IH (S j0)).
Qed.

Lemma rows_size (blo bhi : nat) (n : nat) :
  forall i d bst, size bst <= size (rows a b n i blo bhi d bst).
Proof.
  induction n as [|n IH]; intros i d bst; cbn [rows]; [lia|].
  pose proof (row_size i blo bhi d (b2j b (item a i)) [] bst) as R.
  destruct (row i blo bhi d (b2j b (item a i)) [] bst) as [new bst'].
  cbn [snd] in R. etransitivity; [exact R|apply IH].
Qed.

Lemma b2j_ascending (elt : ascii) : ascending 0 (b2j b elt).
Proof.
  unfold b2j. destruct (popular b elt); [exact I|apply indices_ascending].
Qed.

Lemma rows_hit (blo bhi i j : nat) (n : nat) :
  In j (b2j b (item a i)) -> blo <= j -> j < bhi ->
  forall i0 d bst,
    i0 <= i -> i < i0 + n ->
    1 <= size (rows a b n i0 blo bhi d bst).
Proof.
  intros Hin H1 H2. induction n as [|n IH]; intros i0 d bst L1 L2; [lia|].
  cbn [rows].
  destruct (Nat.eq_dec i0 i) as [->|N].
  - pose proof (row_hit i blo bhi d j (b2j b (item a i)) 0 [] bst
                  (b2j_ascending _) Hin H1 H2) as R.
    destruct (row i blo bhi d (b2j b (item a i)) [] bst) as [new bst'].
    cbn [snd] in R. etransitivity; [exact R|apply rows_size].
  - destruct (row i0 blo bhi d (b2j b (item a i0)) [] bst) as [new bst'].
    apply IH; lia.
Qed.

Lemma extend_left_size (alo blo besti : nat) :
  forall bestj bestsize,
    bestsize <= size (extend_left a b alo blo besti bestj bestsize).
Proof.
  induction besti as [|i' IH]; intros bestj bestsize; cbn [extend_left];
    [unfold size; simpl; lia|].
  destruct bestj as [|j']; [unfold size; simpl; lia|].
  destruct ((alo <? S i') && (blo <? S j') &&
            Ascii.eqb (item a i') (item b j'));
    [|unfold size; simpl; lia].
  specialize (IH j' (S bestsize)). lia.
Qed.

Lemma extend_right_size (ahi bhi besti bestj : nat) (todo : nat) :
  forall bestsize,
    bestsize <= extend_right a b todo ahi bhi besti bestj bestsize.
Proof.
  induction todo as [|todo IH]; intros bestsize; cbn [extend_right]; [lia|].
  destruct ((besti + bestsize <? ahi) && (bestj + bestsize <? bhi) &&
            Ascii.eqb (item a (besti + bestsize)) (item b (bestj + bestsize)));
    [|lia].
  specialize (IH (S bestsize)). lia.
Qed.

Lemma blocks_loop_grows (fuel : nat) :
  forall q acc res,
    blocks_loop a b fuel q acc = Some res -> total acc <= total res.
Proof.
  induction fuel as [|fuel IH]; intros q acc res E; [discriminate E|].
  destruct q as [|[[[alo ahi] blo] bhi] q]; cbn [blocks_loop] in E.
  - injection E as <-. lia.
  - destruct (find_longest_match a b alo ahi blo bhi) as [[i j] k].
    destruct (k =? 0); [now apply IH in E|].
    apply IH in E. rewrite total_app in E. lia.
Qed.

(** When an item of [a] is an item of [b] that is not popular, at
    least one item is matched. *)
Lemma matches_positive (i j : nat) :
  i < List.length a -> j < List.length b ->
  item a i = item b j -> popular b (item b j) = false ->
  0 < matches a b.
Proof.
  intros Hi Hj E P.
  assert (Hin : In j (b2j b (item a i))).
  { unfold b2j. rewrite E, P.
    exact (in_indices (item b j) b 0 j Hj eq_refl). }
  assert (F : 1 <= size (find_longest_match a b 0 (List.length a)
                           0 (List.length b))).
  { unfold find_longest_match.
    pose proof (rows_hit 0 (List.length b) i j (List.length a - 0) Hin
                  (Nat.le_0_l _) Hj 0 [] (0, 0, 0) (Nat.le_0_l _)) as R.
    destruct (rows a b (List.length a - 0) 0 0 (List.length b) [] (0, 0, 0))
      as [[bi bj] bs].
    unfold size in R. cbn [snd] in R.
    pose proof (extend_left_size 0 0 bi bj bs) as L.
    destruct (extend_left a b 0 0 bi bj bs) as [[bi' bj'] bs'].
    unfold size in *. cbn [snd] in *.
    pose proof (extend_right_size (List.length a) (List.length b) bi' bj'
                  (List.length a - (bi' + bs')) bs').
    assert (1 <= bs) by (apply R; lia). lia. }
  pose proof (matching_blocks_found a b) as M.
  cbn [blocks_loop] in M.
  destruct (find_longest_match a b 0 (List.length a) 0 (List.length b))
    as [[bi bj] bs].
  unfold size in F. cbn [snd] in F.
  replace (bs =? 0) with false in M by (symmetry; apply Nat.eqb_neq; lia).
  apply blocks_loop_grows in M. cbn [app] in M.
  unfold matches. fold (total (matching_blocks a b)).
  unfold total at 1 in M. cbn [fold_right] in M. lia.
Qed.

End MatcherSound.

(** ** Rounding to two places *)

Section Rounding.
Import Stated.

Lemma round2_two_places (x : spec_float) : two_places x (Float.round2 x).
Proof.
  destruct x as [s|s| |s m e]; try reflexivity.
  cbn [two_places Float.round2]. exists (Float.hundredths m e).
  split; [|reflexivity].
  unfold Float.hundredths, nearest. destruct e as [|p|p].
  - cbn [Z.leb Z.compare]. left. lia.
  - replace (0 <=? Z.pos p)%Z with true by reflexivity. left. lia.
  - replace (0 <=? Z.neg p)%Z with false by reflexivity.
    replace (- Z.neg p)%Z with (Z.pos p) by reflexivity. cbv zeta.
    assert (D : (0 < 2 ^ Z.pos p)%Z) by (apply Z.pow_pos_nonneg; lia).
    pose proof (Z.div_mod (Z.pos m * 100) (2 ^ Z.pos p)) as E.
    pose proof (Z.mod_pos_bound (Z.pos m * 100) (2 ^ Z.pos p) D) as B.
    set (d := (2 ^ Z.pos p)%Z) in *.
    set (q := (Z.pos m * 100 / d)%Z) in *.
    set (r := ((Z.pos m * 100) mod d)%Z) in *.
    assert (E' : (Z.pos m * 100 = d * q + r)%Z) by (apply E; lia).
    destruct (Z.compare_spec (2 * r) d) as [C|C|C].
    + destruct (Z.even q) eqn:Q.
      * right. split; [|exact Q]. nia.
      * right. split; [nia|].
        rewrite Z.add_1_r, Z.even_succ, <- Z.negb_even, Q. reflexivity.
    + left. nia.
    + left. nia.
Qed.

End Rounding.

Section Similarity.
Import Py Extractor App.

Lemma truthy_true (s : string) : truthy s = true <-> s <> "".
Proof. destruct s; simpl; split; congruence. Qed.

Lemma truthy_false (s : string) : truthy s = false <-> s = "".
Proof. destruct s; simpl; split; congruence. Qed.

Lemma list_ascii_length (s : string) :
  List.length (list_ascii_of_string s) = String.length s.
Proof. induction s as [|c s IH]; simpl; congruence. Qed.

Lemma upper_length (s : string) : String.length (upper s) = String.length s.
Proof. unfold upper. induction s as [|c s IH]; simpl; congruence. Qed.

(** The ratio of a string to itself is 1.0. *)
Lemma ratio_same (s : string) :
  s <> "" -> (Z.of_nat (String.length s) < 2 ^ 52)%Z ->
  Difflib.ratio s s = Float.one.
Proof.
  intros Hs Hl. unfold Difflib.ratio, Difflib.seq_ratio.
  rewrite matches_same, list_ascii_length.
  apply calculate_ratio_same. destruct s; [congruence|simpl in *; lia].
Qed.

Lemma round2_one : Float.round2 Float.one = Float.one.
Proof. vm_compute. reflexivity. Qed.

Lemma calculate_ratio_twice (n total : nat) :
  total <> 0 -> Difflib.calculate_ratio n total = Stated.twice_over n total.
Proof.
  intros H. unfold Difflib.calculate_ratio, Stated.twice_over.
  now replace (total =? 0) with false by (symmetry; apply Nat.eqb_neq; exact H).
Qed.

(** A slot is as the specification says, when the library call is not
    stopped. *)
Lemma score_slot_stated (sentinel expected extracted : string) :
  exists s,
    score_slot difflib_ratio sentinel expected extracted = Val s /\
    Stated.slot_stated sentinel expected extracted s.
Proof.
  unfold score_slot, difflib_ratio, Stated.slot_stated.
  destruct (truthy expected) eqn:Te, (truthy extracted) eqn:Tx; simpl;
    eexists; (split; [reflexivity|]);
    rewrite ?truthy_true, ?truthy_false in *;
    repeat split; try congruence.
  - intros _ _.
    exists (Difflib.matches (list_ascii_of_string (upper expected))
              (list_ascii_of_string (upper extracted))),
      (Float.round2 (Difflib.ratio (upper expected) (upper extracted))).
    split; [|split; [|split; [|split]]].
    + apply matches_common.
    + intros Hu. rewrite Hu, matches_same, list_ascii_length, <- Hu.
      apply upper_length.
    + intros (c & Ia & Ib) Hl.
      apply (In_nth _ _ Ascii.zero) in Ia as (i & Hi & Ei).
      apply (In_nth _ _ Ascii.zero) in Ib as (j & Hj & Ej).
      apply (matches_positive _ _ i j Hi Hj).
      * unfold Difflib.item. congruence.
      * unfold Difflib.popular.
        rewrite list_ascii_length, upper_length.
        now replace (200 <=? String.length extracted) with false
          by (symmetry; apply Nat.leb_gt; exact Hl).
    + unfold Difflib.ratio, Difflib.seq_ratio.
      rewrite calculate_ratio_twice, !list_ascii_length, !upper_length.
      * apply round2_two_places.
      * rewrite !list_ascii_length, !upper_length.
        destruct expected; [congruence|simpl; lia].
    + reflexivity.
  - intros _ _ Hu Hl. rewrite Hu, ratio_same, round2_one; trivial.
    + rewrite <- Hu. intros E. apply Te.
      destruct expected; [reflexivity|discriminate E].
    + rewrite <- Hu, upper_length. exact Hl.
Qed.



(** C9.  Whatever the library call does, the block ends with a
    result: its extraction keys are those it was given, and when the
    scoring raises an exception the similarity dictionary is
    [{"status": "error_calculating_similarity"}] and nothing else;
    when it does not, it is the dictionary the scoring built. *)
Theorem similarity_never_raises
    (sequence_ratio : string -> string -> res spec_float)
    (request_form : res form) (result : nid_data) :
  let r := attach_similarity sequence_ratio request_form result in
  let scored :=
    score sequence_ratio (fst (provided request_form))
          (snd (provided request_form)) result in
  fields r = result /\
  (forall msg, scored = Exn msg ->
     similarity_of r = Similarity "error_calculating_similarity" None None) /\
  (forall s, scored = Val s -> similarity_of r = s).
Proof.
  cbv zeta. unfold attach_similarity.
  destruct (provided request_form) as [pn pd]. simpl.
  destruct (score sequence_ratio pn pd result) as [s|msg]; simpl.
  - split; [reflexivity|]. split; [discriminate|]. now intros s' [= <-].
  - split; [reflexivity|]. split; [reflexivity|discriminate].
Qed.

Lemma similarity_never_raises_witness :
  let stopped := fun _ _ : string => @Exn spec_float "MemoryError" in
  let result := NidData "JOHN SMITH" "05-Jan-1990" "1234567890" "text" None in
  let r := attach_similarity stopped (Val (Form (Some "John Smith") None)) result in
  score stopped "John Smith" "" result = Exn "MemoryError" /\
  similarity_of r = Similarity "error_calculating_similarity" None None.
Proof.
  intros stopped result r.
  assert (E : score stopped "John Smith" "" result = Exn "MemoryError")
    by reflexivity.
  split; [exact E|].
  exact (proj1 (proj2 (similarity_never_raises stopped
                         (Val (Form (Some "John Smith") None)) result))
           "MemoryError" E).
Defined.

(** A library call that is stopped, say for want of memory, leaves
    the error status and the extracted fields. *)
Lemma similarity_fault_example :
  let result := NidData "JOHN SMITH" "05-Jan-1990" "1234567890" "text" None in
  attach_similarity (fun _ _ => Exn "MemoryError")
    (Val (Form (Some "John Smith") None)) result
  = Response result (Similarity "error_calculating_similarity" None None).
Proof. reflexivity. Qed.

(** The scenarios of the specification: equal names score 1.0, and
    ["JOHN SMYTH"] against ["JOHN SMITH"] scores 0.9. *)
Lemma similarity_scenarios :
  let result := NidData "JOHN SMITH" "" "" "" None in
  similarity_of
    (attach_similarity difflib_ratio (Val (Form (Some "JOHN SMITH") None)) result)
  = Similarity "partial_comparison" (Some (SNumber Float.one)) (Some SNull) /\
  similarity_of
    (attach_similarity difflib_ratio (Val (Form (Some "JOHN SMYTH") None)) result)
  = Similarity "partial_comparison"
      (Some (SNumber (S754_finite false 8106479329266893 (-53)))) (Some SNull).
Proof. split; vm_compute; reflexivity. Qed.

End Similarity.

(** * Further properties of the extraction *)

Section StripFacts.
Import Py.

Lemma append_assoc (a b c : string) :
  ((a ++ b) ++ c)%string = (a ++ (b ++ c))%string.
Proof. induction a as [|x a IH]; simpl; congruence. Qed.

Lemma substring_refl (s : string) : substring_of s s.
Proof.
  exists "", "". simpl. induction s as [|c s IH]; simpl; congruence.
Qed.

Lemma substring_trans (a b c : string) :
  substring_of a b -> substring_of b c -> substring_of a c.
Proof.
  intros (x & y & ->) (u & v & ->).
  exists (u ++ x)%string, (y ++ v)%string.
  now rewrite !append_assoc.
Qed.

Lemma lstrip_drop (s : string) : exists k, lstrip s = drop k s.
Proof.
  induction s as [|c s [k IH]]; simpl.
  - now exists 0.
  - destruct (is_space c); [exists (S k)|exists 0]; trivial.
Qed.

Lemma rstrip_take (s : string) : exists k, rstrip s = take k s.
Proof.
  induction s as [|c s [k IH]]; simpl.
  - now exists 0.
  - rewrite IH. destruct (take k s) eqn:E.
    + destruct (is_space c); [exists 0|exists 1]; trivial.
    + exists (S k). simpl. now rewrite E.
Qed.

Lemma strip_substring (s : string) : substring_of (strip s) s.
Proof.
  unfold strip. destruct (lstrip_drop s) as [j ->].
  destruct (rstrip_take (drop j s)) as [k ->].
  apply take_drop_substring.
Qed.

Lemma sall_substring (p : ascii -> bool) (g s : string) :
  substring_of g s -> sall p s = true -> sall p g = true.
Proof.
  intros (a & b & ->). rewrite !sall_app.
  intros H. apply andb_true_iff in H as [_ H].
  now apply andb_true_iff in H as [H _].
Qed.

Lemma sany_substring (p : ascii -> bool) (g s : string) :
  substring_of g s -> sany p g = true -> sany p s = true.
Proof.
  assert (A : forall a b, sany p (a ++ b)%string = sany p a || sany p b).
  { induction a as [|c a IH]; intros b; simpl; trivial.
    now rewrite IH, orb_assoc. }
  intros (a & b & ->) H. rewrite !A, H. now rewrite orb_true_r.
Qed.

Lemma contains_substring (l g s : string) :
  substring_of g s -> contains l g = true -> contains l s = true.
Proof.
  assert (P : forall x y, starts_with l x = true ->
                          starts_with l (x ++ y)%string = true).
  { induction l as [|c l IH]; intros [|a x] y; simpl; trivial; try discriminate.
    intros H. apply andb_true_iff in H as [H1 H2].
    now rewrite H1, IH. }
  assert (R : forall x y, contains l x = true ->
                          contains l (x ++ y)%string = true).
  { induction x as [|a x IH]; intros y H.
    - simpl in H. rewrite orb_false_r in H.
      destruct l; [|discriminate]. now destruct y.
    - simpl in H. apply orb_true_iff in H as [H|H].
      + change (String a x ++ y)%string with (String a (x ++ y)).
        cbn [contains]. change (String a (x ++ y)) with (String a x ++ y)%string.
        now rewrite (P _ y H).
      + simpl. rewrite (IH y H). apply orb_true_r. }
  assert (L : forall x y, contains l y = true ->
                          contains l (x ++ y)%string = true).
  { induction x as [|a x IH]; intros y H; simpl; trivial.
    rewrite (IH y H). apply orb_true_r. }
  intros (a & b & ->) H. apply L, R, H.
Qed.

End StripFacts.

Section PatternNeeds.
Import Py Re Extractor Needs.

Lemma cls_within_in (ic : bool) (p : ascii -> bool) (cs : cls) (c : ascii) :
  cls_within ic p cs = true -> in_cls ic cs c = true -> p c = true.
Proof.
  unfold cls_within. rewrite forallb_forall. intros H Hc.
  specialize (H c (in_all_ascii c)). now rewrite Hc in H.
Qed.

Lemma sany_app (p : ascii -> bool) (a b : string) :
  sany p (a ++ b)%string = sany p a || sany p b.
Proof.
  induction a as [|c a IH]; simpl; trivial. now rewrite IH, orb_assoc.
Qed.

(** A pattern that needs a [p]-character consumes one. *)
Lemma needs_chr_consumed (ic : bool) (p : ascii -> bool) (r : re) :
  forall s s',
    needs_chr ic p r = true -> Matches ic r s s' ->
    exists n, span n s s' /\ sany p (take n (m_rest s)) = true.
Proof.
  induction r as
    [l|cs|cs lo hi|r1 IH1 r2 IH2|r1 IH1 r2 IH2|r1 IH1|r1 IH1|r1 IH1| |];
    intros s s'; simpl; try discriminate.
  - intros Hc (c & t & E & Hin & ->). exists 1. split.
    + unfold span, adv; simpl. rewrite E; simpl. repeat split; lia.
    + rewrite E. simpl. now rewrite (cls_within_in _ _ _ _ Hc Hin).
  - intros Hc (n & H & Hlo & _). apply andb_true_iff in Hc as [L Hc].
    destruct lo as [|lo]; [discriminate L|]. exists n. split; [apply (Run_span _ _ _ _ _ H)|].
    destruct H as [s|n s s' c t E Hin _]; [lia|].
    rewrite E. simpl. now rewrite (cls_within_in _ _ _ _ Hc Hin).
  - intros Hn (s1 & H1 & H2).
    destruct (Matches_span _ _ _ _ H1) as [n1 S1].
    destruct (Matches_span _ _ _ _ H2) as [n2 S2].
    apply orb_true_iff in Hn as [Hn|Hn].
    + destruct (IH1 _ _ Hn H1) as (n & Sn & Cn).
      exists (n + n2). split.
      * eapply span_trans; [exact Sn|].
        destruct Sn as (_ & P1 & _), S1 as (_ & P1' & _).
        assert (n = n1) as -> by lia. exact S2.
      * now rewrite take_add, sany_app, Cn.
    + destruct (IH2 _ _ Hn H2) as (n & Sn & Cn).
      exists (n1 + n). split.
      * eapply span_trans; eassumption.
      * rewrite take_add, sany_app. destruct S1 as (E & _).
        rewrite <- E, Cn. apply orb_true_r.
  - intros Hn [H|H]; apply andb_true_iff in Hn as [N1 N2]; eauto.
  - intros Hn (s1 & H1 & ->). destruct (IH1 _ _ Hn H1) as (n & Sn & Cn).
    exists n. split; trivial.
Qed.

Lemma search_needs_chr (ic : bool) (p : ascii -> bool) (r : re)
    (text : string) (g : option string) :
  needs_chr ic p r = true -> search ic r text = Some g ->
  sany p text = true.
Proof.
  unfold search. intros Hn.
  destruct (search_from ic r None 0 text) as [m|] eqn:E; try discriminate.
  intros _. apply search_from_sound in E as (k & pv & s' & H & _).
  destruct (needs_chr_consumed ic p r _ _ Hn H) as (n & _ & C).
  simpl in C. eapply sany_substring; [|exact C]. apply take_drop_substring.
Qed.

Lemma lit_starts (l : string) :
  forall s s', lit false l s = Some s' -> starts_with l (m_rest s) = true.
Proof.
  induction l as [|a l IH]; intros s s'; simpl; trivial.
  destruct (m_rest s) as [|c t] eqn:E; try discriminate.
  destruct (Ascii.eqb a c) eqn:Eac; try discriminate.
  intros H. apply IH in H. simpl in H. now rewrite H.
Qed.

(** A pattern that needs a literal only matches in a text that holds
    it. *)
Lemma needs_lit_contains (l : string) (text : string) (r : re) :
  forall s s',
    needs_lit l r = true -> Matches false r s s' ->
    (exists p, m_rest s = drop p text) ->
    contains l text = true.
Proof.
  induction r as
    [l'|cs|cs lo hi|r1 IH1 r2 IH2|r1 IH1 r2 IH2|r1 IH1|r1 IH1|r1 IH1| |];
    intros s s'; simpl; try discriminate.
  - intros E H [p Hp]. apply String.eqb_eq in E as ->.
    apply lit_starts in H. rewrite Hp in H.
    apply (contains_substring l (drop p text)).
    + exists (take p text), "".
      assert (N : forall u : string, (u ++ "")%string = u)
        by (induction u as [|c u IHu]; simpl; congruence).
      now rewrite N, take_drop.
    + destruct (drop p text); simpl in *; now rewrite H.
  - intros Hn (s1 & H1 & H2) Hp. apply orb_true_iff in Hn as [Hn|Hn].
    + eapply IH1; eassumption.
    + destruct (Matches_span _ _ _ _ H1) as [n Sn].
      eapply IH2; eauto using span_rest.
  - intros Hn [H|H] Hp; apply andb_true_iff in Hn as [N1 N2]; eauto.
  - intros Hn (s1 & H1 & ->) Hp. eauto.
Qed.

Lemma search_needs_lit (l : string) (r : re) (text : string)
    (g : option string) :
  needs_lit l r = true -> search false r text = Some g ->
  contains l text = true.
Proof.
  unfold search. intros Hn.
  destruct (search_from false r None 0 text) as [m|] eqn:E; try discriminate.
  intros _. apply search_from_sound in E as (k & pv & s' & H & _).
  eapply needs_lit_contains; try eassumption. simpl. eauto.
Qed.

End PatternNeeds.

Section Provenance.
Import Py Re Extractor Needs.

(** What the name loop stores was captured by one of its patterns and
    passed the blacklist and one of the two tests. *)
Lemma name_loop_origin (text : string) (ps : list re) :
  forallb has_grp ps = true ->
  exists o,
    (forall d, name_loop ps text d = (Val tt, assigned set_Name o d)) /\
    (forall v, o = Some v ->
       exists p g,
         In p ps /\ search false p text = Some (Some g) /\ v = strip g /\
         (valid_name v = true \/ potential_name v = true)).
Proof.
  induction ps as [|p ps IH]; simpl; intros Hg.
  - exists None. split; [reflexivity|discriminate].
  - apply andb_true_iff in Hg as [Hp Hps].
    destruct (IH Hps) as (o & Ho & Hb).
    assert (Later : forall v, o = Some v ->
              exists p' g,
                (p = p' \/ In p' ps) /\
                search false p' text = Some (Some g) /\ v = strip g /\
                (valid_name v = true \/ potential_name v = true)).
    { intros v Hv. destruct (Hb v Hv) as (p' & g & H1 & H2). eauto. }
    destruct (search false p text) as [g|] eqn:E; [|eauto].
    destruct g as [g|]; [|exfalso; exact (search_has_grp _ _ _ _ Hp E eq_refl)].
    unfold bind, lift, store; simpl.
    destruct (blacklisted (strip g)) eqn:B; [eauto|].
    destruct (valid_name (strip g)) eqn:V.
    { exists (Some (strip g)). split; [reflexivity|].
      intros v [= <-]. exists p, g. auto. }
    destruct (potential_name (strip g)) eqn:P; [|eauto].
    destruct o as [v|].
    + exists (Some v). split; [|exact Later]. intros d. now rewrite Ho.
    + exists (Some (strip g)). split.
      * intros d. now rewrite Ho.
      * intros v [= <-]. exists p, g. auto.
Qed.

Lemma dob_loop_origin (text : string) (ps : list re) :
  forallb has_grp ps = true ->
  exists o,
    (forall d, dob_loop ps text d = (Val tt, assigned set_Date_of_birth o d)) /\
    (forall v, o = Some v ->
       exists p g,
         In p ps /\ search true p text = Some (Some g) /\ v = strip g).
Proof.
  induction ps as [|p ps IH]; simpl; intros Hg.
  - exists None. split; [reflexivity|discriminate].
  - apply andb_true_iff in Hg as [Hp Hps].
    destruct (IH Hps) as (o & Ho & Hb).
    destruct (search true p text) as [g|] eqn:E.
    + destruct g as [g|];
        [|exfalso; exact (search_has_grp _ _ _ _ Hp E eq_refl)].
      unfold bind, lift, store; simpl. exists (Some (strip g)).
      split; [reflexivity|]. intros v [= <-]. exists p, g. auto.
    + exists o. split; trivial. intros v Hv.
      destruct (Hb v Hv) as (p' & g & H1 & H2). eauto.
Qed.

Lemma id_loop_origin (text : string) (ps : list re) :
  forallb has_grp ps = true ->
  exists o,
    (forall d, id_loop ps text d = (Val tt, assigned set_ID_Number o d)) /\
    (forall v, o = Some v ->
       exists p g,
         In p ps /\ search false p text = Some (Some g) /\ v = strip_sep g).
Proof.
  induction ps as [|p ps IH]; simpl; intros Hg.
  - exists None. split; [reflexivity|discriminate].
  - apply andb_true_iff in Hg as [Hp Hps].
    destruct (IH Hps) as (o & Ho & Hb).
    assert (Later : forall v, o = Some v ->
              exists p' g,
                (p = p' \/ In p' ps) /\
                search false p' text = Some (Some g) /\ v = strip_sep g).
    { intros v Hv. destruct (Hb v Hv) as (p' & g & H1 & H2). eauto. }
    destruct (search false p text) as [g|] eqn:E; [|eauto].
    destruct g as [g|]; [|exfalso; exact (search_has_grp _ _ _ _ Hp E eq_refl)].
    unfold bind, lift, store; simpl.
    destruct (canonical (strip_sep g)).
    { exists (Some (strip_sep g)). split; [reflexivity|].
      intros v [= <-]. exists p, g. auto. }
    destruct o as [v|].
    + exists (Some v). split; [|exact Later]. intros d. now rewrite Ho.
    + exists (Some (strip_sep g)). split.
      * intros d. now rewrite Ho.
      * intros v [= <-]. exists p, g. auto.
Qed.

Lemma assigned_value (set : string -> nid_data -> nid_data)
    (get : nid_data -> string) (o o' : option string) :
  (forall v d, get (set v d) = v) ->
  assigned set o nid_init = assigned set o' nid_init ->
  get nid_init = "" ->
  value_of o = value_of o' \/
  (o = None /\ o' = Some "") \/ (o = Some "" /\ o' = None).
Proof.
  intros Hgs E H0.
  destruct o as [v|], o' as [v'|]; simpl in *; auto.
  - left. rewrite <- (Hgs v nid_init), E. apply Hgs.
  - right. right. split; trivial. rewrite <- (Hgs v nid_init), E.
    now rewrite H0.
  - right. left. split; trivial. rewrite <- (Hgs v' nid_init), <- E.
    now rewrite H0.
Qed.

(** Where the three values of a result come from. *)
Lemma fields_origin (text : string) :
  let r := snd (extract_fields text nid_init) in
  (Name r = "" \/
   exists p g,
     In p name_patterns /\ search false p text = Some (Some g) /\
     Name r = strip g /\
     (valid_name (Name r) = true \/ potential_name (Name r) = true)) /\
  (Date_of_birth r = "" \/
   exists p g,
     In p dob_patterns /\ search true p text = Some (Some g) /\
     Date_of_birth r = strip g) /\
  (ID_Number r = "" \/
   exists p g,
     In p id_patterns /\ search false p text = Some (Some g) /\
     ID_Number r = strip_sep g).
Proof.
  cbv zeta.
  destruct (extract_fields_result text) as (n & b & i & Hn & Hb & Hi & ->).
  destruct (name_loop_origin text _ name_patterns_grp) as (on & Hon & Pn).
  destruct (dob_loop_origin text _ dob_patterns_grp) as (ob & Hob & Pb).
  destruct (id_loop_origin text _ id_patterns_grp) as (oi & Hoi & Pi).
  cbn [Name Date_of_birth ID_Number].
  assert (En : assigned set_Name n nid_init = assigned set_Name on nid_init)
    by (specialize (Hn nid_init); specialize (Hon nid_init); congruence).
  assert (Eb : assigned set_Date_of_birth b nid_init
               = assigned set_Date_of_birth ob nid_init)
    by (specialize (Hb nid_init); specialize (Hob nid_init); congruence).
  assert (Ei : assigned set_ID_Number i nid_init
               = assigned set_ID_Number oi nid_init)
    by (specialize (Hi nid_init); specialize (Hoi nid_init); congruence).
  split; [|split].
  - destruct (assigned_value set_Name Name n on (fun _ _ => eq_refl) En eq_refl)
      as [E|[[-> _]|[-> _]]]; auto.
    rewrite E. destruct on as [v|]; [right|now left].
    destruct (Pn v eq_refl) as (p & g & H1 & H2 & H3 & H4). simpl. eauto 6.
  - destruct (assigned_value set_Date_of_birth Date_of_birth b ob
                (fun _ _ => eq_refl) Eb eq_refl)
      as [E|[[-> _]|[-> _]]]; auto.
    rewrite E. destruct ob as [v|]; [right|now left].
    destruct (Pb v eq_refl) as (p & g & H1 & H2 & H3). simpl. eauto.
  - destruct (assigned_value set_ID_Number ID_Number i oi
                (fun _ _ => eq_refl) Ei eq_refl)
      as [E|[[-> _]|[-> _]]]; auto.
    rewrite E. destruct oi as [v|]; [right|now left].
    destruct (Pi v eq_refl) as (p & g & H1 & H2 & H3). simpl. eauto.
Qed.

End Provenance.

Section Stripped.
Import Py.

Lemma rstrip_rstrip (s : string) : rstrip (rstrip s) = rstrip s.
Proof.
  induction s as [|c t IH]; [reflexivity|].
  cbn [rstrip]. destruct (rstrip t) as [|a t'] eqn:E.
  - destruct (is_space c) eqn:Hc; [reflexivity|].
    cbn [rstrip]. now rewrite Hc.
  - change (rstrip (String c (String a t')))
      with (match rstrip (String a t') with
            | EmptyString => if is_space c then EmptyString
                             else String c EmptyString
            | t'' => String c t''
            end).
    rewrite IH. reflexivity.
Qed.

Lemma rstrip_head (c : ascii) (t : string) :
  is_space c = false -> exists t', rstrip (String c t) = String c t'.
Proof.
  intros Hc. cbn [rstrip]. destruct (rstrip t) as [|a t'].
  - rewrite Hc. eauto.
  - eauto.
Qed.

Lemma lstrip_head (s : string) :
  lstrip s = "" \/
  exists c t, lstrip s = String c t /\ is_space c = false.
Proof.
  induction s as [|c t IH]; [now left|].
  cbn [lstrip]. destruct (is_space c) eqn:Hc; [exact IH|].
  right. eauto.
Qed.

Lemma strip_strip (s : string) : strip (strip s) = strip s.
Proof.
  unfold strip. destruct (lstrip_head s) as [->|(c & t & -> & Hc)].
  - reflexivity.
  - destruct (rstrip_head c t Hc) as (t' & E). rewrite E.
    cbn [lstrip]. rewrite Hc, <- E. apply rstrip_rstrip.
Qed.

Lemma sall_strip (p : ascii -> bool) (s : string) :
  sall p s = true -> sall p (strip s) = true.
Proof. apply sall_substring, strip_substring. Qed.

Lemma sall_not_sany (p q : ascii -> bool) (s : string) :
  (forall c, p c = true -> q c = false) ->
  sall p s = true -> sany q s = false.
Proof.
  intros H. induction s as [|c t IH]; simpl; [reflexivity|].
  intros A. apply andb_true_iff in A as [A1 A2].
  now rewrite (H c A1), (IH A2).
Qed.

End Stripped.

Section FieldShapes.
Import Py Re Extractor Needs.

Lemma name_patterns_chars : forallb (grp_only name_char) name_patterns = true.
Proof. vm_compute. reflexivity. Qed.

Lemma name_char_no_digit (c : ascii) : name_char c = true -> is_digit c = false.
Proof.
  assert (A : forallb (fun c => implb (name_char c) (negb (is_digit c)))
                all_ascii = true) by (vm_compute; reflexivity).
  intros H. rewrite forallb_forall in A. specialize (A c (in_all_ascii c)).
  rewrite H in A. simpl in A. now destruct (is_digit c).
Qed.

Lemma name_patterns_label :
  forallb (fun p => needs_lit "Name" p || needs_lit "M" p) name_patterns = true.
Proof. vm_compute. reflexivity. Qed.

Lemma dob_patterns_digit :
  forallb (needs_chr true is_digit) dob_patterns = true.
Proof. vm_compute. reflexivity. Qed.

Lemma id_patterns_digit :
  forallb (needs_chr false is_digit) id_patterns = true.
Proof. vm_compute. reflexivity. Qed.

Lemma accepted_length (v : string) :
  valid_name v = true \/ potential_name v = true -> 4 <= String.length v.
Proof.
  unfold valid_name, potential_name. intros [H|H].
  - apply andb_true_iff in H as [_ H]. apply andb_true_iff in H as [H _].
    now apply Nat.leb_le in H.
  - apply andb_true_iff in H as [H _]. apply Nat.ltb_lt in H. lia.
Qed.

(** X1. Whatever [extract_nid_fields] is given and whatever the reader
    answers, the Name of the result is made of ASCII letters, white
    space and full stops only; it therefore holds no digit; and it is
    empty or at least four characters long. *)
Theorem name_shape (w : world) (img : image) :
  let name := Name (extract_nid_fields w img) in
  sall name_char name = true /\
  sany is_digit name = false /\
  (name = "" \/ 4 <= String.length name).
Proof.
  cbv zeta.
  assert (A : sall name_char (Name (extract_nid_fields w img)) = true /\
              (Name (extract_nid_fields w img) = "" \/
               4 <= String.length (Name (extract_nid_fields w img)))).
  { destruct (extract_cases w img) as [[_ [msg ->]]|[_ (text & _ & ->)]].
    - split; [reflexivity|now left].
    - destruct (fields_origin text) as [[->|(p & g & I & S & E & V)] _].
      + split; [reflexivity|now left].
      + split; [|right; now apply accepted_length].
        rewrite E. apply sall_strip.
        apply (search_grp_only name_char p text g); trivial.
        pose proof name_patterns_chars as C. rewrite forallb_forall in C.
        now apply C. }
  destruct A as [A B]. repeat split; trivial.
  exact (sall_not_sany name_char is_digit _ name_char_no_digit A).
Qed.

(** X2. The values come out of the recognised text: Name, Date of
    birth and the full text are contiguous pieces of it, and the ID
    Number is a contiguous piece of it with white space and dashes
    removed. *)
Theorem fields_from_text (w : world) (img : image) (text : string) :
  reads w img text ->
  let r := extract_nid_fields w img in
  substring_of (Name r) text /\
  substring_of (Date_of_birth r) text /\
  substring_of (Full_extracted_text r) text /\
  exists g, substring_of g text /\ ID_Number r = strip_sep g.
Proof.
  intros R. cbv zeta. rewrite (extract_reads _ _ _ R).
  assert (N : substring_of "" text) by (exists "", text; reflexivity).
  assert (T : forall p g ic, search ic p text = Some (Some g) ->
                substring_of (strip g) text).
  { intros p g ic S. eapply substring_trans; [apply strip_substring|].
    exact (search_substring _ _ _ _ S). }
  destruct (fields_origin text)
    as ([En|(p & g & _ & S & En & _)] & [Eb|(p' & g' & _ & S' & Eb)]
        & [Ei|(p'' & g'' & _ & S'' & Ei)]);
    rewrite En, Eb; (split; [eauto|]); (split; [eauto|]);
    (split;
     [destruct (extract_fields_result text) as (n & b & i & _ & _ & _ & ->);
      apply strip_substring|]).
  all: first [ exists g''; split;
               [exact (search_substring _ _ _ _ S'')|exact Ei]
             | exists ""; split; [exact N|exact Ei] ].
Qed.

Lemma fields_from_text_witness :
  let text := "Name: JOHN SMITH DOB 05-Jan-1990 ID NO: 1234567890123" in
  let r := extract_nid_fields (world_of (one_block text)) ImgArray in
  substring_of (Name r) text /\
  substring_of (Date_of_birth r) text /\
  substring_of (Full_extracted_text r) text /\
  exists g, substring_of g text /\ ID_Number r = strip_sep g.
Proof.
  exact (fields_from_text _ _ _ (reads_one_block _)).
Defined.

(** X3. The name patterns are case sensitive and all start from a
    label: a text with neither the word "Name" nor a capital M yields
    no Name. *)
Theorem name_needs_label (w : world) (img : image) (text : string) :
  reads w img text ->
  contains "Name" text = false ->
  contains "M" text = false ->
  Name (extract_nid_fields w img) = "".
Proof.
  intros R H1 H2. rewrite (extract_reads _ _ _ R).
  destruct (fields_origin text) as [[E|(p & g & I & S & _)] _]; [exact E|].
  exfalso. pose proof name_patterns_label as L.
  rewrite forallb_forall in L. specialize (L p I).
  apply orb_true_iff in L as [L|L].
  - rewrite (search_needs_lit _ _ _ _ L S) in H1. discriminate.
  - rewrite (search_needs_lit _ _ _ _ L S) in H2. discriminate.
Qed.

Lemma name_needs_label_witness :
  Name (extract_nid_fields
          (world_of (one_block "name: JOHN DOE md. abdul karim"))
          ImgArray) = "".
Proof.
  apply (name_needs_label _ _ "name: JOHN DOE md. abdul karim").
  - apply reads_one_block.
  - vm_compute. reflexivity.
  - vm_compute. reflexivity.
Defined.

(** X4. A text without a digit yields neither a Date of birth nor an
    ID Number. *)
Theorem no_digit_no_date_no_id (w : world) (img : image) (text : string) :
  reads w img text ->
  sany is_digit text = false ->
  Date_of_birth (extract_nid_fields w img) = "" /\
  ID_Number (extract_nid_fields w img) = "".
Proof.
  intros R H. rewrite (extract_reads _ _ _ R).
  destruct (fields_origin text) as (_ & B & I). split.
  - destruct B as [E|(p & g & In_p & S & _)]; [exact E|]. exfalso.
    pose proof dob_patterns_digit as L. rewrite forallb_forall in L.
    rewrite (search_needs_chr _ _ _ _ _ (L p In_p) S) in H. discriminate.
  - destruct I as [E|(p & g & In_p & S & _)]; [exact E|]. exfalso.
    pose proof id_patterns_digit as L. rewrite forallb_forall in L.
    rewrite (search_needs_chr _ _ _ _ _ (L p In_p) S) in H. discriminate.
Qed.

Lemma no_digit_no_date_no_id_witness :
  let w := world_of (one_block "Name: JOHN SMITH Date of Birth: unknown") in
  Date_of_birth (extract_nid_fields w ImgArray) = "" /\
  ID_Number (extract_nid_fields w ImgArray) = "".
Proof.
  apply (no_digit_no_date_no_id _ _ "Name: JOHN SMITH Date of Birth: unknown").
  - apply reads_one_block.
  - vm_compute. reflexivity.
Defined.

Lemma strip_digits (v : string) : sall is_digit v = true -> strip v = v.
Proof.
  assert (D : forall c, is_digit c = true -> is_space c = false).
  { assert (A : forallb (fun c => implb (is_digit c) (negb (is_space c)))
                  all_ascii = true) by (vm_compute; reflexivity).
    intros c H. rewrite forallb_forall in A.
    specialize (A c (in_all_ascii c)). rewrite H in A. simpl in A.
    now destruct (is_space c). }
  assert (R : forall s, sall is_digit s = true -> rstrip s = s).
  { induction s as [|c t IH]; [reflexivity|]. simpl sall. intros H.
    apply andb_true_iff in H as [H1 H2]. cbn [rstrip]. rewrite (IH H2).
    destruct t; [now rewrite (D c H1)|reflexivity]. }
  intros H. unfold strip. destruct v as [|c t]; [reflexivity|].
  pose proof H as H'. simpl sall in H'.
  apply andb_true_iff in H' as [H1 _].
  cbn [lstrip]. rewrite (D c H1). now apply R.
Qed.

(** X5. The values of a result carry no white space at either end:
    the [strip()] that [process_image] applies to the Name and to the
    Date of birth before comparing them changes nothing. *)
Theorem fields_stripped (w : world) (img : image) :
  let r := extract_nid_fields w img in
  strip (Name r) = Name r /\
  strip (Date_of_birth r) = Date_of_birth r /\
  strip (ID_Number r) = ID_Number r /\
  strip (Full_extracted_text r) = Full_extracted_text r.
Proof.
  cbv zeta.
  destruct (extract_cases w img) as [[_ [msg ->]]|[_ (text & _ & ->)]].
  - repeat split.
  - destruct (fields_origin text) as (N & B & I).
    split; [|split; [|split]].
    + destruct N as [->|(p & g & _ & _ & -> & _)];
        [reflexivity|apply strip_strip].
    + destruct B as [->|(p & g & _ & _ & ->)];
        [reflexivity|apply strip_strip].
    + destruct I as [->|(p & g & In_p & S & ->)]; [reflexivity|].
      apply strip_digits, strip_sep_digits.
      apply (search_grp_only digit_or_sep p text g); trivial.
      pose proof id_patterns_digits as C. rewrite forallb_forall in C.
      now apply C.
    + destruct (extract_fields_result text) as (n & b & i & _ & _ & _ & ->).
      apply strip_strip.
Qed.

End FieldShapes.

Section Entries.
Import Py Re Extractor Needs.

Lemma join_items_stops (pre post : list pyobj) (o : pyobj) (i : nat) :
  forallb is_str pre = true -> is_str o = false ->
  join_items i (pre ++ o :: post)%list
  = Exn ("sequence item " ++ nat_to_string (i + List.length pre)
         ++ ": expected str instance, " ++ type_name o ++ " found").
Proof.
  revert i. induction pre as [|x pre IH]; intros i Hp Ho.
  - rewrite Nat.add_0_r. destruct o; try reflexivity. discriminate Ho.
  - simpl in Hp. apply andb_true_iff in Hp as [Hx Hp].
    destruct x; try discriminate Hx.
    cbn [app join_items List.length]. rewrite (IH (S i) Hp Ho).
    now rewrite Nat.add_succ_r.
Qed.

Lemma block_of_skipped (o : pyobj) : skipped o -> block_of o = None.
Proof.
  unfold skipped, block_of. destruct (py_len o) as [n|msg]; [|reflexivity].
  intros H. destruct (Nat.leb_spec 2 n); [lia|reflexivity].
Qed.

Lemma collect_blocks_app (l l' : list pyobj) :
  collect_blocks (l ++ l')%list
  = (collect_blocks l ++ collect_blocks l')%list.
Proof.
  induction l as [|x l IH]; [reflexivity|].
  cbn [app collect_blocks]. destruct (block_of x); [|exact IH].
  cbn [app]. now rewrite IH.
Qed.

Lemma collect_blocks_skipped (results : list pyobj) :
  Forall skipped results -> collect_blocks results = [].
Proof.
  induction 1 as [|x l Hx _ IH]; [reflexivity|].
  cbn [collect_blocks]. now rewrite (block_of_skipped x Hx).
Qed.

Lemma extract_nonempty (w : world) (img : image) (results : list pyobj) :
  supported w img = true -> get_reader w = Val tt ->
  readtext w img = Val results -> results <> [] ->
  extract_nid_fields w img
  = match extract_from_results results nid_init with
    | (Val _, d) => d
    | (Exn msg, d) => set_error ("OCR processing failed: " ++ msg) d
    end.
Proof.
  intros S G R N. unfold extract_nid_fields, try_body.
  assert (E : match img with
              | ImgPath path =>
                  if path_exists w path then None
                  else Some "Image file not found"
              | ImgArray => None
              | ImgOther => Some "Unsupported image format"
              end = None).
  { destruct img as [path| |]; simpl in S |- *;
      [now rewrite S|reflexivity|discriminate S]. }
  cbv zeta. rewrite E, G, R. destruct results; [now elim N|reflexivity].
Qed.

(** X6. A text item that is not a string makes the joining of the
    blocks fail: the result then has four empty values, the full text
    included, and the error names the position and the type of the
    first such item, as the interpreter words it. *)
Theorem join_type_error (w : world) (img : image)
    (results pre post : list pyobj) (o : pyobj) :
  supported w img = true -> get_reader w = Val tt ->
  readtext w img = Val results ->
  collect_blocks results = (pre ++ o :: post)%list ->
  forallb is_str pre = true -> is_str o = false ->
  extract_nid_fields w img
  = NidData "" "" "" ""
      (Some ("OCR processing failed: sequence item "
             ++ nat_to_string (List.length pre)
             ++ ": expected str instance, " ++ type_name o ++ " found")).
Proof.
  intros S G R C Hp Ho.
  assert (N : results <> []).
  { intros ->. simpl in C. now destruct pre. }
  rewrite (extract_nonempty w img results S G R N).
  unfold extract_from_results, py_join, bind, lift.
  rewrite C, (join_items_stops pre post o 0 Hp Ho). reflexivity.
Qed.

Lemma join_type_error_witness :
  extract_nid_fields
    (world_of [PList [PNone; PStr "Name: JOHN SMITH"]; PTuple [PNone; PInt 7]])
    ImgArray
  = NidData "" "" "" ""
      (Some "OCR processing failed: sequence item 1: expected str instance, int found").
Proof.
  apply (join_type_error _ ImgArray
           [PList [PNone; PStr "Name: JOHN SMITH"]; PTuple [PNone; PInt 7]]
           [PStr "Name: JOHN SMITH"] [] (PInt 7));
    reflexivity.
Defined.

(** X7. An entry of the recognition result that has no length or
    fewer than two items is passed over: leaving it out of the result
    list changes nothing, as long as other entries remain. *)
Theorem skipped_entry_ignored (w : world) (img : image)
    (pre post : list pyobj) (o : pyobj) :
  skipped o ->
  (pre ++ post)%list <> [] ->
  extract_nid_fields (answering w (pre ++ o :: post)%list) img
  = extract_nid_fields (answering w (pre ++ post)%list) img.
Proof.
  intros Ho N.
  assert (C : collect_blocks (pre ++ o :: post)%list
              = collect_blocks (pre ++ post)%list).
  { rewrite !collect_blocks_app. cbn [collect_blocks].
    now rewrite (block_of_skipped o Ho). }
  unfold extract_nid_fields.
  destruct (match img with
            | ImgPath path =>
                if path_exists (answering w (pre ++ o :: post)%list) path
                then None else Some "Image file not found"
            | ImgArray => None
            | ImgOther => Some "Unsupported image format"
            end) eqn:E.
  - assert (E' : match img with
            | ImgPath path =>
                if path_exists (answering w (pre ++ post)%list) path
                then None else Some "Image file not found"
            | ImgArray => None
            | ImgOther => Some "Unsupported image format"
            end = Some s) by exact E.
    now rewrite E'.
  - assert (E' : match img with
            | ImgPath path =>
                if path_exists (answering w (pre ++ post)%list) path
                then None else Some "Image file not found"
            | ImgArray => None
            | ImgOther => Some "Unsupported image format"
            end = None) by exact E.
    rewrite E'. unfold try_body. cbn [get_reader readtext answering].
    destruct (get_reader w); [|reflexivity].
    assert (N' : (pre ++ o :: post)%list <> []) by now destruct pre.
    destruct (pre ++ o :: post)%list as [|x1 l1] eqn:A1; [now elim N'|].
    destruct (pre ++ post)%list as [|x2 l2] eqn:A2; [now elim N|].
    unfold extract_from_results. now rewrite C.
Qed.

Lemma skipped_entry_ignored_witness :
  extract_nid_fields
    (answering (world_of [])
       ([PList [PNone; PStr "Name: JOHN SMITH"]] ++ PInt 7 :: [])%list)
    ImgArray
  = extract_nid_fields
      (answering (world_of [])
         ([PList [PNone; PStr "Name: JOHN SMITH"]] ++ [])%list)
      ImgArray.
Proof.
  apply (skipped_entry_ignored (world_of []) ImgArray
           [PList [PNone; PStr "Name: JOHN SMITH"]] [] (PInt 7)).
  - exact I.
  - intros H. discriminate H.
Defined.

(** X8. A recognition result that is not empty but consists of such
    entries only gives four empty values and no error, unlike the
    empty result. *)
Theorem only_skipped_entries (w : world) (img : image)
    (results : list pyobj) :
  supported w img = true -> get_reader w = Val tt ->
  readtext w img = Val results ->
  results <> [] -> Forall skipped results ->
  extract_nid_fields w img = NidData "" "" "" "" None.
Proof.
  intros S G R N F.
  rewrite (extract_nonempty w img results S G R N).
  unfold extract_from_results, py_join, bind, lift.
  rewrite (collect_blocks_skipped results F). vm_compute. reflexivity.
Qed.

Lemma only_skipped_entries_witness :
  extract_nid_fields (world_of [PNone; PList [PStr "Name: JOHN SMITH"]])
    ImgArray
  = NidData "" "" "" "" None.
Proof.
  apply (only_skipped_entries _ ImgArray
           [PNone; PList [PStr "Name: JOHN SMITH"]]);
    try reflexivity.
  - intros H. discriminate H.
  - repeat constructor.
Defined.

End Entries.

(** * Properties of [utils.py] *)

Section AllowedFile.
Import Py Extractor Utils.

Lemma contains_dot (c : ascii) (t : string) :
  contains "." (String c t) = Ascii.eqb "." c || contains "." t.
Proof. cbn [contains starts_with]. now rewrite andb_true_r. Qed.

Lemma rsplit1_cases (s : string) :
  (contains "." s = false /\ rsplit1 "." s = [s]) \/
  (contains "." s = true /\
   exists stem ext,
     rsplit1 "." s = [stem; ext] /\ s = (stem ++ "." ++ ext)%string /\
     contains "." ext = false).
Proof.
  induction s as [|c t IH]; [left; split; reflexivity|].
  rewrite contains_dot. cbn [rsplit1].
  destruct IH as [[N E]|[D (stem & ext & E & S & X)]].
  - rewrite E, N, orb_false_r, Ascii.eqb_sym.
    destruct (Ascii.eqb_spec c ".") as [->|_].
    + right. split; [reflexivity|]. exists "", t. auto.
    + left. auto.
  - rewrite E, D, orb_true_r. right. split; [reflexivity|].
    exists (String c stem), ext. rewrite S at 1. auto.
Qed.

Lemma rsplit1_at (stem ext : string) :
  contains "." ext = false ->
  rsplit1 "." (stem ++ "." ++ ext) = [stem; ext] /\
  contains "." (stem ++ "." ++ ext) = true.
Proof.
  intros X. induction stem as [|c stem [IH1 IH2]].
  - split; [|reflexivity]. cbn [append rsplit1].
    destruct (rsplit1_cases ext) as [[_ ->]|[D _]]; [reflexivity|congruence].
  - split.
    + change (String c stem ++ "." ++ ext)%string
        with (String c (stem ++ "." ++ ext)).
      cbn [rsplit1]. now rewrite IH1.
    + change (String c stem ++ "." ++ ext)%string
        with (String c (stem ++ "." ++ ext)).
      now rewrite contains_dot, IH2, orb_true_r.
Qed.

Lemma mem_In (x : string) (s : list string) : mem x s = true <-> In x s.
Proof.
  unfold mem. rewrite existsb_exists. split.
  - intros (y & I & E). apply String.eqb_eq in E. now subst.
  - intros I. exists x. split; [exact I|apply String.eqb_refl].
Qed.

Lemma allowed_file_returns (filename : string) :
  exists b, allowed_file filename = Val b.
Proof.
  unfold allowed_file.
  destruct (rsplit1_cases filename) as [[N E]|[D (stem & ext & E & _)]].
  - rewrite N. eauto.
  - rewrite D, E. cbn [item1]. eauto.
Qed.

(** X9. [allowed_file] never raises: the test for a dot makes the
    index safe.  It answers true exactly when the name ends in a dot
    followed by png, jpg or jpeg in any mix of cases; only what follows
    the last dot counts, and what precedes it may be anything, the
    empty string included. *)
Theorem allowed_file_spec (filename : string) :
  exists b,
    allowed_file filename = Val b /\
    (b = true <->
     exists stem ext,
       filename = (stem ++ "." ++ ext)%string /\
       contains "." ext = false /\
       In (lower ext) ALLOWED_EXTENSIONS).
Proof.
  unfold allowed_file.
  destruct (rsplit1_cases filename) as [[N E]|[D (stem & ext & E & S & X)]].
  - rewrite N. exists false. split; [reflexivity|]. split; [discriminate|].
    intros (stem & ext & S & X & _). subst filename.
    destruct (rsplit1_at stem ext X) as [_ C]. congruence.
  - rewrite D, E. cbn [item1].
    exists (mem (lower ext) ALLOWED_EXTENSIONS). split; [reflexivity|].
    rewrite mem_In. split.
    + intros I. exists stem, ext. auto.
    + intros (stem' & ext' & S' & X' & I).
      destruct (rsplit1_at stem' ext' X') as [E' _].
      rewrite <- S', E in E'. now injection E' as _ ->.
Qed.

Lemma lower_char_dot (c : ascii) :
  Ascii.eqb (lower_char c) "." = Ascii.eqb c ".".
Proof.
  assert (A : forallb (fun c => Bool.eqb (Ascii.eqb (lower_char c) ".")
                                          (Ascii.eqb c "."))
                all_ascii = true) by (vm_compute; reflexivity).
  rewrite forallb_forall in A. specialize (A c (in_all_ascii c)).
  now apply Bool.eqb_prop in A.
Qed.

Lemma lower_char_twice (c : ascii) : lower_char (lower_char c) = lower_char c.
Proof.
  assert (A : forallb (fun c => Ascii.eqb (lower_char (lower_char c))
                                          (lower_char c))
                all_ascii = true) by (vm_compute; reflexivity).
  rewrite forallb_forall in A. specialize (A c (in_all_ascii c)).
  now apply Ascii.eqb_eq in A.
Qed.

Lemma lower_twice (s : string) : lower (lower s) = lower s.
Proof.
  induction s as [|c t IH]; [reflexivity|].
  unfold lower in *. cbn [smap]. now rewrite lower_char_twice, IH.
Qed.

Lemma contains_dot_lower (s : string) :
  contains "." (lower s) = contains "." s.
Proof.
  induction s as [|c t IH]; [reflexivity|].
  change (lower (String c t)) with (String (lower_char c) (lower t)).
  rewrite !contains_dot, IH.
  now rewrite (Ascii.eqb_sym "." (lower_char c)), lower_char_dot,
    (Ascii.eqb_sym "." c).
Qed.

Lemma rsplit1_lower (s : string) :
  rsplit1 "." (lower s) = map lower (rsplit1 "." s).
Proof.
  induction s as [|c t IH]; [reflexivity|].
  change (lower (String c t)) with (String (lower_char c) (lower t)).
  cbn [rsplit1]. rewrite IH, lower_char_dot.
  destruct (rsplit1 "." t) as [|a [|b [|x l]]]; cbn [map];
    try (destruct (Ascii.eqb c "."); reflexivity).
Qed.

(** X10. The case of the letters of a name plays no role for
    [allowed_file]. *)
Theorem allowed_file_lower (filename : string) :
  allowed_file (lower filename) = allowed_file filename.
Proof.
  unfold allowed_file. rewrite contains_dot_lower, rsplit1_lower.
  destruct (rsplit1 "." filename) as [|a [|b l]]; cbn [map item1];
    try reflexivity.
  now rewrite lower_twice.
Qed.

End AllowedFile.

Section DecoratorFacts.
Import Py Extractor Utils.

Variable AUTH_TOKEN : string.
Variable RATE_LIMIT : Z.
Variable RATE_LIMIT_WINDOW : Z.

Lemma client_eqb_refl (k : client) : client_eqb k k = true.
Proof. destruct k as [s|]; [apply String.eqb_refl|reflexivity]. Qed.

Lemma client_eqb_eq (a b : client) : client_eqb a b = true -> a = b.
Proof.
  destruct a as [x|], b as [y|]; simpl; try discriminate; trivial.
  intros E. apply String.eqb_eq in E. now subst.
Qed.

Lemma bounded_clean (n : nat) (now : spec_float) (h : history) :
  bounded n h -> bounded n (clean_old RATE_LIMIT_WINDOW now h).
Proof.
  unfold bounded, clean_old. induction 1 as [|[k ts] h Hk _ IH];
    cbn [map]; constructor; trivial.
  cbn [snd] in *. pose proof (filter_length_le (recent RATE_LIMIT_WINDOW now) ts).
  lia.
Qed.

Lemma bounded_get (n : nat) (h : history) (k : client) :
  bounded n h -> List.length (history_get h k) <= n.
Proof.
  unfold bounded. induction 1 as [|[k' ts] h Hk _ IH]; cbn [history_get].
  - simpl. lia.
  - destruct (client_eqb k' k); trivial.
Qed.

Lemma bounded_set (n : nat) (h : history) (k : client) (ts : list spec_float) :
  bounded n h -> List.length ts <= n -> bounded n (history_set k ts h).
Proof.
  unfold bounded. intros H L. induction H as [|[k' old] h Hk Hh IH];
    cbn [history_set].
  - repeat constructor. exact L.
  - destruct (client_eqb k' k); constructor; trivial.
Qed.

Lemma within_limit_bounded (req : request) (h : history) :
  bounded (Z.to_nat RATE_LIMIT) h ->
  bounded (Z.to_nat RATE_LIMIT)
    (snd (within_limit RATE_LIMIT RATE_LIMIT_WINDOW req h)).
Proof.
  intros B. unfold within_limit. cbv zeta.
  pose proof (bounded_clean _ (time_time req) h B) as C.
  destruct (Z.leb_spec RATE_LIMIT
              (Z.of_nat (List.length
                 (history_get (clean_old RATE_LIMIT_WINDOW (time_time req) h)
                    (client_id req)))));
    cbn [snd]; trivial.
  apply bounded_set; trivial. rewrite length_app. simpl. lia.
Qed.

Lemma limiter_bounded (reqs : list request) (h : history) :
  bounded (Z.to_nat RATE_LIMIT) h ->
  bounded (Z.to_nat RATE_LIMIT)
    (snd (limiter RATE_LIMIT RATE_LIMIT_WINDOW reqs h)).
Proof.
  revert h. induction reqs as [|req reqs IH]; intros h B; [exact B|].
  cbn [limiter]. pose proof (within_limit_bounded req h B) as B'.
  destruct (within_limit RATE_LIMIT RATE_LIMIT_WINDOW req h) as [ok h'].
  specialize (IH h' B').
  destruct (limiter RATE_LIMIT RATE_LIMIT_WINDOW reqs h') as [oks h''].
  exact IH.
Qed.

Lemma clients_clean (now : spec_float) (h : history) :
  clients (clean_old RATE_LIMIT_WINDOW now h) = clients h.
Proof.
  unfold clients, clean_old. rewrite map_map. apply map_ext.
  now intros [k ts].
Qed.

Lemma clients_set (k : client) (ts : list spec_float) (h : history) :
  exists more, clients (history_set k ts h) = (clients h ++ more)%list.
Proof.
  induction h as [|[k' old] h [more IH]]; cbn [history_set].
  - exists [k]. reflexivity.
  - destruct (client_eqb k' k).
    + exists []. cbn [clients map fst]. now rewrite app_nil_r.
    + exists more. cbn [clients map fst app]. unfold clients in IH.
      now rewrite IH.
Qed.

Lemma within_limit_clients (req : request) (h : history) :
  exists more,
    clients (snd (within_limit RATE_LIMIT RATE_LIMIT_WINDOW req h))
    = (clients h ++ more)%list.
Proof.
  unfold within_limit. cbv zeta.
  destruct (RATE_LIMIT <=? _)%Z; cbn [snd].
  - exists []. now rewrite clients_clean, app_nil_r.
  - destruct (clients_set (client_id req)
                (history_get (clean_old RATE_LIMIT_WINDOW (time_time req) h)
                   (client_id req) ++ [time_time req])%list
                (clean_old RATE_LIMIT_WINDOW (time_time req) h)) as [more E].
    exists more. now rewrite E, clients_clean.
Qed.

End DecoratorFacts.

Section Decorated.
Import Py Extractor Utils.


(** X12. However many requests arrive, from whichever clients and at
    whatever clock readings, no list of [request_history] grows beyond
    [RATE_LIMIT] readings. *)
Theorem history_bounded (RATE_LIMIT RATE_LIMIT_WINDOW : Z)
    (reqs : list request) (h : history) :
  bounded (Z.to_nat RATE_LIMIT) h ->
  bounded (Z.to_nat RATE_LIMIT)
    (snd (limiter RATE_LIMIT RATE_LIMIT_WINDOW reqs h)).
Proof. apply limiter_bounded. Qed.

Lemma history_bounded_witness :
  let r := Endpoint.upload_of (Some "k") 1700000000 "a.png" "Name: A B" in
  bounded (Z.to_nat 2) (snd (limiter 2 60 [r; r; r] [])).
Proof.
  apply (history_bounded 2 60 _ []). constructor.
Defined.

(** X13. [request_history] never loses a key: the identifiers it
    holds stay, in their order, also when all their readings have
    expired; new ones are added behind them. *)
Theorem history_keys_stay (RATE_LIMIT RATE_LIMIT_WINDOW : Z)
    (reqs : list request) (h : history) :
  exists more,
    clients (snd (limiter RATE_LIMIT RATE_LIMIT_WINDOW reqs h))
    = (clients h ++ more)%list.
Proof.
  revert h. induction reqs as [|req reqs IH]; intros h.
  - exists []. cbn [limiter snd]. now rewrite app_nil_r.
  - cbn [limiter].
    destruct (within_limit_clients RATE_LIMIT RATE_LIMIT_WINDOW req h)
      as [m1 E1].
    destruct (within_limit RATE_LIMIT RATE_LIMIT_WINDOW req h) as [ok h'].
    destruct (IH h') as [m2 E2].
    destruct (limiter RATE_LIMIT RATE_LIMIT_WINDOW reqs h') as [oks h''].
    cbn [snd] in *. exists (m1 ++ m2)%list.
    now rewrite E2, E1, app_assoc.
Qed.

(** X14. With a [RATE_LIMIT] of zero or less the wrapped view is
    never called: every request is answered 429, whatever the history
    holds. *)
Theorem limit_not_positive (RATE_LIMIT RATE_LIMIT_WINDOW : Z) (f : view)
    (req : request) (st : server) :
  (RATE_LIMIT <= 0)%Z ->
  rate_limit RATE_LIMIT RATE_LIMIT_WINDOW f req st
  = (Return (Reply (Error "Rate limit exceeded") 429),
     Server (clean_old RATE_LIMIT_WINDOW (time_time req) (request_history st))
            (cache_dir st)).
Proof.
  intros L. unfold rate_limit, within_limit. cbv zeta.
  destruct (Z.leb_spec RATE_LIMIT
              (Z.of_nat (List.length
                 (history_get
                    (clean_old RATE_LIMIT_WINDOW (time_time req)
                       (request_history st))
                    (client_id req))))); [reflexivity|lia].
Qed.

Lemma limit_not_positive_witness :
  let r := Endpoint.upload_of (Some "k") 1700000000 "a.png" "Name: A B" in
  rate_limit 0 60 (fun _ st => (Raise Unauthorized, st)) r (Server [] None)
  = (Return (Reply (Error "Rate limit exceeded") 429), Server [] None).
Proof.
  apply (limit_not_positive 0 60 (fun _ st => (Raise Unauthorized, st))
           (Endpoint.upload_of (Some "k") 1700000000 "a.png" "Name: A B")
           (Server [] None)).
  lia.
Defined.

Lemma recent_same (RATE_LIMIT_WINDOW : Z) (now : spec_float) :
  finite now = true -> (0 < RATE_LIMIT_WINDOW)%Z ->
  recent RATE_LIMIT_WINDOW now now = true.
Proof.
  intros F W. unfold recent.
  assert (E : exists s, SFsub Float.prec Float.emax now now = S754_zero s).
  { destruct now as [s|s| |s m e]; try discriminate F.
    - exists false. now destruct s.
    - exists false. unfold SFsub. now rewrite Z.sub_diag. }
  destruct E as [s ->]. now apply Z.ltb_lt.
Qed.

Lemma filter_repeat_same (RATE_LIMIT_WINDOW : Z) (now : spec_float) (m : nat) :
  finite now = true -> (0 < RATE_LIMIT_WINDOW)%Z ->
  filter (recent RATE_LIMIT_WINDOW now) (repeat now m) = repeat now m.
Proof.
  intros F W. induction m as [|m IH]; [reflexivity|].
  cbn [repeat filter]. now rewrite (recent_same _ _ F W), IH.
Qed.

Lemma burst_from (RATE_LIMIT RATE_LIMIT_WINDOW : Z) (req : request)
    (n k m : nat) (h : history) :
  finite (time_time req) = true -> (0 < RATE_LIMIT_WINDOW)%Z ->
  (h = [] /\ m = 0) \/ h = [(client_id req, repeat (time_time req) m)] ->
  m = k \/ ((RATE_LIMIT <= Z.of_nat m)%Z /\ m <= k) ->
  fst (limiter RATE_LIMIT RATE_LIMIT_WINDOW (repeat req n) h)
  = map (fun i => (Z.of_nat i <? RATE_LIMIT)%Z) (seq k n).
Proof.
  intros F W. revert k m h. induction n as [|n IH]; intros k m h Sh K;
    [reflexivity|].
  cbn [repeat limiter seq map].
  assert (G : history_get (clean_old RATE_LIMIT_WINDOW (time_time req) h)
                (client_id req) = repeat (time_time req) m
              /\ (clean_old RATE_LIMIT_WINDOW (time_time req) h = h)
              /\ history_set (client_id req) (repeat (time_time req) (S m)) h
                 = [(client_id req, repeat (time_time req) (S m))]).
  { destruct Sh as [[-> ->] | ->].
    - repeat split.
    - cbn [clean_old map history_get history_set].
      rewrite client_eqb_refl, (filter_repeat_same _ _ m F W).
      repeat split. }
  destruct G as (G1 & G2 & G3).
  unfold within_limit. cbv zeta. rewrite G1, G2, repeat_length.
  assert (R : (repeat (time_time req) m ++ [time_time req])%list
              = repeat (time_time req) (S m)).
  { clear. induction m as [|m IH]; [reflexivity|].
    cbn [repeat app]. now rewrite IH. }
  rewrite R, G3.
  destruct (Z.leb_spec RATE_LIMIT (Z.of_nat m)) as [L|L].
  - specialize (IH (S k) m h Sh).
    destruct (limiter RATE_LIMIT RATE_LIMIT_WINDOW (repeat req n) h)
      as [oks h'] eqn:E.
    cbn [fst] in *. rewrite IH by (right; lia). f_equal.
    symmetry. apply Z.ltb_ge. lia.
  - assert (m = k) as -> by (destruct K as [K|K]; [exact K|lia]).
    specialize (IH (S k) (S k)
                  [(client_id req, repeat (time_time req) (S k))]).
    destruct (limiter RATE_LIMIT RATE_LIMIT_WINDOW (repeat req n)
                [(client_id req, repeat (time_time req) (S k))])
      as [oks h'] eqn:E.
    cbn [fst] in *. rewrite IH by auto. f_equal.
    symmetry. now apply Z.ltb_lt.
Qed.

(** X15. Of a burst of requests that one client sends at one clock
    reading to a server with an empty history, the first [RATE_LIMIT]
    are let through and all later ones refused, when the window is
    positive. *)
Theorem burst_limited (RATE_LIMIT RATE_LIMIT_WINDOW : Z) (req : request)
    (n : nat) :
  finite (time_time req) = true ->
  (0 < RATE_LIMIT_WINDOW)%Z ->
  fst (limiter RATE_LIMIT RATE_LIMIT_WINDOW (repeat req n) [])
  = map (fun i => (Z.of_nat i <? RATE_LIMIT)%Z) (seq 0 n).
Proof.
  intros F W. apply (burst_from _ _ req n 0 0 [] F W); auto.
Qed.

Lemma burst_limited_witness :
  let r := Endpoint.upload_of (Some "k") 1700000000 "a.png" "Name: A B" in
  fst (limiter 2 60 (repeat r 4) []) = [true; true; false; false].
Proof.
  apply (burst_limited 2 60
           (Endpoint.upload_of (Some "k") 1700000000 "a.png" "Name: A B") 4).
  - reflexivity.
  - lia.
Defined.

End Decorated.

(** * Properties of [get_reader] *)

Section ReaderFacts.
Import Extractor Reader.

Variable R : Type.

Lemma get_reader_keeps (s : setup R) (reader : option R) (r : R) :
  fst (get_reader s reader) = Val r -> snd (get_reader s reader) = Some r.
Proof.
  unfold get_reader. destruct reader as [r0|].
  - cbn [fst snd]. now intros [= ->].
  - destruct (match cuda_is_available s with
              | Val gpu_available => first_Reader s gpu_available
              | Exn msg => Exn msg
              end) as [r1|m1].
    + cbn [fst snd]. now intros [= ->].
    + destruct (cpu_Reader s) as [r2|m2]; cbn [fst snd];
        [now intros [= ->]|discriminate].
Qed.

Lemma calls_cached (ss : list (setup R)) (r : R) :
  calls ss (Some r) = (map (fun _ => Val r) ss, Some r).
Proof.
  induction ss as [|s ss IH]; [reflexivity|].
  cbn [calls get_reader map]. now rewrite IH.
Qed.

End ReaderFacts.

Section ReaderCached.
Import Extractor Reader.

(** X16. Once a call of [get_reader] has returned a reader, every
    later call returns that same reader, whatever [torch] and
    [easyocr] would answer then, and the module variable holds it. *)
Theorem reader_cached (R : Type) (s : setup R) (ss : list (setup R))
    (reader : option R) (r : R) :
  fst (get_reader s reader) = Val r ->
  calls ss (snd (get_reader s reader)) = (map (fun _ => Val r) ss, Some r).
Proof.
  intros H. rewrite (get_reader_keeps R s reader r H). apply calls_cached.
Qed.

Lemma reader_cached_witness :
  let s := Setup nat (Val true) (fun _ => Exn "no CUDA device") (Val 1) in
  let s' := Setup nat (Exn "no module named torch") (fun _ => Val 2)
              (Exn "download failed") in
  calls [s'; s'] (snd (get_reader s None)) = ([Val 1; Val 1], Some 1).
Proof.
  exact (reader_cached nat
           (Setup nat (Val true) (fun _ => Exn "no CUDA device") (Val 1))
           [Setup nat (Exn "no module named torch") (fun _ => Val 2)
              (Exn "download failed");
            Setup nat (Exn "no module named torch") (fun _ => Val 2)
              (Exn "download failed")]
           None 1 eq_refl).
Defined.

(** X17. [get_reader] raises only when no reader is held and the
    construction on the CPU fails after the first attempt failed; the
    exception is that of the CPU construction, and the module variable
    stays empty, so that the next call tries again. *)
Theorem reader_failure (R : Type) (s : setup R) (reader : option R)
    (msg : string) :
  fst (get_reader s reader) = Exn msg ->
  reader = None /\
  cpu_Reader s = Exn msg /\
  snd (get_reader s reader) = None /\
  (forall gpu r, cuda_is_available s = Val gpu -> first_Reader s gpu <> Val r).
Proof.
  unfold get_reader. destruct reader as [r0|]; [discriminate|].
  destruct (cuda_is_available s) as [gpu|m0].
  - destruct (first_Reader s gpu) as [r1|m1] eqn:E1; [discriminate|].
    destruct (cpu_Reader s) as [r2|m2]; cbn [fst snd]; [discriminate|].
    intros [= ->]. repeat split. intros gpu' r [= <-]. congruence.
  - destruct (cpu_Reader s) as [r2|m2]; cbn [fst snd]; [discriminate|].
    intros [= ->]. repeat split. discriminate.
Qed.

Lemma reader_failure_witness :
  let s := Setup nat (Val false) (fun _ => Exn "download failed")
             (Exn "model file missing") in
  cpu_Reader s = Exn "model file missing" /\
  snd (get_reader s None) = None.
Proof.
  destruct (reader_failure nat
              (Setup nat (Val false) (fun _ => Exn "download failed")
                 (Exn "model file missing"))
              None "model file missing" eq_refl) as (_ & A & B & _).
  exact (conj A B).
Defined.

End ReaderCached.

(** * Properties of [process_image] and of its route *)

Section ViewFacts.
Import Py Extractor App Utils Endpoint.

Variable sequence_ratio : string -> string -> res spec_float.

Lemma without_fresh (name : string) (files : list string) :
  ~ In name files -> without name (name :: files) = files.
Proof.
  intros N. unfold without. cbn [filter]. rewrite String.eqb_refl. cbn [negb].
  induction files as [|f files IH]; [reflexivity|].
  cbn [filter]. destruct (String.eqb_spec f name) as [->|_].
  - elim N. now left.
  - cbn [negb]. f_equal. apply IH. intros I. apply N. now right.
Qed.

Lemma cleanup_fresh (o : os) (name : string) (files : list string) :
  os_remove o = Val tt -> os_rmdir o = Val tt -> ~ In name files ->
  cleanup_file o name (Some (name :: files))
  = match files with [] => None | _ => Some files end.
Proof.
  intros Rm Rd N. unfold cleanup_file, mem. cbn [existsb].
  rewrite String.eqb_refl, Rm, (without_fresh name files N). cbn [orb].
  destruct files; [now rewrite Rd|reflexivity].
Qed.

Lemma ensure_cache_dir_some (o : os) (c c' : cache) :
  ensure_cache_dir o c = (Val tt, c') -> exists files, c' = Some files.
Proof.
  unfold ensure_cache_dir. destruct c as [files|].
  - intros [= <-]. eauto.
  - destruct (os_makedirs o); [|discriminate]. intros [= <-]. eauto.
Qed.

Lemma process_image_history (req : request) (st : server) :
  request_history (snd (process_image sequence_ratio req st))
  = request_history st.
Proof.
  unfold process_image, failure. cbv zeta.
  destruct (files_image req) as [[file|]|e]; try reflexivity.
  destruct (String.eqb (filename file) ""); [reflexivity|].
  destruct (allowed_file (filename file)) as [[|]|]; try reflexivity.
  destruct (ensure_cache_dir (system req) (cache_dir st)) as [[u|m] c];
    [|reflexivity].
  destruct (NamedTemporaryFile (temp_name req) c) as [[p|m] c1];
    [|reflexivity].
  destruct (save file); [|reflexivity].
  destruct (negb (validate_file_mime (system req) p)); [reflexivity|].
  destruct (imread req) as [[|]|]; reflexivity.
Qed.

Lemma process_image_reaches (req : request) (st : server) (file : upload)
    (image_path : string) (files : list string) :
  creates req st file image_path files ->
  process_image sequence_ratio req st
  = match save file with
    | Exn _ =>
        (failure "Failed to process image upload" 500,
         Server (request_history st) (Some (image_path :: files)))
    | Val _ =>
        let cleaned :=
          Server (request_history st)
            (cleanup_file (system req) image_path
               (Some (image_path :: files))) in
        if negb (validate_file_mime (system req) image_path)
        then (failure "Invalid file format" 400, cleaned)
        else
          match imread req with
          | Exn _ => (failure "Image processing error" 500, cleaned)
          | Val false => (failure "Invalid image provided" 400, cleaned)
          | Val true =>
              (Return
                 (Reply
                    (Result
                       (attach_similarity sequence_ratio (request_form req)
                          (extract_nid_fields (ocr req) ImgArray)))
                    200),
               cleaned)
          end
    end.
Proof.
  intros (F & N & A & E & T). unfold process_image. cbv zeta.
  rewrite F. apply String.eqb_neq in N. rewrite N, A, E.
  unfold NamedTemporaryFile. rewrite T. reflexivity.
Qed.

Lemma handle_exceptions_returns (f : view) (req : request) (st : server) :
  exists r,
    handle_exceptions f req st = (Return r, snd (f req st)).
Proof.
  unfold handle_exceptions. destruct (f req st) as [[r|[]] st']; eauto.
Qed.

Lemma array_error (w : world) :
  let e := error (extract_nid_fields w ImgArray) in
  e = None \/ e = Some "No text detected in the image" \/
  exists msg,
    e = Some ("OCR reading failed: " ++ msg) \/
    e = Some ("OCR processing failed: " ++ msg).
Proof.
  cbv zeta. unfold extract_nid_fields, try_body. cbv zeta.
  destruct (get_reader w) as [u|m]; [|right; right; exists m; now right].
  destruct (readtext w ImgArray) as [[|x l]|m];
    [right; now left| |right; right; exists m; now left].
  unfold extract_from_results, bind, lift.
  destruct (py_join " " (collect_blocks (x :: l))) as [text|m];
    [|right; right; exists m; now right].
  destruct (extract_fields_runs text) as (n & b & i & _ & _ & _ & E & _).
  rewrite E. left. now destruct n, b, i.
Qed.

Lemma attach_to_empty (request_form : res form) (msg : string) :
  status
    (similarity_of
       (attach_similarity sequence_ratio request_form
          (NidData "" "" "" "" (Some msg))))
  <> "error_calculating_similarity".
Proof.
  unfold attach_similarity. destruct (provided request_form) as [pn pd].
  unfold score, score_slot. cbn [Name Date_of_birth strip lstrip rstrip truthy].
  rewrite !andb_false_r.
  destruct (negb (truthy pn) && negb (truthy pd));
    [cbn; discriminate|].
  destruct (truthy pn), (truthy pd); cbn; discriminate.
Qed.

End ViewFacts.

Section ViewTheorems.
Import Py Extractor App Utils Endpoint.

(** X18. Every upload that [process_image] saves is removed again
    before the reply, whatever the checks and the extraction then
    give, when the two removals succeed: the directory is left with
    the files it had, or is removed when it has none - also when it was
    there, empty, at the start. *)
Theorem saved_upload_removed
    (sequence_ratio : string -> string -> res spec_float)
    (req : request) (st : server) (file : upload) (image_path : string)
    (files : list string) :
  creates req st file image_path files ->
  save file = Val tt ->
  os_remove (system req) = Val tt ->
  os_rmdir (system req) = Val tt ->
  ~ In image_path files ->
  cache_dir (snd (process_image sequence_ratio req st))
  = match files with [] => None | _ => Some files end.
Proof.
  intros C S Rm Rd N.
  rewrite (process_image_reaches sequence_ratio req st file image_path files C).
  rewrite S. cbv zeta.
  rewrite (cleanup_fresh (system req) image_path files Rm Rd N).
  destruct (negb (validate_file_mime (system req) image_path));
    [reflexivity|].
  destruct (imread req) as [[|]|]; reflexivity.
Qed.

Lemma saved_upload_removed_witness :
  cache_dir
    (snd (process_image difflib_ratio
            (upload_of (Some "k") 1700000000 "a.png" "Name: A B")
            (Server [] (Some ["old.jpg"]))))
  = Some ["old.jpg"].
Proof.
  apply (saved_upload_removed difflib_ratio
           (upload_of (Some "k") 1700000000 "a.png" "Name: A B")
           (Server [] (Some ["old.jpg"]))
           (Upload "a.png" (Val tt)) "tmp1.jpg" ["old.jpg"]);
    try reflexivity.
  - repeat split. discriminate.
  - intros [H|[]]. discriminate H.
Defined.

(** X19. When [file.save] raises, the temporary file that was
    created for the upload stays in the cache directory: the reply is
    500 and nothing removes the file. *)
Theorem failed_save_leaves_file
    (sequence_ratio : string -> string -> res spec_float)
    (req : request) (st : server) (file : upload) (image_path : string)
    (files : list string) (msg : string) :
  creates req st file image_path files ->
  save file = Exn msg ->
  process_image sequence_ratio req st
  = (Return (Reply (Error "Failed to process image upload") 500),
     Server (request_history st) (Some (image_path :: files))).
Proof.
  intros C S.
  rewrite (process_image_reaches sequence_ratio req st file image_path files C).
  now rewrite S.
Qed.

Lemma failed_save_leaves_file_witness :
  let req :=
    Request (Some "k") None (Float.of_Z 1700000000)
      (Return (Some (Upload "a.png" (Exn "No space left on device"))))
      (Val (Form None None)) (Val "tmp1.jpg") (Val true)
      (OS (Val tt) (Val tt) (Val tt) (fun _ => Val "image/png"))
      (world_of (one_block "Name: A B")) in
  process_image difflib_ratio req (Server [] None)
  = (Return (Reply (Error "Failed to process image upload") 500),
     Server [] (Some ["tmp1.jpg"])).
Proof.
  apply (failed_save_leaves_file difflib_ratio
           (Request (Some "k") None (Float.of_Z 1700000000)
              (Return (Some (Upload "a.png" (Exn "No space left on device"))))
              (Val (Form None None)) (Val "tmp1.jpg") (Val true)
              (OS (Val tt) (Val tt) (Val tt) (fun _ => Val "image/png"))
              (world_of (one_block "Name: A B")))
           (Server [] None)
           (Upload "a.png" (Exn "No space left on device"))
           "tmp1.jpg" [] "No space left on device").
  - repeat split. discriminate.
  - reflexivity.
Defined.

(** X20. [process_image] answers 200 exactly when the request
    reaches the extraction, and the reply then carries the result of
    [extract_nid_fields] on the array with its similarity entry; every
    other reply is an error message with status 400 or 500; and the
    view raises only what reading [request.files] raises. *)
Theorem process_image_replies
    (sequence_ratio : string -> string -> res spec_float)
    (req : request) (st : server) :
  match fst (process_image sequence_ratio req st) with
  | Return r =>
      (reaches_ocr req st /\
       r = Reply
             (Result
                (attach_similarity sequence_ratio (request_form req)
                   (extract_nid_fields (ocr req) ImgArray)))
             200) \/
      (~ reaches_ocr req st /\
       exists msg,
         r = Reply (Error msg) 400 \/ r = Reply (Error msg) 500)
  | Raise e => files_image req = Raise e
  end.
Proof.
  assert (No : forall file,
             files_image req = Return (Some file) ->
             (forall image_path files,
                 creates req st file image_path files ->
                 ~ (save file = Val tt /\
                    validate_file_mime (system req) image_path = true /\
                    imread req = Val true)) ->
             ~ reaches_ocr req st).
  { intros file F H (file' & p & files & C & S & V & I).
    assert (file' = file) as ->.
    { destruct C as (F' & _). congruence. }
    exact (H p files C (conj S (conj V I))). }
  unfold process_image, failure. cbv zeta.
  destruct (files_image req) as [[file|]|e] eqn:F; cbn [fst];
    [| |reflexivity].
  2:{ right. split; [|eauto].
      intros (file' & p & files & (F' & _) & _). congruence. }
  destruct (String.eqb_spec (filename file) "") as [E|E]; cbn [fst].
  { right. split; [|eauto]. apply (No file eq_refl).
    intros p files (_ & N & _). contradiction. }
  destruct (allowed_file_returns (filename file)) as (b & A).
  rewrite A. destruct b; cbn [fst].
  2:{ right. split; [|eauto]. apply (No file eq_refl).
      intros p files (_ & _ & A' & _). congruence. }
  destruct (ensure_cache_dir (system req) (cache_dir st)) as [[[]|m] c] eqn:En;
    cbn [fst].
  2:{ right. split; [|eauto]. apply (No file eq_refl).
      intros p files (_ & _ & _ & En' & _). congruence. }
  destruct (ensure_cache_dir_some _ _ _ En) as [files ->].
  unfold NamedTemporaryFile.
  destruct (temp_name req) as [p|m] eqn:T; cbn [fst].
  2:{ right. split; [|eauto]. apply (No file eq_refl).
      intros p files' (_ & _ & _ & _ & T'). congruence. }
  assert (C : creates req st file p files) by (repeat split; trivial).
  assert (Only : forall p' files',
             creates req st file p' files' -> p' = p).
  { intros p' files' (_ & _ & _ & _ & T'). congruence. }
  destruct (save file) as [[]|m] eqn:S; cbn [fst].
  2:{ right. split; [|eauto]. apply (No file eq_refl).
      intros p' files' _ (S' & _). congruence. }
  destruct (validate_file_mime (system req) p) eqn:V; cbn [negb fst].
  2:{ right. split; [|eauto]. apply (No file eq_refl).
      intros p' files' C' (_ & V' & _).
      rewrite (Only p' files' C') in V'. congruence. }
  destruct (imread req) as [[|]|m] eqn:I; cbn [fst].
  - left. split; [|reflexivity]. exists file, p, files. auto.
  - right. split; [|eauto]. apply (No file eq_refl).
    intros p' files' _ (_ & _ & I'). congruence.
  - right. split; [|eauto]. apply (No file eq_refl).
    intros p' files' _ (_ & _ & I'). congruence.
Qed.

(** X21. A failure of the reader or of the recognizer does not make
    the request fail: the reply has status 200 and carries four empty
    values, the error text and a similarity entry that is not the one
    of a failed comparison.  The error is never one of the two that
    [extract_nid_fields] keeps for paths and unsupported inputs. *)
Theorem ocr_failure_replies_200
    (sequence_ratio : string -> string -> res spec_float)
    (req : request) (st : server) :
  reaches_ocr req st ->
  fails (ocr req) ImgArray = true ->
  exists msg sim,
    fst (process_image sequence_ratio req st)
    = Return (Reply (Result (Response (NidData "" "" "" "" (Some msg)) sim)) 200)
    /\ status sim <> "error_calculating_similarity"
    /\ msg <> "Image file not found"
    /\ msg <> "Unsupported image format".
Proof.
  intros (file & p & files & C & S & V & I) F.
  rewrite (process_image_reaches sequence_ratio req st file p files C).
  rewrite S, V, I. cbv zeta. cbn [negb fst].
  destruct (extract_fails (ocr req) ImgArray F) as [msg E].
  pose proof (array_error (ocr req)) as A. cbv zeta in A.
  rewrite E in *. cbn [error] in A.
  exists msg,
    (similarity_of
       (attach_similarity sequence_ratio (request_form req)
          (NidData "" "" "" "" (Some msg)))).
  split; [|split; [apply attach_to_empty|]].
  - f_equal. f_equal. f_equal. unfold attach_similarity.
    destruct (provided (request_form req)) as [pn pd].
    now destruct (score sequence_ratio pn pd (NidData "" "" "" "" (Some msg))).
  - destruct A as [A|[A|[m [A|A]]]]; try discriminate A;
      injection A as ->; split; discriminate.
Qed.

Lemma ocr_failure_replies_200_witness :
  let req :=
    Request (Some "k") None (Float.of_Z 1700000000)
      (Return (Some (Upload "a.png" (Val tt))))
      (Val (Form (Some "A B") None)) (Val "tmp1.jpg") (Val true)
      (OS (Val tt) (Val tt) (Val tt) (fun _ => Val "image/png"))
      (World (fun _ => true) (Val tt) (fun _ => Exn "out of memory")) in
  exists msg sim,
    fst (process_image difflib_ratio req (Server [] None))
    = Return (Reply (Result (Response (NidData "" "" "" "" (Some msg)) sim)) 200)
    /\ status sim <> "error_calculating_similarity"
    /\ msg <> "Image file not found"
    /\ msg <> "Unsupported image format".
Proof.
  apply (ocr_failure_replies_200 difflib_ratio
           (Request (Some "k") None (Float.of_Z 1700000000)
              (Return (Some (Upload "a.png" (Val tt))))
              (Val (Form (Some "A B") None)) (Val "tmp1.jpg") (Val true)
              (OS (Val tt) (Val tt) (Val tt) (fun _ => Val "image/png"))
              (World (fun _ => true) (Val tt) (fun _ => Exn "out of memory")))
           (Server [] None)).
  - exists (Upload "a.png" (Val tt)), "tmp1.jpg", [].
    repeat split. discriminate.
  - reflexivity.
Defined.

End ViewTheorems.

Section RouteFacts.
Import Py Extractor App Utils Endpoint.

Variable sequence_ratio : string -> string -> res spec_float.
Variable AUTH_TOKEN : string.
Variable RATE_LIMIT : Z.
Variable RATE_LIMIT_WINDOW : Z.

Lemma authentic_token (req : request) :
  authentic AUTH_TOKEN req = true ->
  token req = Some AUTH_TOKEN /\ AUTH_TOKEN <> "".
Proof.
  unfold authentic. destruct (token req) as [t|]; [|discriminate].
  intros H. apply andb_true_iff in H as [N E].
  apply String.eqb_eq in E. subst t. split; [reflexivity|].
  intros ->. discriminate N.
Qed.

(** The route, by cases on the two tests in front of the view. *)
Lemma route_cases (req : request) (st : server) :
  let w := within_limit RATE_LIMIT RATE_LIMIT_WINDOW req (request_history st) in
  (authentic AUTH_TOKEN req = false /\
   exists msg,
     route sequence_ratio AUTH_TOKEN RATE_LIMIT RATE_LIMIT_WINDOW req st
     = (Return (Reply (Error msg) 401), st)) \/
  (authentic AUTH_TOKEN req = true /\ fst w = false /\
   route sequence_ratio AUTH_TOKEN RATE_LIMIT RATE_LIMIT_WINDOW req st
   = (Return (Reply (Error "Rate limit exceeded") 429),
      Server (snd w) (cache_dir st))) \/
  (authentic AUTH_TOKEN req = true /\ fst w = true /\
   route sequence_ratio AUTH_TOKEN RATE_LIMIT RATE_LIMIT_WINDOW req st
   = handle_exceptions (process_image sequence_ratio) req
       (Server (snd w) (cache_dir st))).
Proof.
  cbv zeta. unfold route, authenticate, authentic.
  destruct (token req) as [[|c t]|]; [left; eauto| |left; eauto].
  cbn [String.eqb negb andb].
  change (match AUTH_TOKEN with
          | "" => false
          | String c2 s2' => if Ascii.eqb c c2 then (t =? s2')%string else false
          end) with (String.eqb (String c t) AUTH_TOKEN).
  destruct (String.eqb (String c t) AUTH_TOKEN); cbn [negb]; [|left; eauto].
  right. unfold rate_limit.
  destruct (within_limit RATE_LIMIT RATE_LIMIT_WINDOW req (request_history st))
    as [[|] h]; cbn [fst snd]; auto.
Qed.

Lemma route_state (req : request) (st : server) :
  request_history
    (snd (route sequence_ratio AUTH_TOKEN RATE_LIMIT RATE_LIMIT_WINDOW req st))
  = (if authentic AUTH_TOKEN req
     then snd (within_limit RATE_LIMIT RATE_LIMIT_WINDOW req
                 (request_history st))
     else request_history st) /\
  exists r,
    fst (route sequence_ratio AUTH_TOKEN RATE_LIMIT RATE_LIMIT_WINDOW req st)
    = Return r.
Proof.
  destruct (route_cases req st)
    as [(A & msg & E)|[(A & W & E)|(A & W & E)]]; rewrite E, A; cbn [fst snd].
  - eauto.
  - eauto.
  - destruct (handle_exceptions_returns (process_image sequence_ratio) req
                (Server
                   (snd (within_limit RATE_LIMIT RATE_LIMIT_WINDOW req
                           (request_history st)))
                   (cache_dir st))) as [r ->].
    cbn [fst snd]. rewrite process_image_history. eauto.
Qed.

Lemma one_bucket_step (req : request) (h : history) :
  token req = Some AUTH_TOKEN -> one_bucket AUTH_TOKEN h ->
  one_bucket AUTH_TOKEN (snd (within_limit RATE_LIMIT RATE_LIMIT_WINDOW req h)).
Proof.
  intros T B. unfold within_limit, client_id. rewrite T. cbv zeta.
  assert (C : one_bucket AUTH_TOKEN
                (clean_old RATE_LIMIT_WINDOW (time_time req) h)).
  { destruct B as [->|[ts ->]]; [now left|right]. cbn [clean_old map]. eauto. }
  destruct (RATE_LIMIT <=? _)%Z; cbn [snd]; [exact C|].
  right. destruct C as [->|[ts ->]]; cbn [history_set history_get].
  - eauto.
  - rewrite client_eqb_refl. eauto.
Qed.

Lemma serve_invariant (reqs : list request) (st : server) :
  one_bucket AUTH_TOKEN (request_history st) ->
  bounded (Z.to_nat RATE_LIMIT) (request_history st) ->
  let out :=
    serve sequence_ratio AUTH_TOKEN RATE_LIMIT RATE_LIMIT_WINDOW reqs st in
  one_bucket AUTH_TOKEN (request_history (snd out)) /\
  bounded (Z.to_nat RATE_LIMIT) (request_history (snd out)) /\
  Forall (fun x => exists r, x = Return r) (fst out).
Proof.
  cbv zeta. revert st. induction reqs as [|req reqs IH]; intros st B L.
  - cbn [serve fst snd]. auto.
  - cbn [serve].
    destruct (route_state req st) as [H [r E]].
    destruct (route sequence_ratio AUTH_TOKEN RATE_LIMIT RATE_LIMIT_WINDOW
                req st) as [x st'].
    cbn [fst snd] in H, E. subst x.
    assert (B' : one_bucket AUTH_TOKEN (request_history st')).
    { rewrite H. destruct (authentic AUTH_TOKEN req) eqn:A; [|exact B].
      apply one_bucket_step; trivial. now apply authentic_token. }
    assert (L' : bounded (Z.to_nat RATE_LIMIT) (request_history st')).
    { rewrite H. destruct (authentic AUTH_TOKEN req); [|exact L].
      now apply within_limit_bounded. }
    destruct (IH st' B' L') as (I1 & I2 & I3).
    destruct (serve sequence_ratio AUTH_TOKEN RATE_LIMIT RATE_LIMIT_WINDOW
                reqs st') as [xs st''].
    cbn [fst snd] in *. repeat split; trivial. constructor; eauto.
Qed.

End RouteFacts.

Section RouteTheorems.
Import Py Extractor App Utils Endpoint.




(** X24. An upload that is too large is answered by
    [handle_exceptions], 413 with its own message, after the request
    was counted against the limit; the cache directory is not
    touched. *)
Theorem oversized_upload
    (sequence_ratio : string -> string -> res spec_float)
    (AUTH_TOKEN : string) (RATE_LIMIT RATE_LIMIT_WINDOW : Z)
    (req : request) (st : server) :
  authentic AUTH_TOKEN req = true ->
  fst (within_limit RATE_LIMIT RATE_LIMIT_WINDOW req (request_history st))
  = true ->
  files_image req = Raise RequestEntityTooLarge ->
  route sequence_ratio AUTH_TOKEN RATE_LIMIT RATE_LIMIT_WINDOW req st
  = (Return (Reply (Error "Uploaded file exceeds size limit") 413),
     Server
       (snd (within_limit RATE_LIMIT RATE_LIMIT_WINDOW req
               (request_history st)))
       (cache_dir st)).
Proof.
  intros A W F.
  destruct (route_cases sequence_ratio AUTH_TOKEN RATE_LIMIT
              RATE_LIMIT_WINDOW req st)
    as [(A' & _)|[(_ & W' & _)|(_ & _ & E)]]; try congruence.
  rewrite E. unfold handle_exceptions, process_image. cbv zeta.
  now rewrite F.
Qed.

Lemma oversized_upload_witness :
  let req :=
    Request (Some "k") None (Float.of_Z 1700000000)
      (Raise RequestEntityTooLarge)
      (Val (Form None None)) (Val "tmp1.jpg") (Val true)
      (OS (Val tt) (Val tt) (Val tt) (fun _ => Val "image/png"))
      (world_of (one_block "Name: A B")) in
  route difflib_ratio "k" 10 60 req (Server [] None)
  = (Return (Reply (Error "Uploaded file exceeds size limit") 413),
     Server (snd (within_limit 10 60 req [])) None).
Proof.
  apply (oversized_upload difflib_ratio "k" 10 60
           (Request (Some "k") None (Float.of_Z 1700000000)
              (Raise RequestEntityTooLarge)
              (Val (Form None None)) (Val "tmp1.jpg") (Val true)
              (OS (Val tt) (Val tt) (Val tt) (fun _ => Val "image/png"))
              (world_of (one_block "Name: A B")))
           (Server [] None));
    reflexivity.
Defined.

End RouteTheorems.

Section CacheFacts.
Import Py Extractor Utils.

Lemma without_keeps (name f : string) (files : list string) :
  In f files -> f <> name -> In f (without name files).
Proof.
  intros I N. unfold without. apply filter_In. split; [exact I|].
  apply String.eqb_neq in N. now rewrite N.
Qed.

(** X25. [cleanup_file] is safe for the other files of the cache
    directory: whatever the operating system answers, a file other
    than the one named stays, and the directory with it; and when the
    named file is not there, nothing changes. *)
Theorem cleanup_file_spares (o : os) (filepath : string)
    (files : list string) :
  (forall f, In f files -> f <> filepath ->
     exists rest,
       cleanup_file o filepath (Some files) = Some rest /\ In f rest) /\
  (mem filepath files = false ->
   cleanup_file o filepath (Some files) = Some files) /\
  cleanup_file o filepath None = None.
Proof.
  split; [|split; [|reflexivity]].
  - intros f I N. unfold cleanup_file.
    destruct (mem filepath files); [|eauto].
    destruct (os_remove o); [|eauto].
    pose proof (without_keeps filepath f files I N) as K.
    destruct (without filepath files) as [|x rest]; [contradiction|eauto].
  - intros M. unfold cleanup_file. now rewrite M.
Qed.

End CacheFacts.
